(** * A time-travelling file system: shallow embedding of [main.cpp]

    The program keeps, for every file, a tree of [VersionNode]s, an id index
    ([HashMap<int, VersionNode*>]) and an active pointer; the [FileSystem]
    owns the files ([HashMap<string, File*>]) and two [MaxHeap]s of
    [FileMetric]s that are rebuilt after every modification.

    Conventions of the embedding:
    - [int] and [long long] values are integers of [Z] with the wrap-around
      of the usual two's complement targets written out ([wrap32], [wrap64]);
      [size_t] is 64 bits wide ([to_size_t]);
    - objects created with [new] live in a store (a list); a pointer is an
      index in that store and [nullptr] is [None];
    - a method is a state transformer over its object and the [World]
      (the clock behind [time(nullptr)], the locale behind [strftime] and
      the text written to [cout]); it yields [None] when the C++ code would
      not return normally (an invalid pointer, an index out of range, an
      exception nobody catches, a loop that does not end). *)

From Stdlib Require Import ZArith String Ascii List Lia ZifyNat DecimalString Sorted.
From stdpp Require Import base list strings numbers option.

Open Scope Z_scope.

(** ** Machine integers *)

Definition INT_MAX : Z := 2147483647.
Definition INT_MIN : Z := -2147483648.

(** Conversion to [int]. *)
Definition wrap32 (x : Z) : Z := (x + 2 ^ 31) mod 2 ^ 32 - 2 ^ 31.

(** Conversion to [long long]. *)
Definition wrap64 (x : Z) : Z := (x + 2 ^ 63) mod 2 ^ 64 - 2 ^ 63.

(** Conversion to [size_t]. *)
Definition to_size_t (x : Z) : Z := x mod 2 ^ 64.

(** [std::to_string] on an integer. *)
Definition to_string (x : Z) : string := NilZero.string_of_int (Z.to_int x).

(** ** The world outside the objects *)

Record World := mkWorld {
  time_src : nat -> Z;        (* the k-th call of time(nullptr) returns [time_src k] *)
  strftime_c : Z -> string;   (* strftime(.., "%c", localtime(&t)) *)
  ticks : nat;                (* how many times the clock has been read *)
  cout : list string          (* what has been printed, oldest first *)
}.

Definition M (St A : Type) : Type := St -> World -> option (A * St * World).

Definition ret {St A} (a : A) : M St A := fun s w => Some (a, s, w).

Definition bind {St A B} (m : M St A) (k : A -> M St B) : M St B :=
  fun s w => match m s w with
             | Some (a, s', w') => k a s' w'
             | None => None
             end.

Declare Scope cpp_scope.
Delimit Scope cpp_scope with cpp.
Notation "x <- m ;; k" := (bind m (fun x => k))
  (at level 100, m at next level, right associativity) : cpp_scope.
Notation "m ;; k" := (bind m (fun _ => k))
  (at level 100, right associativity) : cpp_scope.

Definition gets {St A} (f : St -> A) : M St A := fun s w => Some (f s, s, w).
Definition modify {St} (f : St -> St) : M St unit := fun s w => Some (tt, f s, w).
Definition abort {St A} : M St A := fun _ _ => None.

(** A step that may fail to return. *)
Definition lift {St A} (o : option A) : M St A :=
  fun s w => match o with
             | Some a => Some (a, s, w)
             | None => None
             end.

(** [time(nullptr)] *)
Definition time_nullptr {St} : M St Z :=
  fun s w => Some (time_src w (ticks w), s,
                   mkWorld (time_src w) (strftime_c w) (S (ticks w)) (cout w)).

(** [cout << text] *)
Definition print {St} (text : string) : M St unit :=
  fun s w => Some (tt, s,
                   mkWorld (time_src w) (strftime_c w) (ticks w) (cout w ++ [text])).

(** [strftime(time_buf, sizeof(time_buf), "%c", localtime(&t))] *)
Definition strftime {St} (t : Z) : M St string :=
  fun s w => Some (strftime_c w t, s, w).

(** ** custom_swap and custom_reverse (main.cpp, lines 17-37) *)

(** [custom_swap(vec[i], vec[j])] *)
Definition custom_swap {A} (vec : list A) (i j : nat) : option (list A) :=
  a ← vec !! i;
  b ← vec !! j;
  Some (<[j := a]> (<[i := b]> vec)).

Fixpoint custom_reverse_loop {A} (fuel : nat) (vec : list A) (start end_ : nat)
  : option (list A) :=
  match fuel with
  | O => None
  | S fuel' =>
      if (start <? end_)%nat then
        vec' ← custom_swap vec start end_;
        custom_reverse_loop fuel' vec' (S start) (Nat.pred end_)
      else Some vec
  end.

Definition custom_reverse {A} (vec : list A) : option (list A) :=
  match vec with
  | [] => Some vec
  | _ => custom_reverse_loop (length vec) vec 0%nat (length vec - 1)%nat
  end.

(** ** custom_hash (lines 45-75) *)

Class CustomHash (K : Type) := custom_hash : K -> Z.

#[export] Instance custom_hash_int : CustomHash Z := fun key => to_size_t key.

(** The value of a [char] (signed, as on the usual targets). *)
Definition char_code (c : ascii) : Z :=
  let n := Z.of_N (N_of_ascii c) in if n <? 128 then n else n - 256.

Fixpoint custom_hash_string_loop (key : string) (hash_val p_pow : Z) : Z :=
  match key with
  | EmptyString => hash_val
  | String c rest =>
      custom_hash_string_loop rest
        (to_size_t (hash_val + wrap64 (wrap32 (wrap32 (char_code c - 97) + 1) * p_pow)))
        (wrap64 (p_pow * 31))
  end.

#[export] Instance custom_hash_string : CustomHash string :=
  fun key => custom_hash_string_loop key 0 1.

(** ** VersionNode (lines 82-109) *)

(** A pointer is an index in the store of its objects. *)
Abbreviation ptr := nat (only parsing).

Record VersionNode := mkVersionNode {
  version_id : Z;
  content : string;
  message : string;
  created_timestamp : Z;
  snapshot_timestamp : Z;
  parent : option ptr;
  children : list ptr
}.

Definition isSnapshot (n : VersionNode) : bool :=
  negb (snapshot_timestamp n =? 0).

(** ** HashMap (lines 117-228) *)

Record HashMap (K V : Type) := mkHashMap {
  table : list (list (K * V));   (* the buckets; a chain is a list, head first *)
  capacity : Z;
  current_size : Z
}.
Arguments mkHashMap {K V} _ _ _.
Arguments table {K V} _.
Arguments capacity {K V} _.
Arguments current_size {K V} _.

Module HashMap.
Section Ops.
Context {K V : Type} `{EqDecision K} `{CustomHash K}.

Definition new (initial_capacity : Z) : HashMap K V :=
  let capacity := if 0 <? initial_capacity then initial_capacity else 16 in
  mkHashMap (replicate (Z.to_nat capacity) []) capacity 0.

(** The index lies in [[0, capacity)] whenever [capacity > 0], which the
    constructor guarantees, so [table[index]] is always a bucket. *)
Definition hashFunction (hm : HashMap K V) (key : K) : Z :=
  wrap32 (custom_hash key mod to_size_t (capacity hm)).

Definition bucket (hm : HashMap K V) (index : Z) : list (K * V) :=
  default [] (table hm !! Z.to_nat index).

(** The first loop of [put]: the chain with the value of [key] overwritten,
    or [None] when the walk reaches the end of the chain. *)
Fixpoint put_walk (entry : list (K * V)) (key : K) (value : V)
  : option (list (K * V)) :=
  match entry with
  | [] => None
  | (k, v) :: next =>
      if decide (k = key) then Some ((k, value) :: next)
      else (next' ← put_walk next key value; Some ((k, v) :: next'))
  end.

Definition put (hm : HashMap K V) (key : K) (value : V) : HashMap K V :=
  let index := hashFunction hm key in
  match put_walk (bucket hm index) key value with
  | Some chain => mkHashMap (<[Z.to_nat index := chain]> (table hm))
                            (capacity hm) (current_size hm)
  | None => mkHashMap (<[Z.to_nat index := (key, value) :: bucket hm index]> (table hm))
                      (capacity hm) (wrap32 (current_size hm + 1))
  end.

Fixpoint get_walk (entry : list (K * V)) (key : K) : option V :=
  match entry with
  | [] => None
  | (k, v) :: next => if decide (k = key) then Some v else get_walk next key
  end.

(** [None] stands for [throw runtime_error("Key not found in HashMap")]. *)
Definition get (hm : HashMap K V) (key : K) : option V :=
  get_walk (bucket hm (hashFunction hm key)) key.

Fixpoint containsKey_walk (entry : list (K * V)) (key : K) : bool :=
  match entry with
  | [] => false
  | (k, _) :: next => if decide (k = key) then true else containsKey_walk next key
  end.

Definition containsKey (hm : HashMap K V) (key : K) : bool :=
  containsKey_walk (bucket hm (hashFunction hm key)) key.

Definition getValues (hm : HashMap K V) : list V :=
  flat_map (fun i => map snd (bucket hm (Z.of_nat i)))
           (seq 0 (Z.to_nat (capacity hm))).

End Ops.
End HashMap.

(** ** MaxHeap and FileMetric (lines 240-316) *)

(** [operator<] *)
Class Less (T : Type) := less : T -> T -> bool.

Record FileMetric := mkFileMetric {
  metric_filename : string;   (* the member [filename] *)
  value : Z
}.

#[export] Instance FileMetric_less : Less FileMetric :=
  fun this other => value this <? value other.

Record MaxHeap (T : Type) := mkMaxHeap { heap : list T }.
Arguments mkMaxHeap {T} _.
Arguments heap {T} _.

Module MaxHeap.
Section Ops.
Context {T : Type} `{Less T}.

Definition parent (i : Z) : Z := wrap32 (Z.quot (wrap32 (i - 1)) 2).
Definition leftChild (i : Z) : Z := wrap32 (wrap32 (2 * i) + 1).
Definition rightChild (i : Z) : Z := wrap32 (wrap32 (2 * i) + 2).

(** [heap[i]] with an [int] index (converted to [size_t]). *)
Definition at_ (heap : list T) (i : Z) : option T :=
  heap !! Z.to_nat (to_size_t i).

Definition swap (heap : list T) (i j : Z) : option (list T) :=
  custom_swap heap (Z.to_nat (to_size_t i)) (Z.to_nat (to_size_t j)).

Fixpoint heapifyUp_loop (fuel : nat) (heap : list T) (index : Z)
  : option (list T) :=
  match fuel with
  | O => None
  | S fuel' =>
      if 0 <? index then
        p ← at_ heap (parent index);
        c ← at_ heap index;
        if less p c then
          heap' ← swap heap (parent index) index;
          heapifyUp_loop fuel' heap' (parent index)
        else Some heap
      else Some heap
  end.

Definition heapifyUp (heap : list T) (index : Z) : option (list T) :=
  heapifyUp_loop (S (Z.to_nat index)) heap index.

(** One of the two comparisons of [heapifyDown]:
    [if (c < heap.size() && heap[maxIndex] < heap[c]) maxIndex = c;] *)
Definition pick (heap : list T) (maxIndex c : Z) : option Z :=
  if to_size_t c <? Z.of_nat (length heap) then
    a ← at_ heap maxIndex;
    b ← at_ heap c;
    Some (if less a b then c else maxIndex)
  else Some maxIndex.

Fixpoint heapifyDown_loop (fuel : nat) (heap : list T) (index maxIndex : Z)
  : option (list T) :=
  match fuel with
  | O => None
  | S fuel' =>
      let l := leftChild index in
      let r := rightChild index in
      maxIndex ← pick heap maxIndex l;
      maxIndex ← pick heap maxIndex r;
      if index =? maxIndex then Some heap
      else
        heap' ← swap heap index maxIndex;
        heapifyDown_loop fuel' heap' maxIndex maxIndex
  end.

Definition heapifyDown (heap : list T) (index : Z) : option (list T) :=
  heapifyDown_loop (S (length heap)) heap index index.

Definition isEmpty (h : MaxHeap T) : bool :=
  match heap h with [] => true | _ => false end.

Definition insert (h : MaxHeap T) (value : T) : option (MaxHeap T) :=
  let heap1 := heap h ++ [value] in
  heap2 ← heapifyUp heap1 (wrap32 (to_size_t (Z.of_nat (length heap1) - 1)));
  Some (mkMaxHeap heap2).

(** [None] stands for [throw out_of_range("Heap is empty")] (or for a step
    that does not return). *)
Definition extractMax (h : MaxHeap T) : option (T * MaxHeap T) :=
  match heap h with
  | [] => None
  | maxValue :: _ =>
      back ← list.last (heap h);
      let heap1 := <[0%nat := back]> (heap h) in
      let heap2 := take (length heap1 - 1)%nat heap1 in
      heap3 ← match heap2 with
              | [] => Some heap2
              | _ => heapifyDown heap2 0
              end;
      Some (maxValue, mkMaxHeap heap3)
  end.

End Ops.
End MaxHeap.

(** ** File (lines 323-352 and 394-517) *)

Record File := mkFile {
  filename : string;
  nodes : list VersionNode;      (* the VersionNode objects of this file *)
  root : ptr;
  active_version : ptr;
  version_map : HashMap Z ptr;
  total_versions : Z;
  last_modification_time : Z
}.

Definition NL : string := String "010"%char EmptyString.

Module File.

Definition set_nodes (ns : list VersionNode) (f : File) : File :=
  mkFile (filename f) ns (root f) (active_version f) (version_map f)
         (total_versions f) (last_modification_time f).
Definition set_root (p : ptr) (f : File) : File :=
  mkFile (filename f) (nodes f) p (active_version f) (version_map f)
         (total_versions f) (last_modification_time f).
Definition set_active_version (p : ptr) (f : File) : File :=
  mkFile (filename f) (nodes f) (root f) p (version_map f)
         (total_versions f) (last_modification_time f).
Definition set_version_map (m : HashMap Z ptr) (f : File) : File :=
  mkFile (filename f) (nodes f) (root f) (active_version f) m
         (total_versions f) (last_modification_time f).
Definition set_total_versions (n : Z) (f : File) : File :=
  mkFile (filename f) (nodes f) (root f) (active_version f) (version_map f)
         n (last_modification_time f).
Definition set_last_modification_time (t : Z) (f : File) : File :=
  mkFile (filename f) (nodes f) (root f) (active_version f) (version_map f)
         (total_versions f) t.

(** [p->...]: reading through a [VersionNode*]. *)
Definition deref (p : ptr) : M File VersionNode :=
  fun f w => match nodes f !! p with
             | Some n => Some (n, f, w)
             | None => None
             end.

(** [p->field = ...]: writing through a [VersionNode*]. *)
Definition update_node (p : ptr) (g : VersionNode -> VersionNode) : M File unit :=
  fun f w => match nodes f !! p with
             | Some n => Some (tt, set_nodes (<[p := g n]> (nodes f)) f, w)
             | None => None
             end.

Definition set_content (c : string) (n : VersionNode) : VersionNode :=
  mkVersionNode (version_id n) c (message n) (created_timestamp n)
                (snapshot_timestamp n) (parent n) (children n).
Definition set_message (m : string) (n : VersionNode) : VersionNode :=
  mkVersionNode (version_id n) (content n) m (created_timestamp n)
                (snapshot_timestamp n) (parent n) (children n).
Definition set_snapshot_timestamp (t : Z) (n : VersionNode) : VersionNode :=
  mkVersionNode (version_id n) (content n) (message n) (created_timestamp n)
                t (parent n) (children n).
Definition push_back_child (c : ptr) (n : VersionNode) : VersionNode :=
  mkVersionNode (version_id n) (content n) (message n) (created_timestamp n)
                (snapshot_timestamp n) (parent n) (children n ++ [c]).

(** [new VersionNode(id, initial_content, parent_node)] *)
Definition new_VersionNode (id : Z) (initial_content : string)
    (parent_node : option ptr) : M File ptr :=
  (t <- time_nullptr ;;
   p <- gets (fun f => length (nodes f)) ;;
   modify (fun f => set_nodes
     (nodes f ++ [mkVersionNode id initial_content EmptyString t 0 parent_node []]) f) ;;
   ret p)%cpp.

(** The body of the constructor [File::File(name)], run on the object whose
    members [filename] and [version_map] have been initialised. *)
Definition constructor_body : M File unit :=
  (modify (set_total_versions 1) ;;
   r <- new_VersionNode 0 EmptyString None ;;
   modify (set_root r) ;;
   r <- gets root ;;
   modify (set_active_version r) ;;
   r <- gets root ;;
   update_node r (set_message "Initial version") ;;
   t <- time_nullptr ;;
   r <- gets root ;;
   update_node r (set_snapshot_timestamp t) ;;
   r <- gets root ;;
   n <- deref r ;;
   modify (set_last_modification_time (snapshot_timestamp n)) ;;
   r <- gets root ;;
   modify (fun f => set_version_map (HashMap.put (version_map f) 0 r) f))%cpp.

(** [new File(name)]: the object the constructor leaves behind. *)
Definition new {St} (name : string) : M St File :=
  fun s w =>
    match constructor_body (mkFile name [] 0%nat 0%nat (HashMap.new 16) 0 0) w with
    | Some (_, f, w') => Some (f, s, w')
    | None => None
    end.

Definition read : M File string :=
  (a <- gets active_version ;;
   n <- deref a ;;
   ret (content n))%cpp.

(** The branch of [insert] and [update] taken on a snapshot. *)
Definition branch (new_content : string) : M File unit :=
  (tv <- gets total_versions ;;
   a <- gets active_version ;;
   new_version <- new_VersionNode tv new_content (Some a) ;;
   a <- gets active_version ;;
   update_node a (push_back_child new_version) ;;
   modify (set_active_version new_version) ;;
   tv <- gets total_versions ;;
   modify (fun f => set_version_map (HashMap.put (version_map f) tv new_version) f) ;;
   tv <- gets total_versions ;;
   modify (set_total_versions (wrap32 (tv + 1))))%cpp.

Definition insert (content_to_add : string) : M File unit :=
  (a <- gets active_version ;;
   n <- deref a ;;
   (if isSnapshot n then
      let new_content := content n +:+ content_to_add in
      branch new_content
    else
      a <- gets active_version ;;
      n <- deref a ;;
      update_node a (set_content (content n +:+ content_to_add))) ;;
   t <- time_nullptr ;;
   modify (set_last_modification_time t))%cpp.

Definition update (new_content : string) : M File unit :=
  (a <- gets active_version ;;
   n <- deref a ;;
   (if isSnapshot n then
      branch new_content
    else
      a <- gets active_version ;;
      update_node a (set_content new_content)) ;;
   t <- time_nullptr ;;
   modify (set_last_modification_time t))%cpp.

Definition snapshot (message : string) : M File unit :=
  (a <- gets active_version ;;
   n <- deref a ;;
   if isSnapshot n then
     print ("Error: A snapshot already exists for the current version. "
            +:+ "Modify the file to create a new version before snapshotting." +:+ NL)
   else
     a <- gets active_version ;;
     update_node a (set_message message) ;;
     t <- time_nullptr ;;
     a <- gets active_version ;;
     update_node a (set_snapshot_timestamp t) ;;
     t <- time_nullptr ;;
     modify (set_last_modification_time t) ;;
     name <- gets filename ;;
     print ("Snapshot created for '" +:+ name +:+ "'." +:+ NL))%cpp.

Definition rollback (versionId : Z) : M File bool :=
  (if versionId =? -1 then
     a <- gets active_version ;;
     n <- deref a ;;
     match parent n with
     | Some p => modify (set_active_version p) ;; ret true
     | None => ret false
     end
   else
     a <- gets active_version ;;
     n <- deref a ;;
     if versionId =? version_id n then
       print ("Error: Cannot rollback to the version that is already active." +:+ NL) ;;
       ret false
     else
       m <- gets version_map ;;
       match HashMap.get m versionId with
       | Some target_version =>
           modify (set_active_version target_version) ;; ret true
       | None => ret false
       end)%cpp.

(** The [while (current != nullptr)] loop of [history]. *)
Fixpoint history_walk (fuel : nat) (current : option ptr)
    (history_entries : list string) : M File (list string) :=
  match fuel with
  | O => abort
  | S fuel' =>
      match current with
      | None => ret history_entries
      | Some c =>
          (n <- deref c ;;
           entries <- (if isSnapshot n then
                         time_buf <- strftime (snapshot_timestamp n) ;;
                         let entry := "Version: " +:+ to_string (version_id n)
                                      +:+ ", Timestamp: " +:+ time_buf
                                      +:+ ", Message: " +:+ message n in
                         ret (history_entries ++ [entry])
                       else ret history_entries) ;;
           history_walk fuel' (parent n) entries)%cpp
      end
  end.

(** The final [for] loop of [history]. *)
Fixpoint history_join (history_entries : list string) (result : string) : string :=
  match history_entries with
  | [] => result
  | entry :: rest => history_join rest (result +:+ (entry +:+ NL))
  end.

Definition history : M File string :=
  (a <- gets active_version ;;
   fuel <- gets (fun f => S (length (nodes f))) ;;
   history_entries <- history_walk fuel (Some a) [] ;;
   match custom_reverse history_entries with
   | Some reversed => ret (history_join reversed EmptyString)
   | None => abort
   end)%cpp.

Definition getName : M File string := gets filename.
Definition getVersionCount : M File Z := gets total_versions.
Definition getLastModificationTime : M File Z := gets last_modification_time.

End File.

(** ** FileSystem (lines 360-388 and 524-644) *)

Record FileSystem := mkFileSystem {
  file_store : list File;               (* the File objects made by [create] *)
  files : HashMap string ptr;
  recent_files_heap : MaxHeap FileMetric;
  biggest_trees_heap : MaxHeap FileMetric
}.

Module FileSystem.

Definition set_file_store (fl : list File) (fs : FileSystem) : FileSystem :=
  mkFileSystem fl (files fs) (recent_files_heap fs) (biggest_trees_heap fs).
Definition set_files (m : HashMap string ptr) (fs : FileSystem) : FileSystem :=
  mkFileSystem (file_store fs) m (recent_files_heap fs) (biggest_trees_heap fs).
Definition set_recent_files_heap (h : MaxHeap FileMetric) (fs : FileSystem) : FileSystem :=
  mkFileSystem (file_store fs) (files fs) h (biggest_trees_heap fs).
Definition set_biggest_trees_heap (h : MaxHeap FileMetric) (fs : FileSystem) : FileSystem :=
  mkFileSystem (file_store fs) (files fs) (recent_files_heap fs) h.

(** [FileSystem::FileSystem()] *)
Definition new : FileSystem :=
  mkFileSystem [] (HashMap.new 256) (mkMaxHeap []) (mkMaxHeap []).

(** [file_ptr->method(...)]: a method of [File] run through a [File*]. *)
Definition call {A} (file_ptr : ptr) (m : M File A) : M FileSystem A :=
  fun fs w =>
    match file_store fs !! file_ptr with
    | Some f =>
        match m f w with
        | Some (a, f', w') =>
            Some (a, set_file_store (<[file_ptr := f']> (file_store fs)) fs, w')
        | None => None
        end
    | None => None
    end.

(** [files.get(filename)] *)
Definition files_get (name : string) : M FileSystem ptr :=
  (m <- gets files ;; lift (HashMap.get m name))%cpp.

(** The [for] loop of [updateAnalytics]; [time_t] and [int] widen to the
    [long long] of [FileMetric::value] without change. *)
Fixpoint updateAnalytics_loop (all_files : list ptr) : M FileSystem unit :=
  match all_files with
  | [] => ret tt
  | file_ptr :: rest =>
      (name <- call file_ptr File.getName ;;
       t <- call file_ptr File.getLastModificationTime ;;
       h <- gets recent_files_heap ;;
       h' <- lift (MaxHeap.insert h (mkFileMetric name t)) ;;
       modify (set_recent_files_heap h') ;;
       name <- call file_ptr File.getName ;;
       c <- call file_ptr File.getVersionCount ;;
       h <- gets biggest_trees_heap ;;
       h' <- lift (MaxHeap.insert h (mkFileMetric name c)) ;;
       modify (set_biggest_trees_heap h') ;;
       updateAnalytics_loop rest)%cpp
  end.

Definition updateAnalytics : M FileSystem unit :=
  (modify (set_recent_files_heap (mkMaxHeap [])) ;;
   modify (set_biggest_trees_heap (mkMaxHeap [])) ;;
   all_files <- gets (fun fs => HashMap.getValues (files fs)) ;;
   updateAnalytics_loop all_files)%cpp.

Definition create (name : string) : M FileSystem unit :=
  (taken <- gets (fun fs => HashMap.containsKey (files fs) name) ;;
   if taken then
     print ("Error: File '" +:+ name +:+ "' already exists." +:+ NL)
   else
     f <- File.new name ;;
     file_ptr <- gets (fun fs => length (file_store fs)) ;;
     modify (fun fs => set_file_store (file_store fs ++ [f]) fs) ;;
     modify (fun fs => set_files (HashMap.put (files fs) name file_ptr) fs) ;;
     updateAnalytics ;;
     print ("File '" +:+ name +:+ "' created." +:+ NL))%cpp.

Definition read (name : string) : M FileSystem string :=
  (known <- gets (fun fs => HashMap.containsKey (files fs) name) ;;
   if negb known then ret "Error: File not found."%string
   else
     file_ptr <- files_get name ;;
     call file_ptr File.read)%cpp.

Definition insert (name content : string) : M FileSystem unit :=
  (known <- gets (fun fs => HashMap.containsKey (files fs) name) ;;
   if negb known then print ("Error: File not found." +:+ NL)
   else
     file_ptr <- files_get name ;;
     call file_ptr (File.insert content) ;;
     updateAnalytics ;;
     print ("Content inserted into '" +:+ name +:+ "'." +:+ NL))%cpp.

Definition update (name content : string) : M FileSystem unit :=
  (known <- gets (fun fs => HashMap.containsKey (files fs) name) ;;
   if negb known then print ("Error: File not found." +:+ NL)
   else
     file_ptr <- files_get name ;;
     call file_ptr (File.update content) ;;
     updateAnalytics ;;
     print ("Content updated in '" +:+ name +:+ "'." +:+ NL))%cpp.

Definition snapshot (name message : string) : M FileSystem unit :=
  (known <- gets (fun fs => HashMap.containsKey (files fs) name) ;;
   if negb known then print ("Error: File not found." +:+ NL)
   else
     file_ptr <- files_get name ;;
     call file_ptr (File.snapshot message) ;;
     updateAnalytics)%cpp.

Definition rollback (name : string) (versionId : Z) : M FileSystem unit :=
  (known <- gets (fun fs => HashMap.containsKey (files fs) name) ;;
   if negb known then print ("Error: File not found." +:+ NL)
   else
     file_ptr <- files_get name ;;
     ok <- call file_ptr (File.rollback versionId) ;;
     if ok then print ("Rollback successful for '" +:+ name +:+ "'." +:+ NL)
     else print ("Error: Rollback failed. Invalid version or already at root." +:+ NL))%cpp.

Definition history (name : string) : M FileSystem string :=
  (known <- gets (fun fs => HashMap.containsKey (files fs) name) ;;
   if negb known then ret ("Error: File not found." +:+ NL)
   else
     file_ptr <- files_get name ;;
     call file_ptr File.history)%cpp.

(** [int limit = (num == -1) ? files.getValues().size() : num;]
    the two branches meet at [size_t] before the conversion to [int]. *)
Definition limit_of (num : Z) : M FileSystem Z :=
  (if num =? -1 then
     vals <- gets (fun fs => HashMap.getValues (files fs)) ;;
     ret (wrap32 (Z.of_nat (length vals)))
   else ret (wrap32 (to_size_t num)))%cpp.

Definition recentFiles_header (num : Z) : string :=
  if num =? -1 then "--- Top All Recently Modified Files ---" +:+ NL
  else "--- Top " +:+ to_string num +:+ " Recently Modified Files ---" +:+ NL.

Definition recentFiles_line (metric : FileMetric) (time_buf : string) : string :=
  metric_filename metric +:+ " (Modified: " +:+ time_buf +:+ ")" +:+ NL.

Fixpoint recentFiles_loop (fuel : nat) (limit count : Z)
    (tempHeap : MaxHeap FileMetric) (result : string) : M FileSystem string :=
  match fuel with
  | O => abort
  | S fuel' =>
      if (count <? limit) && negb (MaxHeap.isEmpty tempHeap) then
        (r <- lift (MaxHeap.extractMax tempHeap) ;;
         let metric := fst r in
         let t := value metric in
         time_buf <- strftime t ;;
         recentFiles_loop fuel' limit (wrap32 (count + 1)) (snd r)
           (result +:+ recentFiles_line metric time_buf))%cpp
      else ret result
  end.

Definition recentFiles (num : Z) : M FileSystem string :=
  (limit <- limit_of num ;;
   let result := EmptyString +:+ recentFiles_header num in
   tempHeap <- gets recent_files_heap ;;
   recentFiles_loop (S (length (heap tempHeap))) limit 0 tempHeap result)%cpp.

Definition biggestTrees_header (num : Z) : string :=
  if num =? -1 then "--- Top All Files by Version Count ---" +:+ NL
  else "--- Top " +:+ to_string num +:+ " Files by Version Count ---" +:+ NL.

Definition biggestTrees_line (metric : FileMetric) : string :=
  metric_filename metric +:+ " (" +:+ to_string (value metric) +:+ " versions)" +:+ NL.

Fixpoint biggestTrees_loop (fuel : nat) (limit count : Z)
    (tempHeap : MaxHeap FileMetric) (result : string) : M FileSystem string :=
  match fuel with
  | O => abort
  | S fuel' =>
      if (count <? limit) && negb (MaxHeap.isEmpty tempHeap) then
        (r <- lift (MaxHeap.extractMax tempHeap) ;;
         let metric := fst r in
         biggestTrees_loop fuel' limit (wrap32 (count + 1)) (snd r)
           (result +:+ biggestTrees_line metric))%cpp
      else ret result
  end.

Definition biggestTrees (num : Z) : M FileSystem string :=
  (limit <- limit_of num ;;
   let result := EmptyString +:+ biggestTrees_header num in
   tempHeap <- gets biggest_trees_heap ;;
   biggestTrees_loop (S (length (heap tempHeap))) limit 0 tempHeap result)%cpp.

End FileSystem.

(** ** The ROLLBACK command of [main] (lines 727-737)

    [stoi] is the standard library's; [None] stands for its
    [invalid_argument]. *)

Definition main_ROLLBACK (stoi : string -> option Z) (args : list string)
  : M FileSystem unit :=
  match args with
  | [name] => FileSystem.rollback name (-1)
  | [name; id] =>
      match stoi id with
      | Some versionId => FileSystem.rollback name versionId
      | None => print ("Error: Invalid version ID for ROLLBACK." +:+ NL)
      end
  | _ => print ("Error: Unknown command or incorrect arguments." +:+ NL)
  end.

(** ** The destructors of File and FileSystem (lines 405-415 and 526-532)

    The memory is not part of the objects above, so a destructor is given
    the list of what has been deleted so far and returns it extended; it
    does not return when it deletes an object a second time or reads
    through a pointer to a deleted one. *)

(** The [for (child : node->children)] loop of [deleteTree], over the
    recursive call. *)
Fixpoint deleteTree_children (deleteTree : ptr -> list ptr -> option (list ptr))
    (children : list ptr) (deleted : list ptr) : option (list ptr) :=
  match children with
  | [] => Some deleted
  | child :: rest =>
      deleted' ← deleteTree child deleted;
      deleteTree_children deleteTree rest deleted'
  end.

(** [deleteTree(node)] on the nodes [ns]; the fuel bounds the depth of the
    recursion. *)
Fixpoint deleteTree (fuel : nat) (ns : list VersionNode) (node : option ptr)
    (deleted : list ptr) : option (list ptr) :=
  match fuel with
  | O => None
  | S fuel' =>
      match node with
      | None => Some deleted
      | Some p =>
          if bool_decide (p ∈ deleted) then None
          else
            n ← ns !! p;
            deleted' ← deleteTree_children
                         (fun child => deleteTree fuel' ns (Some child))
                         (children n) deleted;
            if bool_decide (p ∈ deleted') then None
            else Some (deleted' ++ [p])
      end
  end.

(** [File::~File()]: the nodes it deletes, in order. *)
Definition delete_File (f : File) : option (list ptr) :=
  deleteTree (S (length (nodes f))) (nodes f) (Some (root f)) [].

(** The loop of [FileSystem::~FileSystem()]: the files deleted, each with
    the nodes its destructor deleted. *)
Fixpoint delete_files (store : list File) (all_files : list ptr)
    (deleted : list (ptr * list ptr)) : option (list (ptr * list ptr)) :=
  match all_files with
  | [] => Some deleted
  | file_ptr :: rest =>
      if bool_decide (file_ptr ∈ map fst deleted) then None
      else
        f ← store !! file_ptr;
        freed ← delete_File f;
        delete_files store rest (deleted ++ [(file_ptr, freed)])
  end.

(** [FileSystem::~FileSystem()] *)
Definition delete_FileSystem (fs : FileSystem) : option (list (ptr * list ptr)) :=
  delete_files (file_store fs) (HashMap.getValues (files fs)) [].

(** ** parse_input (lines 656-683) *)

(** [s.empty()] *)
Definition str_empty (s : string) : bool :=
  match s with
  | EmptyString => true
  | String _ _ => false
  end.

(** The [for (char c : line)] loop over what is left of the line; the
    locals [current_word] and [first_word] and the two output references
    are threaded through. *)
Fixpoint parse_input_loop (line : string) (current_word : string) (first_word : bool)
    (command : string) (args : list string) : string * bool * string * list string :=
  match line with
  | EmptyString => (current_word, first_word, command, args)
  | String c rest =>
      if Ascii.eqb c " " then
        if negb (str_empty current_word) then
          if first_word then
            parse_input_loop rest EmptyString false current_word args
          else
            parse_input_loop rest EmptyString first_word command (args ++ [current_word])
        else parse_input_loop rest current_word first_word command args
      else
        parse_input_loop rest (current_word +:+ String c EmptyString)
                         first_word command args
  end.

(** [parse_input(line, command, args)]: the values of the two output
    references after the call. *)
Definition parse_input (line : string) (command : string) (args : list string)
  : string * list string :=
  match parse_input_loop line EmptyString true command args with
  | (current_word, first_word, command, args) =>
      if negb (str_empty current_word) then
        if first_word then (current_word, args)
        else (command, args ++ [current_word])
      else (command, args)
  end.

(** ** main (lines 688-760)

    [cin] is the list of the lines [getline] will deliver; [stoi] is the
    standard library's and may return or throw. *)

Inductive stoi_result : Type :=
| stoi_value (n : Z)
| stoi_invalid_argument
| stoi_out_of_range.

(** How an iteration of the command loop ends. *)
Inductive flow : Type := Continue | Break.

(** The loop that rebuilds the text of INSERT, UPDATE and SNAPSHOT
    (lines 716-721), with its [size_t] comparisons. *)
Fixpoint main_message_loop (fuel : nat) (args : list string) (i : Z) (message : string)
  : option string :=
  match fuel with
  | O => None
  | S fuel' =>
      if i <? Z.of_nat (length args) then
        a ← args !! Z.to_nat i;
        let message := message +:+ a in
        let message :=
          if i <? to_size_t (Z.of_nat (length args) - 1) then message +:+ " "
          else message in
        main_message_loop fuel' args (to_size_t (i + 1)) message
      else Some message
  end.

Section Main.
Variable stoi : string -> stoi_result.

(** The body of [while (true)] from [if (line.empty())] on, for the line
    that [getline] has read. *)
Definition main_iteration (line : string) : M FileSystem flow :=
  if str_empty line then ret Continue
  else
    let '(command, args) := parse_input line EmptyString [] in
    if String.eqb command "CREATE" && (length args =? 1)%nat then
      (name <- lift (args !! 0%nat) ;;
       FileSystem.create name ;;
       ret Continue)%cpp
    else if String.eqb command "READ" && (length args =? 1)%nat then
      (name <- lift (args !! 0%nat) ;;
       text <- FileSystem.read name ;;
       print (text +:+ NL) ;;
       ret Continue)%cpp
    else if (String.eqb command "INSERT" || String.eqb command "UPDATE"
             || String.eqb command "SNAPSHOT") && (2 <=? length args)%nat then
      (filename <- lift (args !! 0%nat) ;;
       message <- lift (main_message_loop (length args) args 1 EmptyString) ;;
       (if String.eqb command "INSERT" then FileSystem.insert filename message
        else ret tt) ;;
       (if String.eqb command "UPDATE" then FileSystem.update filename message
        else ret tt) ;;
       (if String.eqb command "SNAPSHOT" then FileSystem.snapshot filename message
        else ret tt) ;;
       ret Continue)%cpp
    else if String.eqb command "ROLLBACK" && (1 <=? length args)%nat
            && (length args <=? 2)%nat then
      ((if (length args =? 1)%nat then
         name <- lift (args !! 0%nat) ;;
         FileSystem.rollback name (-1)
       else
         id <- lift (args !! 1%nat) ;;
         match stoi id with
         | stoi_value versionId =>
             name <- lift (args !! 0%nat) ;;
             FileSystem.rollback name versionId
         | stoi_invalid_argument =>
             print ("Error: Invalid version ID for ROLLBACK." +:+ NL)
         | stoi_out_of_range => abort
         end) ;;
       ret Continue)%cpp
    else if String.eqb command "HISTORY" && (length args =? 1)%nat then
      (name <- lift (args !! 0%nat) ;;
       text <- FileSystem.history name ;;
       print text ;;
       ret Continue)%cpp
    else if String.eqb command "RECENT_FILES" || String.eqb command "BIGGEST_TREES" then
      (num <- (if negb (match args with [] => true | _ => false end) then
                 a <- lift (args !! 0%nat) ;;
                 match stoi a with
                 | stoi_value n => ret n
                 | stoi_invalid_argument =>
                     print ("Error: Invalid number. Showing all by default." +:+ NL) ;;
                     ret (-1)
                 | stoi_out_of_range => abort
                 end
               else ret (-1)) ;;
       (if String.eqb command "RECENT_FILES" then
          text <- FileSystem.recentFiles num ;; print text
        else ret tt) ;;
       (if String.eqb command "BIGGEST_TREES" then
          text <- FileSystem.biggestTrees num ;; print text
        else ret tt) ;;
       ret Continue)%cpp
    else if String.eqb command "EXIT" || String.eqb command "QUIT" then
      (print ("Exiting system." +:+ NL) ;;
       ret Break)%cpp
    else
      (print ("Error: Unknown command or incorrect arguments." +:+ NL) ;;
       ret Continue)%cpp.

(** The command loop; it ends when [getline] fails or on [break]. *)
Fixpoint main_loop (cin : list string) : M FileSystem unit :=
  (print "> " ;;
   match cin with
   | [] => ret tt
   | line :: rest =>
       how <- main_iteration line ;;
       match how with
       | Continue => main_loop rest
       | Break => ret tt
       end
   end)%cpp.

(** [main]: the value it returns, with the repository [anuj] as the loop
    left it and the world; the destructor of [anuj] runs on the way out. *)
Definition main (cin : list string) (w : World) : option (Z * FileSystem * World) :=
  (print ("--- Time-Travelling File System ---" +:+ NL) ;;
   print ("Enter 'QUIT' or 'EXIT' to terminate." +:+ NL) ;;
   main_loop cin ;;
   anuj <- gets (fun fs => fs) ;;
   lift (delete_FileSystem anuj) ;;
   ret 0)%cpp FileSystem.new w.

End Main.

(** * The vocabulary of the properties

    Invariants, the explicit results of the methods and the sample states
    used below; nothing here is part of the program. *)

(** ** The world after a step *)

Definition tick (w : World) : World :=
  mkWorld (time_src w) (strftime_c w) (S (ticks w)) (cout w).

Definition say (text : string) (w : World) : World :=
  mkWorld (time_src w) (strftime_c w) (ticks w) (cout w ++ [text]).

(** The clock reading of the next call of [time(nullptr)]. *)
Definition now (w : World) : Z := time_src w (ticks w).

(** ** What the program prints *)

Definition already_snapshotted_text : string :=
  "Error: A snapshot already exists for the current version. "
  +:+ "Modify the file to create a new version before snapshotting." +:+ NL.

Definition already_active_text : string :=
  "Error: Cannot rollback to the version that is already active." +:+ NL.

Definition exists_text (name : string) : string :=
  "Error: File '" +:+ name +:+ "' already exists." +:+ NL.

Definition created_text (name : string) : string :=
  "File '" +:+ name +:+ "' created." +:+ NL.

Definition not_found_text : string := "Error: File not found." +:+ NL.

Definition snapshot_created_text (name : string) : string :=
  "Snapshot created for '" +:+ name +:+ "'." +:+ NL.

(** ** HashMap *)

Section HashMapVocabulary.
Context {K V : Type} `{EqDecision K} `{CustomHash K}.
Implicit Types (hm : HashMap K V).

(** What the constructor establishes and no method changes. *)
Definition hm_shape hm : Prop :=
  0 < capacity hm <= INT_MAX /\ length (table hm) = Z.to_nat (capacity hm).

(** The pairs of the map, bucket by bucket, as [getValues] walks them. *)
Definition entries hm : list (K * V) :=
  flat_map (fun i => HashMap.bucket hm (Z.of_nat i)) (seq 0 (Z.to_nat (capacity hm))).

(** The keys of the map, in the same order. *)
Definition hm_keys hm : list K :=
  flat_map (fun i => map fst (HashMap.bucket hm (Z.of_nat i)))
           (seq 0 (Z.to_nat (capacity hm))).

(** Every key sits in the bucket of its hash and occurs once in it. *)
Definition hm_buckets_ok hm : Prop :=
  forall i : nat,
    (forall key value, (key, value) ∈ HashMap.bucket hm (Z.of_nat i) ->
                       Z.to_nat (HashMap.hashFunction hm key) = i) /\
    NoDup (map fst (HashMap.bucket hm (Z.of_nat i))).

End HashMapVocabulary.

(** ** File *)

Definition with_node (p : ptr) (n : VersionNode) (f : File) : File :=
  File.set_nodes (<[p := n]> (nodes f)) f.

(** The file after the snapshot branch of [insert] and [update]. *)
Definition branch_result (new_content : string) (t : Z) (n : VersionNode) (f : File) : File :=
  mkFile (filename f)
         (<[active_version f := File.push_back_child (length (nodes f)) n]>
            (nodes f ++ [mkVersionNode (total_versions f) new_content EmptyString t 0
                                       (Some (active_version f)) []]))
         (root f)
         (length (nodes f))
         (HashMap.put (version_map f) (total_versions f) (length (nodes f)))
         (wrap32 (total_versions f + 1))
         (last_modification_time f).

(** The object built by [File::File(name)] when the clock is read in [w]. *)
Definition new_file (name : string) (w : World) : File :=
  mkFile name
         [mkVersionNode 0 EmptyString "Initial version" (now w) (now (tick w)) None []]
         0%nat 0%nat
         (HashMap.put (HashMap.new 16) 0 0%nat)
         1
         (now (tick w)).

Record file_wf (f : File) : Prop := mk_file_wf {
  wf_active : (active_version f < length (nodes f))%nat;
  wf_root : root f = 0%nat;
  wf_root_parent : forall n, nodes f !! 0%nat = Some n -> parent n = None;
  wf_parent : forall p n q,
      nodes f !! p = Some n -> parent n = Some q -> (q < p)%nat;
  wf_has_parent : forall p n,
      nodes f !! p = Some n -> p <> 0%nat -> parent n <> None;
  wf_ids : forall p n, nodes f !! p = Some n -> version_id n = Z.of_nat p;
  wf_count : total_versions f = Z.of_nat (length (nodes f));
  wf_count_max : total_versions f <= INT_MAX;
  wf_map_shape : hm_shape (version_map f);
  wf_map : forall id p,
      HashMap.get (version_map f) id = Some p <->
      (p < length (nodes f))%nat /\ id = Z.of_nat p
}.



(** The nodes met on the walk from a node up its parent links, the node
    itself first and the root last. *)
Inductive chain_to_root (ns : list VersionNode) : nat -> list VersionNode -> Prop :=
| chain_root (p : nat) (n : VersionNode) :
    ns !! p = Some n -> parent n = None -> chain_to_root ns p [n]
| chain_step (p : nat) (n : VersionNode) (q : nat) (l : list VersionNode) :
    ns !! p = Some n -> parent n = Some q -> chain_to_root ns q l ->
    chain_to_root ns p (n :: l).

(** One line of the history: id, snapshot time and message. *)
Definition history_entry (w : World) (n : VersionNode) : string :=
  "Version: " +:+ to_string (version_id n)
  +:+ ", Timestamp: " +:+ strftime_c w (snapshot_timestamp n)
  +:+ ", Message: " +:+ message n.

Fixpoint history_text (w : World) (l : list VersionNode) : string :=
  match l with
  | [] => EmptyString
  | n :: rest => (history_entry w n +:+ NL) +:+ history_text w rest
  end.

(** ** MaxHeap *)

(** The index of the parent, on natural numbers. *)
Definition up (i : nat) : nat := ((i - 1) / 2)%nat.

(** Every element but the first is at most its parent. *)
Definition heap_ok (h : list FileMetric) : Prop :=
  forall i x y, (0 < i)%nat -> h !! i = Some x -> h !! up i = Some y ->
                value x <= value y.

(** Sizes for which the [int] index arithmetic of the heap does not wrap. *)
Definition small (h : list FileMetric) : Prop := Z.of_nat (length h) < 2 ^ 30.

(** The state of [heapifyUp] at index [k]: the heap order holds everywhere
    but between [k] and its parent, and the children of [k] are at most the
    parent of [k]. *)
Definition up_inv (h : list FileMetric) (k : nat) : Prop :=
  (forall i x y, (0 < i)%nat -> i <> k -> h !! i = Some x -> h !! up i = Some y ->
                 value x <= value y) /\
  (forall i x y, (0 < i)%nat -> up i = k -> (0 < k)%nat ->
                 h !! i = Some x -> h !! up k = Some y -> value x <= value y).

(** The choice made by one comparison of [heapifyDown], on natural numbers. *)
Definition pick_nat (h : list FileMetric) (m c : nat) : nat :=
  match h !! c, h !! m with
  | Some b, Some a => if value a <? value b then c else m
  | _, _ => m
  end.

(** The state of [heapifyDown] at index [k]: the heap order holds
    everywhere but between [k] and its children, and the children of [k]
    are at most the parent of [k]. *)
Definition down_inv (h : list FileMetric) (k : nat) : Prop :=
  (forall i x y, (0 < i)%nat -> up i <> k -> h !! i = Some x -> h !! up i = Some y ->
                 value x <= value y) /\
  (forall i x y, (0 < i)%nat -> up i = k -> (0 < k)%nat ->
                 h !! i = Some x -> h !! up k = Some y -> value x <= value y).

(** Scores never increase along the list. *)
Definition descending (l : list FileMetric) : Prop :=
  StronglySorted (fun a b => value b <= value a) l.

(** ** FileSystem *)

Definition recent_metric (f : File) : FileMetric :=
  mkFileMetric (filename f) (last_modification_time f).

Definition biggest_metric (f : File) : FileMetric :=
  mkFileMetric (filename f) (total_versions f).

(** The files behind a list of pointers. *)
Fixpoint pointed (store : list File) (all_files : list nat) : list File :=
  match all_files with
  | [] => []
  | file_ptr :: rest =>
      match store !! file_ptr with
      | Some f => f :: pointed store rest
      | None => pointed store rest
      end
  end.

(** What the loop of [updateAnalytics] computes, as a function of the
    store: the two heaps after inserting the metrics of the files. *)
Fixpoint rebuild (store : list File) (all_files : list nat)
    (hr hb : MaxHeap FileMetric) : option (MaxHeap FileMetric * MaxHeap FileMetric) :=
  match all_files with
  | [] => Some (hr, hb)
  | file_ptr :: rest =>
      f ← store !! file_ptr;
      hr' ← MaxHeap.insert hr (recent_metric f);
      hb' ← MaxHeap.insert hb (biggest_metric f);
      rebuild store rest hr' hb'
  end.

(** The items the [while] loop of a ranking query extracts, in order. *)
Fixpoint drain (fuel : nat) (limit count : Z) (tempHeap : MaxHeap FileMetric)
  : option (list FileMetric) :=
  match fuel with
  | O => None
  | S fuel' =>
      if (count <? limit) && negb (MaxHeap.isEmpty tempHeap) then
        r ← MaxHeap.extractMax tempHeap;
        rest ← drain fuel' limit (wrap32 (count + 1)) (snd r);
        Some (fst r :: rest)
      else Some []
  end.

Fixpoint recent_lines (w : World) (ranked : list FileMetric) : string :=
  match ranked with
  | [] => EmptyString
  | metric :: rest =>
      FileSystem.recentFiles_line metric (strftime_c w (value metric))
      +:+ recent_lines w rest
  end.

Fixpoint biggest_lines (ranked : list FileMetric) : string :=
  match ranked with
  | [] => EmptyString
  | metric :: rest => FileSystem.biggestTrees_line metric +:+ biggest_lines rest
  end.

(** The value of [limit] in a ranking query. *)
Definition limit_value (fs : FileSystem) (num : Z) : Z :=
  if num =? -1 then wrap32 (Z.of_nat (length (HashMap.getValues (files fs))))
  else wrap32 (to_size_t num).

(** The part of the invariant that does not speak of the heaps. *)
Record fs_struct (store : list File) (m : HashMap string nat) : Prop := mk_fs_struct {
  fs_shape : hm_shape m;
  fs_buckets : hm_buckets_ok m;
  fs_files : forall name p,
      HashMap.get m name = Some p ->
      exists f, store !! p = Some f /\ filename f = name /\ file_wf f;
  fs_count : Z.of_nat (length (HashMap.getValues m)) < 2 ^ 30
}.

(** A repository is well formed when every name leads to a well-formed file
    of that name and the two heaps are the ones [updateAnalytics] builds
    from the files as they are. *)
Record fs_wf (fs : FileSystem) : Prop := mk_fs_wf {
  fs_wf_struct : fs_struct (file_store fs) (files fs);
  fs_fresh :
    rebuild (file_store fs) (HashMap.getValues (files fs))
            (mkMaxHeap []) (mkMaxHeap [])
    = Some (recent_files_heap fs, biggest_trees_heap fs)
}.

(** The files of the repository, in the order of [getValues]. *)
Definition all_files (fs : FileSystem) : list File :=
  pointed (file_store fs) (HashMap.getValues (files fs)).

(** No file of the repository has used up the [int] range of its counter. *)
Definition versions_left (fs : FileSystem) : Prop :=
  Forall (fun f => total_versions f < INT_MAX) (file_store fs).

(** A call of the public interface of [FileSystem]. *)
Inductive api_call : Type :=
| Create (name : string)
| Read (name : string)
| Insert (name content : string)
| Update (name content : string)
| Snapshot (name message : string)
| Rollback (name : string) (versionId : Z)
| History (name : string)
| RecentFiles (num : Z)
| BiggestTrees (num : Z).

Definition perform (c : api_call) : M FileSystem unit :=
  match c with
  | Create name => FileSystem.create name
  | Read name => (_ <- FileSystem.read name ;; ret tt)%cpp
  | Insert name content => FileSystem.insert name content
  | Update name content => FileSystem.update name content
  | Snapshot name message => FileSystem.snapshot name message
  | Rollback name versionId => FileSystem.rollback name versionId
  | History name => (_ <- FileSystem.history name ;; ret tt)%cpp
  | RecentFiles num => (_ <- FileSystem.recentFiles (wrap32 num) ;; ret tt)%cpp
  | BiggestTrees num => (_ <- FileSystem.biggestTrees (wrap32 num) ;; ret tt)%cpp
  end.

Fixpoint perform_all (cs : list api_call) : M FileSystem unit :=
  match cs with
  | [] => ret tt
  | c :: rest => (perform c ;; perform_all rest)%cpp
  end.

(** Room for [k] more calls: each call adds at most one file and at most
    one version to a file. *)
Definition room (k : nat) (fs : FileSystem) : Prop :=
  Z.of_nat (length (HashMap.getValues (files fs))) + Z.of_nat k < 2 ^ 30 /\
  Forall (fun f => total_versions f + Z.of_nat k <= INT_MAX) (file_store fs).

(** ** Sample states *)

(** A clock that starts at 1000 and advances by one at every reading. *)
Definition sample_world : World :=
  mkWorld (fun k => 1000 + Z.of_nat k) to_string 0 [].

Definition sample_root : VersionNode :=
  mkVersionNode 0 EmptyString "Initial version" 1000 1001 None [].

(** A [stoi] that knows the text of [-1]. *)
Definition sample_stoi (s : string) : option Z :=
  if decide (s = "-1"%string) then Some (-1) else None.

(** Two files; the tree of "a" is 0 -> 1 -> {2, 3} with 3 active. *)
Definition sample_calls : list api_call :=
  [Create "a"; Create "b"; Insert "a" "hi"; Snapshot "a" "v1";
   Insert "a" " there"; Rollback "a" 1; Insert "a" " you"].

Definition sample_fs : FileSystem :=
  match perform_all sample_calls FileSystem.new sample_world with
  | Some (_, fs, _) => fs
  | None => FileSystem.new
  end.

(** The file "a" of the sample repository. *)
Definition sample_file : File :=
  match file_store sample_fs !! 0%nat with
  | Some f => f
  | None => new_file "a" sample_world
  end.

(** The active node of [sample_file]: node 3, mutable, a child of node 1. *)
Definition sample_active : VersionNode :=
  Eval vm_compute in
    match nodes sample_file !! active_version sample_file with
    | Some n => n
    | None => sample_root
    end.

(** Node 2 of [sample_file], the sibling of the active node. *)
Definition sample_sibling : VersionNode :=
  Eval vm_compute in
    match nodes sample_file !! 2%nat with
    | Some n => n
    | None => sample_root
    end.

(** A clock that reads [0] at every call: the whole session falls into
    the second 1970-01-01 00:00:00 UTC. *)
Definition epoch_world : World := mkWorld (fun _ => 0) to_string 0 [].

(** The repository after [create "z"] on the empty one at that clock. *)
Definition epoch_fs : FileSystem :=
  match FileSystem.create "z" FileSystem.new epoch_world with
  | Some (_, fs, _) => fs
  | None => FileSystem.new
  end.

(** The root [File::File] builds at that clock. *)
Definition epoch_root : VersionNode :=
  mkVersionNode 0 EmptyString "Initial version" 0 0 None [].

(** ** HashMap: a history of puts *)

(** The map after the puts of [kvs], oldest first. *)
Definition put_all {K V} `{EqDecision K} `{CustomHash K}
    (hm : HashMap K V) (kvs : list (K * V)) : HashMap K V :=
  foldl (fun hm kv => HashMap.put hm (fst kv) (snd kv)) hm kvs.

(** The value an association list gives a key: that of its last pair
    with this key. *)
Fixpoint last_put {K V} `{EqDecision K} (kvs : list (K * V)) (key : K) : option V :=
  match kvs with
  | [] => None
  | (k, v) :: rest =>
      match last_put rest key with
      | Some v' => Some v'
      | None => if decide (k = key) then Some v else None
      end
  end.

(** ** What a call may do to the files *)

(** One call of a method of [File] that changes the object. *)
Inductive file_step (f f' : File) : Prop :=
| step_insert (text : string) (w w' : World) :
    File.insert text f w = Some (tt, f', w') -> file_step f f'
| step_update (text : string) (w w' : World) :
    File.update text f w = Some (tt, f', w') -> file_step f f'
| step_snapshot (msg : string) (w w' : World) :
    File.snapshot msg f w = Some (tt, f', w') -> file_step f f'
| step_rollback (id : Z) (ok : bool) (w w' : World) :
    File.rollback id f w = Some (ok, f', w') -> file_step f f'.

(** The file a call names, if it names one. *)
Definition target (c : api_call) : option string :=
  match c with
  | Create name | Read name | Insert name _ | Update name _
  | Snapshot name _ | Rollback name _ | History name => Some name
  | RecentFiles _ | BiggestTrees _ => None
  end.

(** What a call on [who] does to the store and the name index: nothing,
    one new file under a fresh name, or one method step on the file of
    that name. *)
Inductive store_step (who : option string) (fs fs' : FileSystem) : Prop :=
| step_same :
    file_store fs' = file_store fs -> files fs' = files fs ->
    store_step who fs fs'
| step_create (name : string) (w : World) :
    who = Some name ->
    HashMap.get (files fs) name = None ->
    file_store fs' = file_store fs ++ [new_file name w] ->
    files fs' = HashMap.put (files fs) name (length (file_store fs)) ->
    store_step who fs fs'
| step_method (name : string) (p : nat) (f f' : File) :
    who = Some name ->
    HashMap.get (files fs) name = Some p ->
    file_store fs !! p = Some f ->
    file_wf f -> total_versions f < INT_MAX ->
    file_step f f' ->
    file_store fs' = <[p := f']> (file_store fs) ->
    files fs' = files fs ->
    store_step who fs fs'.

(** A node as it was: same id, parent and creation time, and, if it was a
    snapshot, the same content, message and snapshot time. *)
Definition node_kept (n n' : VersionNode) : Prop :=
  version_id n' = version_id n /\
  parent n' = parent n /\
  created_timestamp n' = created_timestamp n /\
  (isSnapshot n = true ->
   content n' = content n /\ message n' = message n /\
   snapshot_timestamp n' = snapshot_timestamp n).

(** A file that has lost nothing: same name and root, every node still in
    its place and kept, the version count not smaller. *)
Definition file_kept (f f' : File) : Prop :=
  filename f' = filename f /\
  root f' = root f /\
  total_versions f <= total_versions f' /\
  forall p n, nodes f !! p = Some n ->
              exists n', nodes f' !! p = Some n' /\ node_kept n n'.

(** A repository that has lost nothing: every name leads to the same file
    object, and that file has lost nothing. *)
Definition repository_kept (fs fs' : FileSystem) : Prop :=
  forall name p f,
    HashMap.get (files fs) name = Some p -> file_store fs !! p = Some f ->
    exists f', HashMap.get (files fs') name = Some p /\
               file_store fs' !! p = Some f' /\ file_kept f f'.

(** ** The version tree *)

(** The children of every node are the nodes whose parent it is, each
    listed once. *)
Definition tree_ok (f : File) : Prop :=
  forall p n, nodes f !! p = Some n ->
    NoDup (children n) /\
    forall q, q ∈ children n <-> exists m, nodes f !! q = Some m /\ parent m = Some p.

(** [q] lies in the subtree of [p]. *)
Inductive descends (ns : list VersionNode) : nat -> nat -> Prop :=
| descends_self (p : nat) (n : VersionNode) :
    ns !! p = Some n -> descends ns p p
| descends_child (q c : nat) (m : VersionNode) (p : nat) :
    ns !! c = Some m -> parent m = Some p -> descends ns q c -> descends ns q p.

(** Every file of the store has a name in the index and a proper tree. *)
Definition store_ok (fs : FileSystem) : Prop :=
  (forall p, (p < length (file_store fs))%nat -> p ∈ HashMap.getValues (files fs)) /\
  Forall tree_ok (file_store fs).

(** ** Command lines *)

Fixpoint no_space (s : string) : bool :=
  match s with
  | EmptyString => true
  | String c rest => negb (Ascii.eqb c " ") && no_space rest
  end.

(** A word: at least one character, none of them a space. *)
Definition word (s : string) : bool := negb (str_empty s) && no_space s.

Fixpoint spaces (n : nat) : string :=
  match n with
  | O => EmptyString
  | S n' => String " " (spaces n')
  end.

(** A line laid out from its words: every word of [ws] is followed by one
    space and as many more as it is paired with; [last], which may be
    empty, ends the line. *)
Fixpoint layout (ws : list (string * nat)) (last : string) : string :=
  match ws with
  | [] => last
  | (w, n) :: rest => w +:+ spaces (S n) +:+ layout rest last
  end.

Definition words_of (ws : list (string * nat)) (last : string) : list string :=
  map fst ws ++ (if str_empty last then [] else [last]).

(** The words with one space between neighbours. *)
Fixpoint join_words (ws : list string) : string :=
  match ws with
  | [] => EmptyString
  | w :: rest =>
      match rest with
      | [] => w
      | _ :: _ => w +:+ " " +:+ join_words rest
      end
  end.

(** The commands [main] knows. *)
Definition commands : list string :=
  ["CREATE"; "READ"; "INSERT"; "UPDATE"; "SNAPSHOT"; "ROLLBACK"; "HISTORY";
   "RECENT_FILES"; "BIGGEST_TREES"; "EXIT"; "QUIT"]%string.

(** [stoi] returns an [int]. *)
Definition stoi_int (stoi : string -> stoi_result) : Prop :=
  forall s n, stoi s = stoi_value n -> INT_MIN <= n <= INT_MAX.

(** [stoi] threw [out_of_range]. *)
Definition is_out_of_range (r : stoi_result) : bool :=
  match r with
  | stoi_out_of_range => true
  | _ => false
  end.

(** A line whose number does not fit an [int]: the id of a ROLLBACK with
    two arguments, or the first argument of a ranking command. *)
Definition overflows (stoi : string -> stoi_result) (line : string) : bool :=
  let '(command, args) := parse_input line EmptyString [] in
  (String.eqb command "ROLLBACK" &&
   match args with
   | [_; id] => is_out_of_range (stoi id)
   | _ => false
   end)
  || ((String.eqb command "RECENT_FILES" || String.eqb command "BIGGEST_TREES") &&
      match args with
      | a :: _ => is_out_of_range (stoi a)
      | [] => false
      end).

(** A line that ends the session. *)
Definition exits (line : string) : bool :=
  negb (str_empty line) &&
  (String.eqb (fst (parse_input line EmptyString [])) "EXIT"
   || String.eqb (fst (parse_input line EmptyString [])) "QUIT").

(** A line the dispatch has no branch for: an unknown first word, or a
    known one with the wrong number of arguments. *)
Definition rejected (command : string) (args : list string) : Prop :=
  command ∉ commands \/
  (command ∈ ["CREATE"; "READ"; "HISTORY"]%string /\ length args <> 1%nat) \/
  (command ∈ ["INSERT"; "UPDATE"; "SNAPSHOT"]%string /\ (length args < 2)%nat) \/
  (command = "ROLLBACK"%string /\ (args = [] \/ (2 < length args)%nat)).

Definition unknown_text : string :=
  "Error: Unknown command or incorrect arguments." +:+ NL.

Definition exiting_text : string := "Exiting system." +:+ NL.

(** What [parse_input] does once its loop is over. *)
Definition parse_input_end (r : string * bool * string * list string)
  : string * list string :=
  match r with
  | (current_word, first_word, command, args) =>
      if negb (str_empty current_word) then
        if first_word then (current_word, args)
        else (command, args ++ [current_word])
      else (command, args)
  end.

(** The outputs for a list of words found, by the value of [first_word]. *)
Definition parse_outputs (fw : bool) (cmd : string) (args : list string)
    (found : list string) : string * list string :=
  if fw then match found with
             | [] => (cmd, args)
             | c :: rest => (c, args ++ rest)
             end
  else (cmd, args ++ found).

(** A [stoi] for the samples: an optional sign and decimal digits, read up
    to the first character that is not a digit. *)
Definition digit (c : ascii) : option Z :=
  let n := Z.of_N (N_of_ascii c) in
  if (48 <=? n) && (n <=? 57) then Some (n - 48) else None.

Fixpoint digits_value (s : string) (acc : Z) : Z :=
  match s with
  | EmptyString => acc
  | String c rest =>
      match digit c with
      | Some d => digits_value rest (10 * acc + d)
      | None => acc
      end
  end.

Definition decimal_stoi (s : string) : stoi_result :=
  let '(sign, body) :=
    match s with
    | String "-" rest => (-1, rest)
    | String "+" rest => (1, rest)
    | _ => (1, s)
    end in
  match body with
  | EmptyString => stoi_invalid_argument
  | String c _ =>
      match digit c with
      | None => stoi_invalid_argument
      | Some _ =>
          let v := sign * digits_value body 0 in
          if (INT_MIN <=? v) && (v <=? INT_MAX) then stoi_value v
          else stoi_out_of_range
      end
  end.

(** An input for the samples; the last line is never read. *)
Definition sample_cin : list string :=
  ["CREATE a"; "INSERT a hello   world"; "SNAPSHOT a first"; "UPDATE a bye";
   "ROLLBACK a 0"; "READ a"; "RECENT_FILES 5"; "create b"; "EXIT"; "CREATE c"]%string.

(** ** custom_hash *)

(** The polynomial of a string from the power [k] on:
    the sum of [(c - 'a' + 1) * 31 ^ (k + i)] over its characters. *)
Fixpoint polynomial (key : string) (k : Z) : Z :=
  match key with
  | EmptyString => 0
  | String c rest => (char_code c - 97 + 1) * 31 ^ k + polynomial rest (k + 1)
  end.

Definition rollback_ok_text (name : string) : string :=
  "Rollback successful for '" +:+ name +:+ "'." +:+ NL.

Definition rollback_failed_text : string :=
  "Error: Rollback failed. Invalid version or already at root." +:+ NL.

(** * Properties *)

(** ** Machine integers *)

Lemma wrap32_id (x : Z) : INT_MIN <= x <= INT_MAX -> wrap32 x = x.
Proof.
  unfold wrap32, INT_MIN, INT_MAX. intros Hx.
  rewrite Z.mod_small by lia. lia.
Qed.

Lemma to_size_t_id (x : Z) : 0 <= x < 2 ^ 64 -> to_size_t x = x.
Proof. unfold to_size_t. intros Hx. apply Z.mod_small. lia. Qed.

Lemma wrap32_to_size_t (x : Z) : INT_MIN <= x <= INT_MAX -> wrap32 (to_size_t x) = x.
Proof.
  unfold to_size_t, INT_MIN, INT_MAX. intros Hx.
  destruct (Z_lt_le_dec x 0) as [Hneg | Hpos].
  - assert (E : x mod 2 ^ 64 = x + 2 ^ 64).
    { symmetry. apply (Z.mod_unique _ _ (-1)); lia. }
    rewrite E. unfold wrap32.
    replace (x + 2 ^ 64 + 2 ^ 31) with (x + 2 ^ 31 + 2 ^ 32 * 2 ^ 32) by lia.
    rewrite Z.mod_add by lia. rewrite Z.mod_small by lia. lia.
  - rewrite Z.mod_small by lia. apply wrap32_id. unfold INT_MIN, INT_MAX. lia.
Qed.

(** ** HashMap: the map contract *)

Section HashMapFacts.
Context {K V : Type} `{EqDecision K} `{CustomHash K}.
Implicit Types (hm : HashMap K V) (key : K) (entry : list (K * V)).

Lemma hashFunction_range hm key :
  hm_shape hm -> 0 <= HashMap.hashFunction hm key < capacity hm.
Proof.
  intros [Hc _]. unfold HashMap.hashFunction.
  rewrite to_size_t_id by (unfold INT_MAX in Hc; lia).
  pose proof (Z.mod_pos_bound (custom_hash key) (capacity hm)) as Hm.
  rewrite wrap32_id; unfold INT_MIN, INT_MAX in *; lia.
Qed.

Lemma hashFunction_lt hm key :
  hm_shape hm -> (Z.to_nat (HashMap.hashFunction hm key) < length (table hm))%nat.
Proof.
  intros Hs. pose proof (hashFunction_range hm key Hs) as Hr.
  destruct Hs as [_ ->]. lia.
Qed.

Lemma bucket_lookup hm index :
  (Z.to_nat index < length (table hm))%nat ->
  table hm !! Z.to_nat index = Some (HashMap.bucket hm index).
Proof.
  intros Hlt. unfold HashMap.bucket.
  destruct (lookup_lt_is_Some_2 (table hm) _ Hlt) as [b ->]. reflexivity.
Qed.

Lemma new_shape (c : Z) : c <= INT_MAX -> hm_shape (HashMap.new (K:=K) (V:=V) c).
Proof.
  intros Hc. unfold hm_shape, HashMap.new. simpl.
  rewrite length_replicate.
  destruct (0 <? c) eqn:E; [apply Z.ltb_lt in E | ]; unfold INT_MAX in *; lia.
Qed.

Lemma bucket_new (c index : Z) :
  HashMap.bucket (HashMap.new (K:=K) (V:=V) c) index = [].
Proof.
  unfold HashMap.bucket, HashMap.new. simpl.
  destruct (replicate _ _ !! _) eqn:E; [ | reflexivity].
  apply lookup_replicate in E. destruct E as [-> _]. reflexivity.
Qed.

Lemma get_new (c : Z) key : HashMap.get (HashMap.new (K:=K) (V:=V) c) key = None.
Proof. unfold HashMap.get. rewrite bucket_new. reflexivity. Qed.

Lemma get_walk_put_walk_Some entry key value chain key' :
  HashMap.put_walk entry key value = Some chain ->
  HashMap.get_walk chain key' =
    if decide (key = key') then Some value else HashMap.get_walk entry key'.
Proof.
  revert chain. induction entry as [ | [k v] next IH]; intros chain; simpl.
  - discriminate.
  - destruct (decide (k = key)) as [-> | Hne].
    + intros [= <-]. simpl. destruct (decide (key = key')); reflexivity.
    + destruct (HashMap.put_walk next key value) as [next' | ] eqn:E; simpl; [ | discriminate].
      intros [= <-]. simpl.
      destruct (decide (k = key')) as [-> | Hne'].
      * destruct (decide (key = key')); [congruence | reflexivity].
      * apply IH. reflexivity.
Qed.

Lemma put_walk_None entry key value :
  HashMap.put_walk entry key value = None <-> HashMap.get_walk entry key = None.
Proof.
  induction entry as [ | [k v] next IH]; simpl; [tauto | ].
  destruct (decide (k = key)); [split; discriminate | ].
  destruct (HashMap.put_walk next key value); simpl.
  - split; [discriminate | ]. intros E. apply IH in E. discriminate.
  - split; [ | reflexivity]. intros _. apply IH. reflexivity.
Qed.

Lemma put_shape hm key value : hm_shape hm -> hm_shape (HashMap.put hm key value).
Proof.
  intros [Hc Hl]. unfold HashMap.put.
  destruct (HashMap.put_walk _ _ _); split; simpl; try assumption;
    rewrite length_insert; assumption.
Qed.

Lemma put_capacity hm key value : capacity (HashMap.put hm key value) = capacity hm.
Proof. unfold HashMap.put. destruct (HashMap.put_walk _ _ _); reflexivity. Qed.

Lemma hashFunction_put hm key value key' :
  HashMap.hashFunction (HashMap.put hm key value) key' = HashMap.hashFunction hm key'.
Proof. unfold HashMap.hashFunction. rewrite put_capacity. reflexivity. Qed.

Lemma bucket_put hm key value index :
  hm_shape hm ->
  HashMap.bucket (HashMap.put hm key value) index =
    if decide (Z.to_nat (HashMap.hashFunction hm key) = Z.to_nat index)
    then match HashMap.put_walk (HashMap.bucket hm (HashMap.hashFunction hm key)) key value with
         | Some chain => chain
         | None => (key, value) :: HashMap.bucket hm (HashMap.hashFunction hm key)
         end
    else HashMap.bucket hm index.
Proof.
  intros Hs. pose proof (hashFunction_lt hm key Hs) as Hlt.
  unfold HashMap.put.
  destruct (decide _) as [E | E].
  - unfold HashMap.bucket at 1.
    destruct (HashMap.put_walk _ _ _); simpl; rewrite <- E;
      rewrite list_lookup_insert_eq by assumption; reflexivity.
  - unfold HashMap.bucket at 1.
    destruct (HashMap.put_walk _ _ _); simpl;
      rewrite list_lookup_insert_ne by assumption; reflexivity.
Qed.

(** [get] after [put]. *)
Lemma get_put hm key value key' :
  hm_shape hm ->
  HashMap.get (HashMap.put hm key value) key' =
    if decide (key = key') then Some value else HashMap.get hm key'.
Proof.
  intros Hs. unfold HashMap.get at 1.
  rewrite hashFunction_put, bucket_put by assumption.
  destruct (decide (Z.to_nat _ = Z.to_nat _)) as [E | E].
  - assert (Eb : HashMap.bucket hm (HashMap.hashFunction hm key)
                 = HashMap.bucket hm (HashMap.hashFunction hm key')).
    { unfold HashMap.bucket. rewrite E. reflexivity. }
    destruct (HashMap.put_walk _ _ _) as [chain | ] eqn:Ew.
    + rewrite (get_walk_put_walk_Some _ _ _ _ key' Ew).
      destruct (decide (key = key')); [reflexivity | ].
      unfold HashMap.get. rewrite Eb. reflexivity.
    + simpl. destruct (decide (key = key')); [reflexivity | ].
      unfold HashMap.get. rewrite Eb. reflexivity.
  - destruct (decide (key = key')) as [-> | Hne]; [congruence | reflexivity].
Qed.

Lemma containsKey_get hm key :
  HashMap.containsKey hm key = true <-> is_Some (HashMap.get hm key).
Proof.
  unfold HashMap.containsKey, HashMap.get.
  induction (HashMap.bucket hm (HashMap.hashFunction hm key)) as [ | [k v] next IH]; simpl.
  - split; [discriminate | intros [? ?]; discriminate].
  - destruct (decide (k = key)); [ | exact IH].
    split; [eauto | reflexivity].
Qed.

Lemma containsKey_false hm key :
  HashMap.containsKey hm key = false <-> HashMap.get hm key = None.
Proof.
  pose proof (containsKey_get hm key) as Hc.
  destruct (HashMap.containsKey hm key); destruct (HashMap.get hm key) eqn:E.
  - split; discriminate.
  - destruct (proj1 Hc eq_refl) as [? ?]. discriminate.
  - assert (false = true) by (apply Hc; eauto). discriminate.
  - tauto.
Qed.

End HashMapFacts.

(** ** File: running the methods *)

Ltac unfold_monad :=
  unfold bind, gets, modify, ret, lift, abort, print, time_nullptr, strftime,
         File.deref, File.update_node, File.new_VersionNode in *.

Lemma insert_mutable (text : string) (f : File) (w : World) (n : VersionNode) :
  nodes f !! active_version f = Some n ->
  isSnapshot n = false ->
  File.insert text f w =
    Some (tt,
          File.set_last_modification_time (now w)
            (with_node (active_version f) (File.set_content (content n +:+ text) n) f),
          tick w).
Proof.
  intros Hn Hs. unfold File.insert. unfold_monad. simpl.
  repeat (first [rewrite Hn | rewrite Hs]; simpl). reflexivity.
Qed.

Lemma update_mutable (text : string) (f : File) (w : World) (n : VersionNode) :
  nodes f !! active_version f = Some n ->
  isSnapshot n = false ->
  File.update text f w =
    Some (tt,
          File.set_last_modification_time (now w)
            (with_node (active_version f) (File.set_content text n) f),
          tick w).
Proof.
  intros Hn Hs. unfold File.update. unfold_monad. simpl.
  repeat (first [rewrite Hn | rewrite Hs]; simpl). reflexivity.
Qed.

Lemma branch_run (new_content : string) (f : File) (w : World) (n : VersionNode) :
  nodes f !! active_version f = Some n ->
  File.branch new_content f w = Some (tt, branch_result new_content (now w) n f, tick w).
Proof.
  intros Hn. unfold File.branch. unfold_monad. simpl.
  rewrite lookup_app_l by (eapply lookup_lt_Some; eassumption).
  rewrite Hn. reflexivity.
Qed.

Lemma insert_snapshot (text : string) (f : File) (w : World) (n : VersionNode) :
  nodes f !! active_version f = Some n ->
  isSnapshot n = true ->
  File.insert text f w =
    Some (tt,
          File.set_last_modification_time (now (tick w))
            (branch_result (content n +:+ text) (now w) n f),
          tick (tick w)).
Proof.
  intros Hn Hs. unfold File.insert.
  unfold bind at 1. unfold gets at 1. unfold bind at 1. unfold File.deref at 1.
  rewrite Hn, Hs. unfold bind at 1. rewrite (branch_run _ _ _ n Hn).
  reflexivity.
Qed.

Lemma update_snapshot (text : string) (f : File) (w : World) (n : VersionNode) :
  nodes f !! active_version f = Some n ->
  isSnapshot n = true ->
  File.update text f w =
    Some (tt,
          File.set_last_modification_time (now (tick w))
            (branch_result text (now w) n f),
          tick (tick w)).
Proof.
  intros Hn Hs. unfold File.update.
  unfold bind at 1. unfold gets at 1. unfold bind at 1. unfold File.deref at 1.
  rewrite Hn, Hs. unfold bind at 1. rewrite (branch_run _ _ _ n Hn).
  reflexivity.
Qed.

Lemma snapshot_mutable (msg : string) (f : File) (w : World) (n : VersionNode) :
  nodes f !! active_version f = Some n ->
  isSnapshot n = false ->
  File.snapshot msg f w =
    Some (tt,
          File.set_last_modification_time (now (tick w))
            (with_node (active_version f)
               (File.set_snapshot_timestamp (now w) (File.set_message msg n)) f),
          say ("Snapshot created for '" +:+ filename f +:+ "'." +:+ NL) (tick (tick w))).
Proof.
  intros Hn Hs. unfold File.snapshot. unfold_monad. simpl.
  rewrite Hn, Hs. simpl. rewrite Hn. simpl.
  rewrite list_lookup_insert_eq by (eapply lookup_lt_Some; eassumption).
  unfold with_node, File.set_nodes. simpl.
  rewrite list_insert_insert_eq. reflexivity.
Qed.

Lemma snapshot_snapshot (msg : string) (f : File) (w : World) (n : VersionNode) :
  nodes f !! active_version f = Some n ->
  isSnapshot n = true ->
  File.snapshot msg f w = Some (tt, f, say already_snapshotted_text w).
Proof.
  intros Hn Hs. unfold File.snapshot. unfold_monad. simpl.
  rewrite Hn, Hs. reflexivity.
Qed.

Lemma rollback_parent_run (f : File) (w : World) (n : VersionNode) :
  nodes f !! active_version f = Some n ->
  File.rollback (-1) f w =
    match parent n with
    | Some p => Some (true, File.set_active_version p f, w)
    | None => Some (false, f, w)
    end.
Proof.
  intros Hn. unfold File.rollback. unfold_monad. simpl.
  rewrite Hn. destruct (parent n); reflexivity.
Qed.

Lemma rollback_id_run (versionId : Z) (f : File) (w : World) (n : VersionNode) :
  nodes f !! active_version f = Some n ->
  versionId <> -1 ->
  File.rollback versionId f w =
    if versionId =? version_id n then Some (false, f, say already_active_text w)
    else match HashMap.get (version_map f) versionId with
         | Some target_version => Some (true, File.set_active_version target_version f, w)
         | None => Some (false, f, w)
         end.
Proof.
  intros Hn Hid. unfold File.rollback.
  destruct (versionId =? -1) eqn:E; [apply Z.eqb_eq in E; contradiction | ].
  unfold_monad. simpl. rewrite Hn.
  destruct (versionId =? version_id n); [reflexivity | ].
  destruct (HashMap.get _ _); reflexivity.
Qed.

Lemma new_run {St} (name : string) (s : St) (w : World) :
  File.new name s w = Some (new_file name w, s, tick (tick w)).
Proof. reflexivity. Qed.

Lemma read_run (f : File) (w : World) (n : VersionNode) :
  nodes f !! active_version f = Some n ->
  File.read f w = Some (content n, f, w).
Proof.
  intros Hn. unfold File.read. unfold_monad. simpl. rewrite Hn. reflexivity.
Qed.

(** ** File: the representation invariant *)

Lemma wf_active_node (f : File) :
  file_wf f -> exists n, nodes f !! active_version f = Some n.
Proof.
  intros Hwf. apply lookup_lt_is_Some_2. apply (wf_active f Hwf).
Qed.

Lemma new_file_wf (name : string) (w : World) : file_wf (new_file name w).
Proof.
  assert (Hs : hm_shape (HashMap.new (K:=Z) (V:=nat) 16)).
  { apply new_shape. unfold INT_MAX. lia. }
  constructor; simpl.
  - lia.
  - reflexivity.
  - intros n [= <-]. reflexivity.
  - intros [ | p] n q; simpl; [intros [= <-]; discriminate | ].
    intros Hl. discriminate.
  - intros [ | p] n; simpl; [congruence | discriminate].
  - intros [ | p] n; simpl; [intros [= <-]; reflexivity | discriminate].
  - reflexivity.
  - unfold INT_MAX. lia.
  - apply put_shape, Hs.
  - intros id p. rewrite get_put by exact Hs. rewrite get_new.
    destruct (decide (0 = id)) as [<- | Hne].
    + split; [intros [= <-]; split; [lia | reflexivity] | ].
      intros [Hp _]. f_equal. lia.
    + split; [discriminate | ]. intros [Hp ->]. lia.
Qed.

Lemma with_node_wf (f : File) (n n' : VersionNode) :
  file_wf f ->
  nodes f !! active_version f = Some n ->
  version_id n' = version_id n ->
  parent n' = parent n ->
  file_wf (with_node (active_version f) n' f).
Proof.
  intros Hwf Hn Hid Hpar.
  assert (Hlook : forall p m, nodes (with_node (active_version f) n' f) !! p = Some m ->
            exists m0, nodes f !! p = Some m0 /\ version_id m = version_id m0
                       /\ parent m = parent m0).
  { intros p m. unfold with_node. simpl.
    destruct (decide (p = active_version f)) as [-> | Hne].
    - rewrite list_lookup_insert_eq by (apply (wf_active f Hwf)).
      intros [= <-]. eauto.
    - rewrite list_lookup_insert_ne by congruence. eauto. }
  constructor; unfold with_node in *; simpl in *.
  - rewrite length_insert. apply (wf_active f Hwf).
  - apply (wf_root f Hwf).
  - intros m Hm. destruct (Hlook _ _ Hm) as (m0 & Hm0 & _ & ->).
    apply (wf_root_parent f Hwf _ Hm0).
  - intros p m q Hm. destruct (Hlook _ _ Hm) as (m0 & Hm0 & _ & ->).
    apply (wf_parent f Hwf _ _ _ Hm0).
  - intros p m Hm. destruct (Hlook _ _ Hm) as (m0 & Hm0 & _ & ->).
    apply (wf_has_parent f Hwf _ _ Hm0).
  - intros p m Hm. destruct (Hlook _ _ Hm) as (m0 & Hm0 & -> & _).
    apply (wf_ids f Hwf _ _ Hm0).
  - rewrite length_insert. apply (wf_count f Hwf).
  - apply (wf_count_max f Hwf).
  - apply (wf_map_shape f Hwf).
  - intros id p. rewrite length_insert. apply (wf_map f Hwf).
Qed.

Lemma set_last_modification_time_wf (t : Z) (f : File) :
  file_wf f -> file_wf (File.set_last_modification_time t f).
Proof. intros [? ? ? ? ? ? ? ? ? ?]. constructor; simpl; assumption. Qed.

Lemma set_active_version_wf (p : nat) (f : File) :
  file_wf f -> (p < length (nodes f))%nat -> file_wf (File.set_active_version p f).
Proof. intros [? ? ? ? ? ? ? ? ? ?] Hp. constructor; simpl; assumption. Qed.

Lemma branch_result_lookup (new_content : string) (t : Z) (n : VersionNode)
    (f : File) (p : nat) :
  nodes f !! active_version f = Some n ->
  nodes (branch_result new_content t n f) !! p =
    if decide (p = active_version f)
    then Some (File.push_back_child (length (nodes f)) n)
    else if decide (p = length (nodes f))
         then Some (mkVersionNode (total_versions f) new_content EmptyString t 0
                                  (Some (active_version f)) [])
         else nodes f !! p.
Proof.
  intros Hn. pose proof (lookup_lt_Some _ _ _ Hn) as Hlt. simpl.
  destruct (decide (p = active_version f)) as [-> | Hne].
  - apply list_lookup_insert_eq. rewrite length_app. simpl. lia.
  - rewrite list_lookup_insert_ne by congruence.
    destruct (decide (p = length (nodes f))) as [-> | Hne'].
    + rewrite lookup_app_r by lia. rewrite Nat.sub_diag. reflexivity.
    + destruct (Nat.lt_ge_cases p (length (nodes f))) as [Hp | Hp].
      * apply lookup_app_l. exact Hp.
      * rewrite (lookup_ge_None_2 (nodes f)) by lia.
        apply lookup_ge_None_2. rewrite length_app. simpl. lia.
Qed.

Lemma branch_result_length (new_content : string) (t : Z) (n : VersionNode) (f : File) :
  length (nodes (branch_result new_content t n f)) = S (length (nodes f)).
Proof. simpl. rewrite length_insert, length_app. simpl. lia. Qed.

Lemma branch_result_wf (new_content : string) (t : Z) (n : VersionNode) (f : File) :
  file_wf f ->
  nodes f !! active_version f = Some n ->
  total_versions f < INT_MAX ->
  file_wf (branch_result new_content t n f).
Proof.
  intros Hwf Hn Hmax.
  pose proof (wf_active f Hwf) as Ha.
  pose proof (wf_count f Hwf) as Hc.
  constructor.
  - rewrite branch_result_length. simpl. lia.
  - simpl. apply (wf_root f Hwf).
  - intros m. rewrite (branch_result_lookup _ _ _ _ _ Hn).
    destruct (decide _) as [E | E].
    + intros [= <-]. simpl. apply (wf_root_parent f Hwf). rewrite E. exact Hn.
    + destruct (decide _) as [E' | E']; [lia | ]. apply (wf_root_parent f Hwf).
  - intros p m q. rewrite (branch_result_lookup _ _ _ _ _ Hn).
    destruct (decide _) as [-> | E].
    + intros [= <-]. simpl. apply (wf_parent f Hwf _ _ _ Hn).
    + destruct (decide _) as [-> | E'].
      * intros [= <-]. simpl. intros [= <-]. exact Ha.
      * apply (wf_parent f Hwf).
  - intros p m. rewrite (branch_result_lookup _ _ _ _ _ Hn).
    destruct (decide _) as [-> | E].
    + intros [= <-]. simpl. apply (wf_has_parent f Hwf _ _ Hn).
    + destruct (decide _) as [-> | E'].
      * intros [= <-]. simpl. discriminate.
      * apply (wf_has_parent f Hwf).
  - intros p m. rewrite (branch_result_lookup _ _ _ _ _ Hn).
    destruct (decide _) as [-> | E].
    + intros [= <-]. simpl. apply (wf_ids f Hwf _ _ Hn).
    + destruct (decide _) as [-> | E'].
      * intros [= <-]. simpl. exact Hc.
      * apply (wf_ids f Hwf).
  - rewrite branch_result_length. simpl.
    rewrite wrap32_id by (unfold INT_MIN, INT_MAX in *; lia). lia.
  - simpl. rewrite wrap32_id by (unfold INT_MIN, INT_MAX in *; lia). lia.
  - simpl. apply put_shape, (wf_map_shape f Hwf).
  - intros id p. rewrite branch_result_length. simpl.
    rewrite get_put by apply (wf_map_shape f Hwf).
    destruct (decide (total_versions f = id)) as [<- | Hne].
    + split.
      * intros [= <-]. split; [lia | exact Hc].
      * intros [_ Hp]. f_equal. lia.
    + rewrite (wf_map f Hwf). split.
      * intros [Hp ->]. split; [lia | reflexivity].
      * intros [Hp ->]. split; [ | reflexivity].
        destruct (decide (p = length (nodes f))) as [-> | E]; [congruence | lia].
Qed.

(** ** File: what insert and update do to the tree *)



(** ** The methods keep the file well formed *)

Lemma insert_wf (text : string) (f f' : File) (w w' : World) :
  file_wf f -> total_versions f < INT_MAX ->
  File.insert text f w = Some (tt, f', w') -> file_wf f'.
Proof.
  intros Hwf Hmax. destruct (wf_active_node f Hwf) as [n Hn].
  destruct (isSnapshot n) eqn:Hs.
  - rewrite (insert_snapshot _ _ _ n Hn Hs). intros [= <- _].
    apply set_last_modification_time_wf, branch_result_wf; assumption.
  - rewrite (insert_mutable _ _ _ n Hn Hs). intros [= <- _].
    apply set_last_modification_time_wf.
    apply (with_node_wf f n); [assumption | assumption | reflexivity | reflexivity].
Qed.

Lemma update_wf (text : string) (f f' : File) (w w' : World) :
  file_wf f -> total_versions f < INT_MAX ->
  File.update text f w = Some (tt, f', w') -> file_wf f'.
Proof.
  intros Hwf Hmax. destruct (wf_active_node f Hwf) as [n Hn].
  destruct (isSnapshot n) eqn:Hs.
  - rewrite (update_snapshot _ _ _ n Hn Hs). intros [= <- _].
    apply set_last_modification_time_wf, branch_result_wf; assumption.
  - rewrite (update_mutable _ _ _ n Hn Hs). intros [= <- _].
    apply set_last_modification_time_wf.
    apply (with_node_wf f n); [assumption | assumption | reflexivity | reflexivity].
Qed.

Lemma snapshot_wf (msg : string) (f f' : File) (w w' : World) :
  file_wf f -> File.snapshot msg f w = Some (tt, f', w') -> file_wf f'.
Proof.
  intros Hwf. destruct (wf_active_node f Hwf) as [n Hn].
  destruct (isSnapshot n) eqn:Hs.
  - rewrite (snapshot_snapshot _ _ _ n Hn Hs). intros [= <- _]. exact Hwf.
  - rewrite (snapshot_mutable _ _ _ n Hn Hs). intros [= <- _].
    apply set_last_modification_time_wf.
    apply (with_node_wf f n); [assumption | assumption | reflexivity | reflexivity].
Qed.

(** Rollback returns on every well-formed file, whatever the id; it only
    moves the active pointer, and only to a node of the file. *)
Lemma rollback_total (versionId : Z) (f : File) (w : World) :
  file_wf f ->
  exists ok p w',
    File.rollback versionId f w = Some (ok, File.set_active_version p f, w') /\
    (p < length (nodes f))%nat /\
    (ok = false -> p = active_version f).
Proof.
  intros Hwf. destruct (wf_active_node f Hwf) as [n Hn].
  pose proof (wf_active f Hwf) as Ha.
  assert (Hself : File.set_active_version (active_version f) f = f) by (destruct f; reflexivity).
  destruct (decide (versionId = -1)) as [-> | Hid].
  - rewrite (rollback_parent_run f w n Hn).
    destruct (parent n) as [q | ] eqn:Hq.
    + exists true, q, w. split; [reflexivity | ]. split; [ | discriminate].
      pose proof (wf_parent f Hwf _ _ _ Hn Hq). lia.
    + exists false, (active_version f), w. rewrite Hself. auto.
  - rewrite (rollback_id_run versionId f w n Hn Hid).
    destruct (versionId =? version_id n).
    + exists false, (active_version f), (say already_active_text w). rewrite Hself. auto.
    + destruct (HashMap.get (version_map f) versionId) as [q | ] eqn:Hq.
      * exists true, q, w. split; [reflexivity | ]. split; [ | discriminate].
        apply (wf_map f Hwf) in Hq. tauto.
      * exists false, (active_version f), w. rewrite Hself. auto.
Qed.

Lemma rollback_wf (versionId : Z) (ok : bool) (f f' : File) (w w' : World) :
  file_wf f -> File.rollback versionId f w = Some (ok, f', w') -> file_wf f'.
Proof.
  intros Hwf. destruct (rollback_total versionId f w Hwf) as (ok0 & p & w0 & -> & Hp & _).
  intros [= _ <- _]. apply set_active_version_wf; assumption.
Qed.

(** ** custom_reverse reverses *)

Lemma insert_middle {A} (l1 : list A) (x y : A) (l2 : list A) :
  <[length l1 := y]> (l1 ++ x :: l2) = l1 ++ y :: l2.
Proof. induction l1 as [ | a l1 IH]; simpl; [reflexivity | f_equal; exact IH]. Qed.

Lemma custom_swap_ends {A} (l1 : list A) (a : A) (mid : list A) (b : A) (l2 : list A) :
  custom_swap (l1 ++ a :: mid ++ b :: l2) (length l1) (length l1 + S (length mid))
  = Some (l1 ++ b :: mid ++ a :: l2).
Proof.
  unfold custom_swap.
  rewrite (list_lookup_middle l1 (mid ++ b :: l2) a (length l1) eq_refl). simpl.
  assert (E : forall x y, l1 ++ x :: mid ++ y :: l2 = (l1 ++ x :: mid) ++ y :: l2).
  { intros x y. rewrite <- app_assoc. reflexivity. }
  assert (El : forall x, length (l1 ++ x :: mid) = (length l1 + S (length mid))%nat).
  { intros x. rewrite length_app. reflexivity. }
  rewrite (E a b).
  rewrite (list_lookup_middle (l1 ++ a :: mid) l2 b _ (eq_sym (El a))). simpl.
  rewrite <- (E a b). rewrite insert_middle.
  rewrite (E b b). rewrite <- (El b). rewrite insert_middle.
  rewrite <- E. reflexivity.
Qed.

Lemma custom_reverse_loop_spec {A} (k : nat) :
  forall (mid l1 l2 : list A) (fuel : nat),
    (length mid <= k)%nat -> (length mid <= fuel)%nat -> (1 <= fuel)%nat ->
    (1 <= length l1 + length mid)%nat ->
    custom_reverse_loop fuel (l1 ++ mid ++ l2) (length l1)
                        (length l1 + length mid - 1)
    = Some (l1 ++ rev mid ++ l2).
Proof.
  induction k as [k IH] using lt_wf_ind.
  intros mid l1 l2 [ | fuel] Hk Hfuel Hone Hne; [lia | ].
  destruct mid as [ | a rest].
  - simpl. replace (length l1 + 0 - 1)%nat with (Nat.pred (length l1)) by lia.
    destruct (length l1 <? Nat.pred (length l1))%nat eqn:E; [ | reflexivity].
    apply Nat.ltb_lt in E. lia.
  - destruct (decide (rest = [])) as [-> | Hrest].
    + simpl. replace (length l1 + 1 - 1)%nat with (length l1) by lia.
      rewrite Nat.ltb_irrefl. reflexivity.
    + destruct (exists_last Hrest) as (mid' & b & ->).
      simpl in Hk, Hfuel. rewrite length_app in Hk, Hfuel. simpl in Hk, Hfuel.
      cbn [custom_reverse_loop].
      assert (Hend : (length l1 + length (a :: mid' ++ [b]) - 1
                      = length l1 + S (length mid'))%nat).
      { simpl. rewrite length_app. simpl. lia. }
      rewrite Hend.
      assert (Hlt : (length l1 <? length l1 + S (length mid'))%nat = true)
        by (apply Nat.ltb_lt; lia).
      rewrite Hlt.
      assert (Hshape : l1 ++ (a :: mid' ++ [b]) ++ l2 = l1 ++ a :: mid' ++ b :: l2).
      { simpl. rewrite <- app_assoc. reflexivity. }
      rewrite Hshape, custom_swap_ends. simpl.
      assert (Hshape' : l1 ++ b :: mid' ++ a :: l2 = (l1 ++ [b]) ++ mid' ++ (a :: l2)).
      { rewrite <- app_assoc. reflexivity. }
      rewrite Hshape'.
      replace (S (length l1)) with (length (l1 ++ [b]))
        by (rewrite length_app; simpl; lia).
      replace (Nat.pred (length l1 + S (length mid')))
        with (length (l1 ++ [b]) + length mid' - 1)%nat
        by (rewrite length_app; simpl; lia).
      rewrite (IH (length mid')) by (try rewrite length_app; simpl; lia).
      rewrite rev_app_distr. simpl.
      rewrite <- !app_assoc. reflexivity.
Qed.

Lemma custom_reverse_rev {A} (vec : list A) : custom_reverse vec = Some (rev vec).
Proof.
  destruct vec as [ | a vec]; [reflexivity | ].
  unfold custom_reverse.
  pose proof (custom_reverse_loop_spec (length (a :: vec)) (a :: vec) [] []
                (length (a :: vec))) as Hloop.
  rewrite !app_nil_r in Hloop. apply Hloop; simpl; lia.
Qed.

(** ** History *)

Lemma string_app_assoc (a b c : string) : (a +:+ b) +:+ c = a +:+ (b +:+ c).
Proof.
  induction a as [ | x a IH]; [reflexivity | ].
  change (String x ((a +:+ b) +:+ c) = String x (a +:+ (b +:+ c))).
  f_equal. exact IH.
Qed.

Lemma string_app_nil_r (a : string) : a +:+ EmptyString = a.
Proof.
  induction a as [ | x a IH]; [reflexivity | ].
  change (String x (a +:+ EmptyString) = String x a). f_equal. exact IH.
Qed.

Lemma history_join_text (w : World) (l : list VersionNode) (result : string) :
  File.history_join (map (history_entry w) l) result = result +:+ history_text w l.
Proof.
  revert result. induction l as [ | n l IH]; intros result; simpl.
  - symmetry. apply string_app_nil_r.
  - rewrite IH. apply string_app_assoc.
Qed.

Lemma history_walk_spec (f : File) (w : World) :
  (forall p n q, nodes f !! p = Some n -> parent n = Some q -> (q < p)%nat) ->
  forall (fuel p : nat) (entries : list string),
    (p + 2 <= fuel)%nat -> (p < length (nodes f))%nat ->
    exists chain,
      chain_to_root (nodes f) p chain /\
      File.history_walk fuel (Some p) entries f w
      = Some (entries ++ map (history_entry w) (List.filter isSnapshot chain), f, w).
Proof.
  intros Hpar fuel. induction fuel as [ | fuel IH]; intros p entries Hfuel Hp; [lia | ].
  destruct (lookup_lt_is_Some_2 _ _ Hp) as [n Hn].
  cbn [File.history_walk]. unfold bind at 1. unfold File.deref at 1. rewrite Hn.
  assert (Hentries : forall (s : File) (w0 : World),
    ((if isSnapshot n
      then (time_buf <- strftime (snapshot_timestamp n) ;;
            ret (entries ++ ["Version: " +:+ to_string (version_id n)
                             +:+ ", Timestamp: " +:+ time_buf
                             +:+ ", Message: " +:+ message n]))%cpp
      else ret entries) : M File (list string)) s w0
    = Some (entries ++ map (history_entry w0) (List.filter isSnapshot [n]), s, w0)).
  { intros s w0. simpl. destruct (isSnapshot n); simpl.
    - reflexivity.
    - unfold ret. rewrite app_nil_r. reflexivity. }
  unfold bind at 1. rewrite Hentries.
  destruct (parent n) as [q | ] eqn:Hq.
  - pose proof (Hpar _ _ _ Hn Hq) as Hlt.
    destruct (IH q (entries ++ map (history_entry w) (List.filter isSnapshot [n])))
      as (chain & Hchain & Hwalk); [lia | lia | ].
    exists (n :: chain). split; [eapply chain_step; eassumption | ].
    rewrite Hwalk. rewrite <- app_assoc, <- map_app.
    change (n :: chain) with ([n] ++ chain). rewrite List.filter_app. reflexivity.
  - exists [n]. split; [apply chain_root; assumption | ].
    destruct fuel as [ | fuel]; [lia | ]. reflexivity.
Qed.

Lemma chain_to_root_suffix (ns : list VersionNode) (p : nat) (l : list VersionNode) :
  chain_to_root ns p l ->
  forall l1 n l2, l = l1 ++ n :: l2 ->
    exists q, ns !! q = Some n /\ chain_to_root ns q (n :: l2).
Proof.
  induction 1 as [p n Hn Hpar | p n q l Hn Hpar Hchain IH]; intros l1 m l2 E.
  - destruct l1 as [ | x l1]; simpl in E.
    + injection E as <- <-. exists p. split; [exact Hn | apply chain_root; assumption].
    + injection E as _ E. destruct l1; discriminate.
  - destruct l1 as [ | x l1]; simpl in E.
    + injection E as <- <-. exists p. split; [exact Hn | ].
      eapply chain_step; eassumption.
    + injection E as _ E. apply (IH _ _ _ E).
Qed.

Lemma history_run (f : File) (w : World) :
  file_wf f ->
  exists chain,
    chain_to_root (nodes f) (active_version f) chain /\
    File.history f w = Some (history_text w (List.filter isSnapshot (rev chain)), f, w).
Proof.
  intros Hwf.
  destruct (history_walk_spec f w (wf_parent f Hwf) (S (length (nodes f)))
              (active_version f) []) as (chain & Hchain & Hwalk).
  { pose proof (wf_active f Hwf). lia. }
  { apply (wf_active f Hwf). }
  exists chain. split; [exact Hchain | ].
  unfold File.history. unfold bind at 1. unfold gets at 1.
  unfold bind at 1. unfold gets at 1. unfold bind at 1.
  rewrite Hwalk. rewrite custom_reverse_rev.
  unfold ret. rewrite app_nil_l, <- map_rev, <- List.filter_rev.
  rewrite history_join_text. reflexivity.
Qed.

(** ** MaxHeap: the array is a heap *)

Ltac Zify.zify_post_hook ::= Z.to_euclidean_division_equations.

Lemma parent_nat (k : nat) :
  (0 < k)%nat -> Z.of_nat k <= INT_MAX ->
  MaxHeap.parent (Z.of_nat k) = Z.of_nat (up k).
Proof.
  intros Hk Hmax. unfold MaxHeap.parent, up.
  rewrite (wrap32_id (Z.of_nat k - 1)) by (unfold INT_MIN, INT_MAX in *; lia).
  rewrite wrap32_id; unfold INT_MIN, INT_MAX in *; lia.
Qed.

Lemma leftChild_nat (k : nat) :
  Z.of_nat k < 2 ^ 30 - 1 ->
  MaxHeap.leftChild (Z.of_nat k) = Z.of_nat (2 * k + 1).
Proof.
  intros Hk. unfold MaxHeap.leftChild.
  rewrite (wrap32_id (2 * Z.of_nat k)) by (unfold INT_MIN, INT_MAX; lia).
  rewrite wrap32_id; unfold INT_MIN, INT_MAX; lia.
Qed.

Lemma rightChild_nat (k : nat) :
  Z.of_nat k < 2 ^ 30 - 1 ->
  MaxHeap.rightChild (Z.of_nat k) = Z.of_nat (2 * k + 2).
Proof.
  intros Hk. unfold MaxHeap.rightChild.
  rewrite (wrap32_id (2 * Z.of_nat k)) by (unfold INT_MIN, INT_MAX; lia).
  rewrite wrap32_id; unfold INT_MIN, INT_MAX; lia.
Qed.

Lemma to_size_t_nat (k : nat) :
  Z.of_nat k < 2 ^ 64 -> Z.to_nat (to_size_t (Z.of_nat k)) = k.
Proof. intros Hk. rewrite to_size_t_id by lia. apply Nat2Z.id. Qed.

Lemma at_nat (h : list FileMetric) (k : nat) :
  Z.of_nat k < 2 ^ 64 -> MaxHeap.at_ h (Z.of_nat k) = h !! k.
Proof. intros Hk. unfold MaxHeap.at_. rewrite to_size_t_nat by exact Hk. reflexivity. Qed.

Lemma swap_nat (h : list FileMetric) (i j : nat) :
  Z.of_nat i < 2 ^ 64 -> Z.of_nat j < 2 ^ 64 ->
  MaxHeap.swap h (Z.of_nat i) (Z.of_nat j) = custom_swap h i j.
Proof.
  intros Hi Hj. unfold MaxHeap.swap. rewrite !to_size_t_nat by assumption. reflexivity.
Qed.

(** What a swap of two positions [i < j] does. *)
Lemma custom_swap_lt {A} (h : list A) (i j : nat) (a b : A) :
  (i < j)%nat -> h !! i = Some a -> h !! j = Some b ->
  exists h',
    custom_swap h i j = Some h' /\
    length h' = length h /\
    h' ≡ₚ h /\
    h' !! i = Some b /\
    h' !! j = Some a /\
    (forall k, k <> i -> k <> j -> h' !! k = h !! k).
Proof.
  intros Hlt Hi Hj.
  pose proof (lookup_lt_Some _ _ _ Hi) as Hil.
  pose proof (lookup_lt_Some _ _ _ Hj) as Hjl.
  exists (<[j := a]> (<[i := b]> h)).
  split; [unfold custom_swap; rewrite Hi, Hj; reflexivity | ].
  split; [rewrite !length_insert; reflexivity | ].
  split.
  - pose proof (take_drop_middle h i a Hi) as E1.
    assert (Hj' : drop (S i) h !! (j - S i)%nat = Some b).
    { rewrite lookup_drop. replace (S i + (j - S i))%nat with j by lia. exact Hj. }
    pose proof (take_drop_middle _ _ _ Hj') as E2.
    set (l1 := take i h) in *.
    set (mid := take (j - S i) (drop (S i) h)) in *.
    set (l2 := drop (S (j - S i)) (drop (S i) h)) in *.
    assert (Hl1 : length l1 = i) by (subst l1; rewrite length_take; lia).
    assert (Hmid : length mid = (j - S i)%nat).
    { subst mid. rewrite length_take, length_drop. lia. }
    assert (E : h = l1 ++ a :: mid ++ b :: l2) by (rewrite E2; symmetry; exact E1).
    clearbody l1 mid l2. clear E1 E2 Hj'.
    assert (Es : custom_swap h i j = Some (l1 ++ b :: mid ++ a :: l2)).
    { rewrite E. rewrite <- Hl1.
      replace j with (length l1 + S (length mid))%nat by lia.
      apply custom_swap_ends. }
    unfold custom_swap in Es. rewrite Hi, Hj in Es. simpl in Es.
    injection Es as Es. rewrite Es. rewrite E.
    apply Permutation_app_head.
    rewrite <- !Permutation_middle. apply perm_swap.
  - split; [ | split].
    + rewrite list_lookup_insert_ne by lia.
      apply list_lookup_insert_eq. exact Hil.
    + apply list_lookup_insert_eq. rewrite length_insert. exact Hjl.
    + intros k Hki Hkj. rewrite !list_lookup_insert_ne by congruence. reflexivity.
Qed.

Lemma heapifyUp_loop_spec (fuel : nat) :
  forall (h : list FileMetric) (k : nat),
    (k < length h)%nat -> (k < fuel)%nat -> small h -> up_inv h k ->
    exists h',
      MaxHeap.heapifyUp_loop fuel h (Z.of_nat k) = Some h' /\
      heap_ok h' /\ h' ≡ₚ h.
Proof.
  induction fuel as [ | fuel IH]; intros h k Hk Hfuel Hsmall [Hinv1 Hinv2]; [lia | ].
  unfold small in Hsmall. cbn [MaxHeap.heapifyUp_loop].
  destruct (0 <? Z.of_nat k) eqn:Hpos.
  - apply Z.ltb_lt in Hpos.
    assert (Hk0 : (0 < k)%nat) by lia.
    assert (Hup : (up k < k)%nat) by (unfold up; lia).
    rewrite parent_nat by (unfold INT_MAX; lia).
    rewrite !at_nat by lia.
    destruct (lookup_lt_is_Some_2 h (up k)) as [p Hp]; [lia | ].
    destruct (lookup_lt_is_Some_2 h k Hk) as [c Hc].
    rewrite Hp, Hc. simpl.
    unfold less, FileMetric_less.
    destruct (value p <? value c) eqn:Hlt.
    + apply Z.ltb_lt in Hlt.
      rewrite swap_nat by lia.
      destruct (custom_swap_lt h (up k) k p c Hup Hp Hc)
        as (h' & -> & Hlen & Hperm & Hi & Hj & Hother).
      simpl.
      destruct (IH h' (up k)) as (h'' & Hrun & Hok & Hperm').
      * lia.
      * lia.
      * unfold small. lia.
      * split.
        -- intros i x y Hi0 Hine Hx Hy.
           destruct (decide (i = k)) as [-> | Hik].
           ++ rewrite Hj in Hx. rewrite Hi in Hy. injection Hx as <-. injection Hy as <-. lia.
           ++ rewrite Hother in Hx by assumption.
              destruct (decide (up i = k)) as [Eik | Hupk].
              ** rewrite Eik, Hj in Hy. injection Hy as <-.
                 apply (Hinv2 i x p Hi0 Eik Hk0 Hx Hp).
              ** destruct (decide (up i = up k)) as [Eiu | Hupu].
                 --- rewrite Eiu, Hi in Hy. injection Hy as <-.
                     assert (value x <= value p); [ | lia].
                     apply (Hinv1 i x p Hi0 Hik Hx). rewrite Eiu. exact Hp.
                 --- rewrite Hother in Hy by assumption.
                     apply (Hinv1 i x y Hi0 Hik Hx Hy).
        -- intros i x y Hi0 Eiu Hupk0 Hx Hy.
           assert (Hy' : h !! up (up k) = Some y).
           { rewrite <- Hother; [exact Hy | unfold up in *; lia | unfold up in *; lia]. }
           assert (Hpy : value p <= value y).
           { apply (Hinv1 (up k) p y Hupk0); [lia | exact Hp | exact Hy']. }
           destruct (decide (i = k)) as [-> | Hik].
           ++ rewrite Hj in Hx. injection Hx as <-. exact Hpy.
           ++ rewrite Hother in Hx by (unfold up in *; lia).
              assert (value x <= value p); [ | lia].
              apply (Hinv1 i x p Hi0 Hik Hx). rewrite Eiu. exact Hp.
      * exists h''. split; [exact Hrun | ]. split; [exact Hok | ].
        etransitivity; eassumption.
    + apply Z.ltb_ge in Hlt. exists h. split; [reflexivity | ]. split; [ | reflexivity].
      intros i x y Hi0 Hx Hy.
      destruct (decide (i = k)) as [-> | Hik].
      * rewrite Hc in Hx. rewrite Hp in Hy. injection Hx as <-. injection Hy as <-. exact Hlt.
      * apply (Hinv1 i x y Hi0 Hik Hx Hy).
  - apply Z.ltb_ge in Hpos. assert (k = 0%nat) as -> by lia.
    exists h. split; [reflexivity | ]. split; [ | reflexivity].
    intros i x y Hi0 Hx Hy. apply (Hinv1 i x y Hi0); [lia | exact Hx | exact Hy].
Qed.

(** [insert] returns, keeps the heap order and adds exactly the new item. *)
Lemma insert_spec (h : MaxHeap FileMetric) (x : FileMetric) :
  heap_ok (heap h) -> Z.of_nat (length (heap h)) < 2 ^ 30 - 1 ->
  exists h',
    MaxHeap.insert h x = Some h' /\
    heap_ok (heap h') /\ heap h' ≡ₚ x :: heap h.
Proof.
  intros Hok Hsmall. unfold MaxHeap.insert.
  assert (Hlen : length (heap h ++ [x]) = S (length (heap h)))
    by (rewrite length_app; simpl; lia).
  rewrite Hlen.
  replace (Z.of_nat (S (length (heap h))) - 1) with (Z.of_nat (length (heap h))) by lia.
  rewrite wrap32_to_size_t by (unfold INT_MIN, INT_MAX; lia).
  unfold MaxHeap.heapifyUp. rewrite Nat2Z.id.
  destruct (heapifyUp_loop_spec (S (length (heap h))) (heap h ++ [x]) (length (heap h)))
    as (h' & Hrun & Hok' & Hperm).
  - lia.
  - lia.
  - unfold small. lia.
  - split.
    + intros i a b Hi0 Hine Ha Hb.
      assert (Hil : (i < length (heap h))%nat).
      { apply lookup_lt_Some in Ha. lia. }
      rewrite lookup_app_l in Ha by exact Hil.
      rewrite lookup_app_l in Hb by (unfold up; lia).
      apply (Hok i a b Hi0 Ha Hb).
    + intros i a b Hi0 Eiu Hk0 Ha Hb.
      apply lookup_lt_Some in Ha. unfold up in Eiu. lia.
  - rewrite Hrun. simpl. exists (mkMaxHeap h'). split; [reflexivity | ].
    split; [exact Hok' | ]. simpl. rewrite Hperm.
    symmetry. apply Permutation_cons_append.
Qed.

Lemma pick_pick_nat (h : list FileMetric) (m c : nat) :
  (m < length h)%nat -> Z.of_nat c < 2 ^ 64 -> Z.of_nat m < 2 ^ 64 ->
  MaxHeap.pick h (Z.of_nat m) (Z.of_nat c) = Some (Z.of_nat (pick_nat h m c)).
Proof.
  intros Hm Hc Hm'. unfold MaxHeap.pick, pick_nat.
  rewrite to_size_t_id by lia. rewrite !at_nat by assumption.
  destruct (lookup_lt_is_Some_2 h m Hm) as [a Ha]. rewrite Ha.
  destruct (Z.of_nat c <? Z.of_nat (length h)) eqn:E.
  - apply Z.ltb_lt in E.
    destruct (lookup_lt_is_Some_2 h c) as [b Hb]; [lia | ]. rewrite Hb. simpl.
    unfold less, FileMetric_less. destruct (value a <? value b); reflexivity.
  - apply Z.ltb_ge in E. rewrite (lookup_ge_None_2 h c) by lia. reflexivity.
Qed.

Lemma pick_nat_spec (h : list FileMetric) (m c : nat) (a : FileMetric) :
  h !! m = Some a ->
  (pick_nat h m c = m \/ pick_nat h m c = c) /\
  exists a', h !! pick_nat h m c = Some a' /\
             value a <= value a' /\
             (forall b, h !! c = Some b -> value b <= value a').
Proof.
  intros Ha. unfold pick_nat. rewrite Ha.
  destruct (h !! c) as [b | ] eqn:Hb.
  - destruct (value a <? value b) eqn:E.
    + apply Z.ltb_lt in E. split; [right; reflexivity | ].
      exists b. split; [exact Hb | ]. split; [lia | ]. intros b' [= <-]. lia.
    + apply Z.ltb_ge in E. split; [left; reflexivity | ].
      exists a. split; [exact Ha | ]. split; [lia | ]. intros b' [= <-]. lia.
  - split; [left; reflexivity | ].
    exists a. split; [exact Ha | ]. split; [lia | ]. intros b' Hb'. discriminate.
Qed.

Lemma heapifyDown_loop_spec (fuel : nat) :
  forall (h : list FileMetric) (k : nat),
    (k < length h)%nat -> (length h - k < fuel)%nat -> small h -> down_inv h k ->
    exists h',
      MaxHeap.heapifyDown_loop fuel h (Z.of_nat k) (Z.of_nat k) = Some h' /\
      heap_ok h' /\ h' ≡ₚ h.
Proof.
  induction fuel as [ | fuel IH]; intros h k Hk Hfuel Hsmall [Hinv1 Hinv2]; [lia | ].
  unfold small in Hsmall. cbn [MaxHeap.heapifyDown_loop].
  rewrite leftChild_nat, rightChild_nat by lia.
  destruct (lookup_lt_is_Some_2 h k Hk) as [a Ha].
  rewrite pick_pick_nat by lia. cbn [mbind option_bind].
  destruct (pick_nat_spec h k (2 * k + 1) a Ha) as (Hm1 & a1 & Ha1 & Hle1 & Hl).
  set (m1 := pick_nat h k (2 * k + 1)) in *.
  assert (Hm1lt : (m1 < length h)%nat) by (eapply lookup_lt_Some; eassumption).
  rewrite pick_pick_nat by lia. cbn [mbind option_bind].
  destruct (pick_nat_spec h m1 (2 * k + 2) a1 Ha1) as (Hm2 & a2 & Ha2 & Hle2 & Hr).
  set (m2 := pick_nat h m1 (2 * k + 2)) in *.
  assert (Hm2lt : (m2 < length h)%nat) by (eapply lookup_lt_Some; eassumption).
  assert (Hchild : forall i x, (0 < i)%nat -> up i = k -> h !! i = Some x ->
                               value x <= value a2).
  { intros i x Hi0 Eik Hx.
    assert (i = (2 * k + 1)%nat \/ i = (2 * k + 2)%nat) as [-> | ->]
      by (unfold up in Eik; lia).
    - pose proof (Hl x Hx). lia.
    - apply (Hr x Hx). }
  destruct (Z.of_nat k =? Z.of_nat m2) eqn:Ekm.
  - apply Z.eqb_eq in Ekm. assert (Ek : m2 = k) by lia.
    exists h. split; [reflexivity | ]. split; [ | reflexivity].
    rewrite Ek, Ha in Ha2. injection Ha2 as <-.
    intros i x y Hi0 Hx Hy.
    destruct (decide (up i = k)) as [Eik | Hik].
    + rewrite Eik, Ha in Hy. injection Hy as <-. apply (Hchild i x Hi0 Eik Hx).
    + apply (Hinv1 i x y Hi0 Hik Hx Hy).
  - apply Z.eqb_neq in Ekm.
    assert (Hkm : (k < m2)%nat) by lia.
    assert (Hupm : up m2 = k) by (unfold up; lia).
    rewrite swap_nat by lia.
    destruct (custom_swap_lt h k m2 a a2 Hkm Ha Ha2)
      as (h' & -> & Hlen & Hperm & Hi & Hj & Hother).
    cbn [mbind option_bind].
    destruct (IH h' m2) as (h'' & Hrun & Hok & Hperm').
    + lia.
    + lia.
    + unfold small. lia.
    + split.
      * intros i x y Hi0 Hine Hx Hy.
        destruct (decide (i = k)) as [-> | Hik].
        -- rewrite Hi in Hx. injection Hx as <-.
           rewrite Hother in Hy by (unfold up in *; lia).
           apply (Hinv2 m2 a2 y); [lia | exact Hupm | exact Hi0 | exact Ha2 | exact Hy].
        -- destruct (decide (i = m2)) as [-> | Him].
           ++ congruence || (rewrite Hj in Hx; rewrite Hupm, Hi in Hy;
                             injection Hx as <-; injection Hy as <-; lia).
           ++ rewrite Hother in Hx by assumption.
              destruct (decide (up i = k)) as [Eik | Hupk].
              ** rewrite Eik, Hi in Hy. injection Hy as <-.
                 apply (Hchild i x Hi0 Eik Hx).
              ** rewrite Hother in Hy by assumption.
                 apply (Hinv1 i x y Hi0 Hupk Hx Hy).
      * intros i x y Hi0 Eim Hm0 Hx Hy.
        rewrite Hupm, Hi in Hy. injection Hy as <-.
        rewrite Hother in Hx by (unfold up in *; lia).
        apply (Hinv1 i x a2 Hi0); [lia | exact Hx | rewrite Eim; exact Ha2].
    + exists h''. split; [exact Hrun | ]. split; [exact Hok | ].
      etransitivity; eassumption.
Qed.

(** The first element of a heap is a greatest one. *)
Lemma heap_root_max (h : list FileMetric) (x : FileMetric) :
  heap_ok h -> h !! 0%nat = Some x ->
  forall y, y ∈ h -> value y <= value x.
Proof.
  intros Hok Hx y Hy. apply list_elem_of_lookup in Hy. destruct Hy as [i Hi].
  revert y Hi. induction i as [i IH] using lt_wf_ind. intros y Hi.
  destruct (decide (i = 0%nat)) as [-> | Hne].
  - rewrite Hx in Hi. injection Hi as <-. lia.
  - assert (Hup : (up i < i)%nat) by (unfold up; lia).
    destruct (lookup_lt_is_Some_2 h (up i)) as [p Hp].
    { apply lookup_lt_Some in Hi. lia. }
    pose proof (Hok i y p ltac:(lia) Hi Hp).
    pose proof (IH (up i) Hup p Hp). lia.
Qed.

(** [extractMax] on a non-empty heap returns a greatest item and leaves a
    heap of the other items. *)
Lemma extractMax_spec (h : MaxHeap FileMetric) :
  heap_ok (heap h) -> small (heap h) -> heap h <> [] ->
  exists x h',
    MaxHeap.extractMax h = Some (x, h') /\
    heap_ok (heap h') /\
    heap h ≡ₚ x :: heap h' /\
    (forall y, y ∈ heap h -> value y <= value x).
Proof.
  intros Hok Hsmall Hne. unfold MaxHeap.extractMax.
  destruct (heap h) as [ | x rest] eqn:Eh; [congruence | ].
  pose proof (heap_root_max (x :: rest) x Hok eq_refl) as Hmax.
  destruct (decide (rest = [])) as [-> | Hrest].
  - simpl. exists x, (mkMaxHeap []). split; [reflexivity | ]. split; [ | split].
    + intros i a b Hi0 Ha. simpl in Ha. rewrite lookup_nil in Ha. discriminate.
    + reflexivity.
    + exact Hmax.
  - destruct (exists_last Hrest) as (init & back & ->).
    assert (Hlast : list.last (x :: init ++ [back]) = Some back).
    { change (x :: init ++ [back]) with ((x :: init) ++ [back]). apply last_snoc. }
    rewrite Hlast. simpl.
    rewrite length_app. simpl.
    replace (length init + 1 - 0)%nat with (S (length init)) by lia.
    assert (Htake : take (S (length init)) (back :: init ++ [back]) = back :: init).
    { simpl. f_equal. rewrite take_app_length. reflexivity. }
    rewrite Htake.
    unfold MaxHeap.heapifyDown.
    destruct (heapifyDown_loop_spec (S (length (back :: init))) (back :: init) 0)
      as (h' & Hrun & Hok' & Hperm).
    + simpl. lia.
    + simpl. lia.
    + unfold small in *. simpl in *. rewrite length_app in Hsmall. simpl in Hsmall. lia.
    + split.
      * intros i a b Hi0 Hup Ha Hb.
        assert (Hil : (i < S (length init))%nat) by (apply lookup_lt_Some in Ha; simpl in Ha; lia).
        assert (Hu0 : (0 < up i)%nat) by lia.
        apply (Hok i a b Hi0).
        -- destruct i as [ | i]; [lia | ]. simpl in *.
           rewrite lookup_app_l by lia. exact Ha.
        -- destruct (up i) as [ | u] eqn:Eu; [lia | ]. simpl in *.
           rewrite lookup_app_l; [exact Hb | ].
           apply lookup_lt_Some in Hb. exact Hb.
      * intros i a b Hi0 Hup Hk0. lia.
    + change (Z.of_nat 0) with 0 in Hrun. rewrite Hrun. simpl.
      exists x, (mkMaxHeap h'). split; [reflexivity | ]. split; [exact Hok' | ].
      split; [ | exact Hmax].
      simpl. constructor. rewrite Hperm. symmetry. apply Permutation_cons_append.
Qed.

(** ** HashMap: what the map holds *)

Section HashMapEntries.
Context {K V : Type} `{EqDecision K} `{CustomHash K}.
Implicit Types (hm : HashMap K V) (key : K) (entry : list (K * V)).

Lemma flat_map_map {A B C} (f : A -> list B) (g : B -> C) (l : list A) :
  map g (flat_map f l) = flat_map (fun a => map g (f a)) l.
Proof.
  induction l as [ | a l IH]; simpl; [reflexivity | ].
  rewrite map_app, IH. reflexivity.
Qed.

Lemma getValues_entries hm : HashMap.getValues hm = map snd (entries hm).
Proof. unfold HashMap.getValues, entries. symmetry. apply flat_map_map. Qed.

Lemma keys_entries hm : hm_keys hm = map fst (entries hm).
Proof. unfold hm_keys, entries. symmetry. apply flat_map_map. Qed.

Lemma elem_of_flat_map {A B} (f : A -> list B) (l : list A) (b : B) :
  b ∈ flat_map f l <-> exists a, a ∈ l /\ b ∈ f a.
Proof.
  rewrite list_elem_of_In, in_flat_map.
  split; intros (a & Ha & Hb); exists a; rewrite ?list_elem_of_In in *; tauto.
Qed.

Lemma elem_of_entries hm key value :
  (key, value) ∈ entries hm <->
  exists i : nat, (i < Z.to_nat (capacity hm))%nat /\
                  (key, value) ∈ HashMap.bucket hm (Z.of_nat i).
Proof.
  unfold entries. rewrite elem_of_flat_map.
  split; intros (i & Hi & Hb); exists i; split; try assumption.
  - apply list_elem_of_In, in_seq in Hi. lia.
  - apply list_elem_of_In, in_seq. lia.
Qed.

Lemma get_walk_elem entry key value :
  HashMap.get_walk entry key = Some value -> (key, value) ∈ entry.
Proof.
  induction entry as [ | [k v] next IH]; simpl; [discriminate | ].
  destruct (decide (k = key)) as [-> | Hne].
  - intros [= ->]. left.
  - intros Hg. right. apply IH, Hg.
Qed.

Lemma get_walk_NoDup entry key value :
  NoDup (map fst entry) -> (key, value) ∈ entry ->
  HashMap.get_walk entry key = Some value.
Proof.
  induction entry as [ | [k v] next IH]; simpl; intros Hnd Hin.
  - apply elem_of_nil in Hin. contradiction.
  - apply list.NoDup_cons in Hnd. destruct Hnd as [Hk Hnd].
    apply elem_of_cons in Hin. destruct Hin as [[= -> ->] | Hin].
    + destruct (decide (k = k)); [reflexivity | congruence].
    + destruct (decide (k = key)) as [-> | Hne].
      * exfalso. apply Hk. apply list_elem_of_fmap. exists (key, value). auto.
      * apply IH; assumption.
Qed.

Lemma get_walk_None_elem entry key :
  HashMap.get_walk entry key = None -> key ∉ map fst entry.
Proof.
  induction entry as [ | [k v] next IH]; simpl; intros Hg Hin.
  - apply elem_of_nil in Hin. contradiction.
  - destruct (decide (k = key)) as [-> | Hne]; [discriminate | ].
    apply elem_of_cons in Hin. destruct Hin as [-> | Hin]; [congruence | ].
    apply (IH Hg Hin).
Qed.

(** The pairs of the map are the pairs [get] finds. *)
Lemma get_entries hm key value :
  hm_shape hm -> hm_buckets_ok hm ->
  HashMap.get hm key = Some value <-> (key, value) ∈ entries hm.
Proof.
  intros Hs Hb. pose proof (hashFunction_range hm key Hs) as Hr.
  rewrite elem_of_entries. unfold HashMap.get. split.
  - intros Hg. exists (Z.to_nat (HashMap.hashFunction hm key)).
    split; [lia | ]. rewrite Z2Nat.id by lia. apply get_walk_elem, Hg.
  - intros (i & Hi & Hin). destruct (Hb i) as [Hhash Hnd].
    pose proof (Hhash _ _ Hin) as E.
    assert (Ei : HashMap.hashFunction hm key = Z.of_nat i) by lia.
    rewrite Ei. apply get_walk_NoDup; assumption.
Qed.

Lemma NoDup_flat_map {A B} (f : A -> list B) (l : list A) :
  NoDup l ->
  (forall a, a ∈ l -> NoDup (f a)) ->
  (forall a a' b, a ∈ l -> a' ∈ l -> b ∈ f a -> b ∈ f a' -> a = a') ->
  NoDup (flat_map f l).
Proof.
  induction l as [ | a l IH]; simpl; intros Hnd Hpiece Hdisj; [constructor | ].
  apply list.NoDup_cons in Hnd. destruct Hnd as [Ha Hnd].
  apply list.NoDup_app. split; [ | split].
  - apply Hpiece. left.
  - intros b Hb Hb'. apply elem_of_flat_map in Hb'. destruct Hb' as (a' & Ha' & Hb').
    assert (a = a') as <-.
    { apply (Hdisj a a' b); [left | right; exact Ha' | exact Hb | exact Hb']. }
    contradiction.
  - apply IH; [exact Hnd | | ].
    + intros a' Ha'. apply Hpiece. right. exact Ha'.
    + intros a1 a2 b H1 H2. apply Hdisj; right; assumption.
Qed.

(** No key occurs twice in the map. *)
Lemma keys_NoDup hm : hm_buckets_ok hm -> NoDup (hm_keys hm).
Proof.
  intros Hb. unfold hm_keys. apply NoDup_flat_map.
  - apply NoDup_ListNoDup, seq_NoDup.
  - intros i _. apply (Hb i).
  - intros i j key _ _ Hi Hj.
    apply list_elem_of_fmap in Hi. destruct Hi as ([k v] & -> & Hi).
    apply list_elem_of_fmap in Hj. destruct Hj as ([k' v'] & E & Hj).
    simpl in E. subst k'.
    destruct (Hb i) as [Hhi _]. destruct (Hb j) as [Hhj _].
    rewrite <- (Hhi _ _ Hi). apply (Hhj _ _ Hj).
Qed.

Lemma new_buckets_ok (c : Z) : hm_buckets_ok (HashMap.new (K:=K) (V:=V) c).
Proof.
  intros i. rewrite bucket_new. split.
  - intros key value Hin. apply elem_of_nil in Hin. contradiction.
  - constructor.
Qed.

Lemma entries_new (c : Z) : entries (HashMap.new (K:=K) (V:=V) c) = [].
Proof.
  unfold entries. induction (seq 0 _) as [ | i l IH]; simpl; [reflexivity | ].
  rewrite bucket_new. exact IH.
Qed.

Lemma bucket_put_fresh hm key value (i : nat) :
  hm_shape hm -> HashMap.get hm key = None ->
  HashMap.bucket (HashMap.put hm key value) (Z.of_nat i) =
    if decide (Z.to_nat (HashMap.hashFunction hm key) = i)
    then (key, value) :: HashMap.bucket hm (Z.of_nat i)
    else HashMap.bucket hm (Z.of_nat i).
Proof.
  intros Hs Hg. rewrite bucket_put by exact Hs. rewrite Nat2Z.id.
  destruct (decide _) as [E | E]; [ | reflexivity].
  pose proof (hashFunction_range hm key Hs) as Hr.
  assert (Ei : HashMap.hashFunction hm key = Z.of_nat i) by lia.
  unfold HashMap.get in Hg. apply put_walk_None with (value := value) in Hg.
  rewrite Hg, Ei. reflexivity.
Qed.

Lemma put_fresh_buckets_ok hm key value :
  hm_shape hm -> hm_buckets_ok hm -> HashMap.get hm key = None ->
  hm_buckets_ok (HashMap.put hm key value).
Proof.
  intros Hs Hb Hg i. rewrite (bucket_put_fresh hm key value i Hs Hg).
  destruct (Hb i) as [Hhash Hnd].
  destruct (decide _) as [E | E].
  - split.
    + intros k v Hin. rewrite hashFunction_put.
      apply elem_of_cons in Hin. destruct Hin as [[= -> ->] | Hin]; [exact E | ].
      apply (Hhash _ _ Hin).
    + simpl. apply list.NoDup_cons. split; [ | exact Hnd].
      pose proof (hashFunction_range hm key Hs) as Hr.
      assert (Ei : HashMap.hashFunction hm key = Z.of_nat i) by lia.
      unfold HashMap.get in Hg. rewrite Ei in Hg.
      apply get_walk_None_elem, Hg.
  - split; [ | exact Hnd].
    intros k v Hin. rewrite hashFunction_put. apply (Hhash _ _ Hin).
Qed.

Lemma flat_map_one_more {B} (f g : nat -> list B) (l : list nat) (a0 : nat) (b : B) :
  NoDup l -> a0 ∈ l ->
  (forall a, g a = if decide (a0 = a) then b :: f a else f a) ->
  flat_map g l ≡ₚ b :: flat_map f l.
Proof.
  intros Hnd Hin Hg. induction l as [ | a l IH]; simpl.
  - apply elem_of_nil in Hin. contradiction.
  - apply list.NoDup_cons in Hnd. destruct Hnd as [Ha Hnd].
    rewrite (Hg a). destruct (decide (a0 = a)) as [<- | Hne].
    + simpl. constructor. apply Permutation_app_head.
      clear IH Hin. induction l as [ | a' l IH]; simpl; [reflexivity | ].
      rewrite (Hg a'). destruct (decide (a0 = a')) as [<- | Hne'].
      * exfalso. apply Ha. left.
      * f_equal. apply Permutation_app_head. apply IH.
        -- intros Hin. apply Ha. right. exact Hin.
        -- apply list.NoDup_cons in Hnd. tauto.
    + apply elem_of_cons in Hin. destruct Hin as [-> | Hin]; [congruence | ].
      rewrite (IH Hnd Hin). symmetry. apply Permutation_middle.
Qed.

(** A [put] of a key the map does not hold adds exactly that pair. *)
Lemma entries_put_fresh hm key value :
  hm_shape hm -> HashMap.get hm key = None ->
  entries (HashMap.put hm key value) ≡ₚ (key, value) :: entries hm.
Proof.
  intros Hs Hg. unfold entries. rewrite put_capacity.
  pose proof (hashFunction_range hm key Hs) as Hr.
  apply (flat_map_one_more _ _ _ (Z.to_nat (HashMap.hashFunction hm key))).
  - apply NoDup_ListNoDup, seq_NoDup.
  - apply list_elem_of_In, in_seq. lia.
  - intros i. apply bucket_put_fresh; assumption.
Qed.

End HashMapEntries.

(** ** FileSystem: the analytics heaps *)

Lemma call_gets {A} (g : File -> A) (file_ptr : nat) (fs : FileSystem) (w : World) :
  FileSystem.call file_ptr (gets g) fs w =
    match file_store fs !! file_ptr with
    | Some f => Some (g f, fs, w)
    | None => None
    end.
Proof.
  unfold FileSystem.call, gets.
  destruct (file_store fs !! file_ptr) as [f | ] eqn:E; [ | reflexivity].
  rewrite list_insert_id by exact E. destruct fs; reflexivity.
Qed.

Lemma updateAnalytics_loop_rebuild (all_files : list nat) :
  forall (fs : FileSystem) (w : World),
    FileSystem.updateAnalytics_loop all_files fs w =
      match rebuild (file_store fs) all_files
                    (recent_files_heap fs) (biggest_trees_heap fs) with
      | Some (hr, hb) => Some (tt, mkFileSystem (file_store fs) (files fs) hr hb, w)
      | None => None
      end.
Proof.
  induction all_files as [ | file_ptr rest IH]; intros fs w.
  - simpl. destruct fs; reflexivity.
  - cbn [FileSystem.updateAnalytics_loop rebuild].
    unfold File.getName, File.getLastModificationTime, File.getVersionCount.
    unfold bind at 1. rewrite call_gets.
    destruct (file_store fs !! file_ptr) as [f | ] eqn:E; [ | reflexivity].
    unfold bind at 1. rewrite call_gets, E.
    unfold bind at 1. unfold gets at 1.
    unfold bind at 1. unfold lift at 1.
    cbn [mbind option_bind].
    change (mkFileMetric (filename f) (last_modification_time f)) with (recent_metric f).
    destruct (MaxHeap.insert (recent_files_heap fs) (recent_metric f)) as [hr' | ];
      [ | reflexivity].
    unfold bind at 1. unfold modify at 1.
    unfold bind at 1. rewrite call_gets. simpl file_store. rewrite E.
    unfold bind at 1. rewrite call_gets. simpl file_store. rewrite E.
    unfold bind at 1. unfold gets at 1.
    unfold bind at 1. unfold lift at 1. simpl biggest_trees_heap.
    cbn [mbind option_bind].
    change (mkFileMetric (filename f) (total_versions f)) with (biggest_metric f).
    destruct (MaxHeap.insert (biggest_trees_heap fs) (biggest_metric f)) as [hb' | ];
      [ | reflexivity].
    unfold bind at 1. unfold modify at 1.
    rewrite IH. reflexivity.
Qed.

Lemma updateAnalytics_run (fs : FileSystem) (w : World) :
  FileSystem.updateAnalytics fs w =
    match rebuild (file_store fs) (HashMap.getValues (files fs))
                  (mkMaxHeap []) (mkMaxHeap []) with
    | Some (hr, hb) => Some (tt, mkFileSystem (file_store fs) (files fs) hr hb, w)
    | None => None
    end.
Proof.
  unfold FileSystem.updateAnalytics.
  unfold bind at 1. unfold modify at 1.
  unfold bind at 1. unfold modify at 1.
  unfold bind at 1. unfold gets at 1.
  rewrite updateAnalytics_loop_rebuild. reflexivity.
Qed.

Lemma rebuild_spec (store : list File) (all_files : list nat) :
  forall hr hb : MaxHeap FileMetric,
    (forall p, p ∈ all_files -> (p < length store)%nat) ->
    heap_ok (heap hr) -> heap_ok (heap hb) ->
    Z.of_nat (length (heap hr) + length all_files) < 2 ^ 30 ->
    Z.of_nat (length (heap hb) + length all_files) < 2 ^ 30 ->
    exists hr' hb',
      rebuild store all_files hr hb = Some (hr', hb') /\
      heap_ok (heap hr') /\ heap_ok (heap hb') /\
      heap hr' ≡ₚ map recent_metric (pointed store all_files) ++ heap hr /\
      heap hb' ≡ₚ map biggest_metric (pointed store all_files) ++ heap hb.
Proof.
  induction all_files as [ | p rest IH]; intros hr hb Hptr Hokr Hokb Hnr Hnb.
  - exists hr, hb. simpl. auto.
  - destruct (lookup_lt_is_Some_2 store p) as [f Hf]; [apply Hptr; left | ].
    simpl in Hnr, Hnb.
    destruct (insert_spec hr (recent_metric f) Hokr) as (hr1 & Hr1 & Hokr1 & Hpr1); [lia | ].
    destruct (insert_spec hb (biggest_metric f) Hokb) as (hb1 & Hb1 & Hokb1 & Hpb1); [lia | ].
    assert (Hlr : length (heap hr1) = S (length (heap hr)))
      by (rewrite Hpr1; reflexivity).
    assert (Hlb : length (heap hb1) = S (length (heap hb)))
      by (rewrite Hpb1; reflexivity).
    destruct (IH hr1 hb1) as (hr' & hb' & Hrun & Hokr' & Hokb' & Hpr & Hpb).
    + intros q Hq. apply Hptr. right. exact Hq.
    + exact Hokr1.
    + exact Hokb1.
    + lia.
    + lia.
    + exists hr', hb'. cbn [rebuild pointed]. rewrite Hf. cbn [mbind option_bind].
      rewrite Hr1. cbn [mbind option_bind]. rewrite Hb1. cbn [mbind option_bind].
      split; [exact Hrun | ]. split; [exact Hokr' | ]. split; [exact Hokb' | ].
      split.
      * rewrite Hpr, Hpr1. simpl. symmetry. apply Permutation_middle.
      * rewrite Hpb, Hpb1. simpl. symmetry. apply Permutation_middle.
Qed.

(** The rebuild reads only the name, the modification time and the version
    count of the files. *)
Lemma rebuild_ext (store store' : list File) (all_files : list nat) :
  (forall p, p ∈ all_files ->
     match store !! p, store' !! p with
     | Some f, Some f' => recent_metric f = recent_metric f' /\
                          biggest_metric f = biggest_metric f'
     | None, None => True
     | _, _ => False
     end) ->
  forall hr hb, rebuild store all_files hr hb = rebuild store' all_files hr hb.
Proof.
  induction all_files as [ | p rest IH]; intros Hsame hr hb; [reflexivity | ].
  cbn [rebuild]. pose proof (Hsame p ltac:(left)) as Hp.
  destruct (store !! p) as [f | ], (store' !! p) as [f' | ]; try contradiction;
    [ | reflexivity].
  destruct Hp as [Er Eb]. cbn [mbind option_bind]. rewrite Er, Eb.
  destruct (MaxHeap.insert hr (recent_metric f')); [ | reflexivity].
  cbn [mbind option_bind].
  destruct (MaxHeap.insert hb (biggest_metric f')); [ | reflexivity].
  cbn [mbind option_bind]. apply IH. intros q Hq. apply Hsame. right. exact Hq.
Qed.

(** ** FileSystem: the ranking queries *)

Lemma recentFiles_loop_drain (fuel : nat) :
  forall (limit count : Z) (tempHeap : MaxHeap FileMetric) (result : string)
         (fs : FileSystem) (w : World),
    FileSystem.recentFiles_loop fuel limit count tempHeap result fs w =
      match drain fuel limit count tempHeap with
      | Some ranked => Some (result +:+ recent_lines w ranked, fs, w)
      | None => None
      end.
Proof.
  induction fuel as [ | fuel IH]; intros limit count tempHeap result fs w; [reflexivity | ].
  cbn [FileSystem.recentFiles_loop drain].
  destruct ((count <? limit) && negb (MaxHeap.isEmpty tempHeap)).
  - unfold bind at 1. unfold lift at 1.
    destruct (MaxHeap.extractMax tempHeap) as [[metric h'] | ]; [ | reflexivity].
    cbn [mbind option_bind fst snd]. unfold bind at 1. unfold strftime at 1.
    rewrite IH. destruct (drain fuel limit (wrap32 (count + 1)) h') as [rest | ];
      [ | reflexivity].
    cbn [mbind option_bind recent_lines]. rewrite string_app_assoc. reflexivity.
  - unfold ret. cbn [recent_lines]. rewrite string_app_nil_r. reflexivity.
Qed.

Lemma biggestTrees_loop_drain (fuel : nat) :
  forall (limit count : Z) (tempHeap : MaxHeap FileMetric) (result : string)
         (fs : FileSystem) (w : World),
    FileSystem.biggestTrees_loop fuel limit count tempHeap result fs w =
      match drain fuel limit count tempHeap with
      | Some ranked => Some (result +:+ biggest_lines ranked, fs, w)
      | None => None
      end.
Proof.
  induction fuel as [ | fuel IH]; intros limit count tempHeap result fs w; [reflexivity | ].
  cbn [FileSystem.biggestTrees_loop drain].
  destruct ((count <? limit) && negb (MaxHeap.isEmpty tempHeap)).
  - unfold bind at 1. unfold lift at 1.
    destruct (MaxHeap.extractMax tempHeap) as [[metric h'] | ]; [ | reflexivity].
    cbn [mbind option_bind fst snd].
    rewrite IH. destruct (drain fuel limit (wrap32 (count + 1)) h') as [rest | ];
      [ | reflexivity].
    cbn [mbind option_bind biggest_lines]. rewrite string_app_assoc. reflexivity.
  - unfold ret. cbn [biggest_lines]. rewrite string_app_nil_r. reflexivity.
Qed.

Lemma drain_spec (fuel : nat) :
  forall (limit count : Z) (h : MaxHeap FileMetric),
    heap_ok (heap h) -> small (heap h) -> (length (heap h) < fuel)%nat ->
    INT_MIN <= count <= INT_MAX -> limit <= INT_MAX ->
    exists ranked rest,
      drain fuel limit count h = Some ranked /\
      heap h ≡ₚ ranked ++ rest /\
      descending ranked /\
      (forall x y, x ∈ ranked -> y ∈ rest -> value y <= value x) /\
      Z.of_nat (length ranked)
      = Z.min (Z.max 0 (limit - count)) (Z.of_nat (length (heap h))).
Proof.
  induction fuel as [ | fuel IH]; intros limit count h Hok Hsmall Hfuel Hcount Hlimit; [lia | ].
  cbn [drain].
  destruct ((count <? limit) && negb (MaxHeap.isEmpty h)) eqn:Hcond.
  - apply andb_true_iff in Hcond. destruct Hcond as [Hlt Hne].
    apply Z.ltb_lt in Hlt.
    assert (Hne' : heap h <> []).
    { unfold MaxHeap.isEmpty in Hne. destruct (heap h); [discriminate | congruence]. }
    destruct (extractMax_spec h Hok Hsmall Hne') as (x & h' & -> & Hok' & Hperm & Hmax).
    cbn [mbind option_bind fst snd].
    assert (Hlen : length (heap h) = S (length (heap h')))
      by (rewrite Hperm; reflexivity).
    rewrite wrap32_id by (unfold INT_MIN, INT_MAX in *; lia).
    destruct (IH limit (count + 1) h') as (ranked & rest & -> & Hp & Hd & Hcross & Hn).
    + exact Hok'.
    + unfold small in *. lia.
    + lia.
    + unfold INT_MIN, INT_MAX in *. lia.
    + exact Hlimit.
    + cbn [mbind option_bind]. exists (x :: ranked), rest.
      split; [reflexivity | ].
      assert (Hin : forall y, y ∈ ranked ++ rest -> value y <= value x).
      { intros y Hy. apply Hmax. rewrite Hperm, Hp. right. exact Hy. }
      split; [rewrite Hperm, Hp; reflexivity | ]. split; [ | split].
      * constructor; [exact Hd | ].
        apply list.Forall_forall. intros y Hy. apply Hin.
        apply elem_of_app. left. exact Hy.
      * intros a y Ha Hy. apply elem_of_cons in Ha. destruct Ha as [-> | Ha].
        -- apply Hin. apply elem_of_app. right. exact Hy.
        -- apply (Hcross a y Ha Hy).
      * simpl length. lia.
  - exists [], (heap h). split; [reflexivity | ]. split; [reflexivity | ].
    split; [constructor | ]. split.
    + intros x y Hx. apply elem_of_nil in Hx. contradiction.
    + apply andb_false_iff in Hcond. destruct Hcond as [Hge | He].
      * apply Z.ltb_ge in Hge. simpl. lia.
      * apply negb_false_iff in He. unfold MaxHeap.isEmpty in He.
        destruct (heap h); [simpl; lia | discriminate].
Qed.

Lemma limit_of_run (num : Z) (fs : FileSystem) (w : World) :
  FileSystem.limit_of num fs w = Some (limit_value fs num, fs, w).
Proof.
  unfold FileSystem.limit_of, limit_value. destruct (num =? -1); reflexivity.
Qed.

Lemma recentFiles_run (num : Z) (fs : FileSystem) (w : World) :
  FileSystem.recentFiles num fs w =
    match drain (S (length (heap (recent_files_heap fs)))) (limit_value fs num) 0
                (recent_files_heap fs) with
    | Some ranked =>
        Some (FileSystem.recentFiles_header num +:+ recent_lines w ranked, fs, w)
    | None => None
    end.
Proof.
  unfold FileSystem.recentFiles. unfold bind at 1. rewrite limit_of_run.
  unfold bind at 1. unfold gets at 1. rewrite recentFiles_loop_drain. reflexivity.
Qed.

Lemma biggestTrees_run (num : Z) (fs : FileSystem) (w : World) :
  FileSystem.biggestTrees num fs w =
    match drain (S (length (heap (biggest_trees_heap fs)))) (limit_value fs num) 0
                (biggest_trees_heap fs) with
    | Some ranked =>
        Some (FileSystem.biggestTrees_header num +:+ biggest_lines ranked, fs, w)
    | None => None
    end.
Proof.
  unfold FileSystem.biggestTrees. unfold bind at 1. rewrite limit_of_run.
  unfold bind at 1. unfold gets at 1. rewrite biggestTrees_loop_drain. reflexivity.
Qed.

(** ** FileSystem: the representation invariant *)

Lemma fs_struct_ptr (store : list File) (m : HashMap string nat) (p : nat) :
  fs_struct store m -> p ∈ HashMap.getValues m -> (p < length store)%nat.
Proof.
  intros Hst Hp. rewrite getValues_entries in Hp.
  apply list_elem_of_fmap in Hp. destruct Hp as ([name q] & -> & Hin). simpl.
  apply (get_entries m name q (fs_shape _ _ Hst) (fs_buckets _ _ Hst)) in Hin.
  destruct (fs_files _ _ Hst _ _ Hin) as (f & Hf & _).
  eapply lookup_lt_Some. exact Hf.
Qed.



Lemma pointed_length (store : list File) (ps : list nat) :
  (forall p, p ∈ ps -> (p < length store)%nat) ->
  length (pointed store ps) = length ps.
Proof.
  induction ps as [ | p ps IH]; intros Hps; [reflexivity | ].
  simpl. destruct (lookup_lt_is_Some_2 store p) as [f ->]; [apply Hps; left | ].
  simpl. f_equal. apply IH. intros q Hq. apply Hps. right. exact Hq.
Qed.

(** What a rebuild over a well-formed structure gives. *)
Lemma rebuild_struct (store : list File) (m : HashMap string nat) :
  fs_struct store m ->
  exists hr hb,
    rebuild store (HashMap.getValues m) (mkMaxHeap []) (mkMaxHeap []) = Some (hr, hb) /\
    heap_ok (heap hr) /\ heap_ok (heap hb) /\
    heap hr ≡ₚ map recent_metric (pointed store (HashMap.getValues m)) /\
    heap hb ≡ₚ map biggest_metric (pointed store (HashMap.getValues m)).
Proof.
  intros Hst.
  assert (Hnil : heap_ok []).
  { intros i x y _ Hx. rewrite lookup_nil in Hx. discriminate. }
  destruct (rebuild_spec store (HashMap.getValues m) (mkMaxHeap []) (mkMaxHeap []))
    as (hr & hb & Hrun & Hokr & Hokb & Hpr & Hpb).
  - intros p Hp. apply (fs_struct_ptr store m p Hst Hp).
  - exact Hnil.
  - exact Hnil.
  - simpl. apply (fs_count _ _ Hst).
  - simpl. apply (fs_count _ _ Hst).
  - exists hr, hb. simpl in Hpr, Hpb. rewrite app_nil_r in Hpr, Hpb. auto.
Qed.

Lemma fs_heaps (fs : FileSystem) :
  fs_wf fs ->
  heap_ok (heap (recent_files_heap fs)) /\
  heap_ok (heap (biggest_trees_heap fs)) /\
  heap (recent_files_heap fs) ≡ₚ map recent_metric (all_files fs) /\
  heap (biggest_trees_heap fs) ≡ₚ map biggest_metric (all_files fs) /\
  length (all_files fs) = length (HashMap.getValues (files fs)).
Proof.
  intros [Hst Hfresh].
  destruct (rebuild_struct _ _ Hst) as (hr & hb & Hrun & Hokr & Hokb & Hpr & Hpb).
  rewrite Hfresh in Hrun. injection Hrun as <- <-.
  repeat (split; [assumption | ]).
  apply pointed_length. intros p Hp. apply (fs_struct_ptr _ _ p Hst Hp).
Qed.

(** What one ranking query returns, given the heap it copies. *)
Lemma ranking_drain (fs : FileSystem) (num : Z) (h : MaxHeap FileMetric)
    (metrics : list FileMetric) :
  INT_MIN <= num <= INT_MAX ->
  Z.of_nat (length (HashMap.getValues (files fs))) < 2 ^ 30 ->
  heap_ok (heap h) -> heap h ≡ₚ metrics ->
  length metrics = length (HashMap.getValues (files fs)) ->
  exists ranked rest,
    drain (S (length (heap h))) (limit_value fs num) 0 h = Some ranked /\
    metrics ≡ₚ ranked ++ rest /\
    descending ranked /\
    (forall x y, x ∈ ranked -> y ∈ rest -> value y <= value x) /\
    (num = -1 \/ Z.of_nat (length metrics) <= num -> rest = []).
Proof.
  intros Hint Hcount Hok Hperm Hlen.
  assert (Hhl : length (heap h) = length metrics) by (rewrite Hperm; reflexivity).
  assert (Hlim : limit_value fs num =
                 if num =? -1 then Z.of_nat (length metrics) else num).
  { unfold limit_value. destruct (num =? -1).
    - rewrite Hlen. apply wrap32_id. unfold INT_MIN, INT_MAX. lia.
    - apply wrap32_to_size_t. exact Hint. }
  destruct (drain_spec (S (length (heap h))) (limit_value fs num) 0 h)
    as (ranked & rest & Hrun & Hp & Hd & Hcross & Hn).
  - exact Hok.
  - unfold small. lia.
  - lia.
  - unfold INT_MIN, INT_MAX. lia.
  - rewrite Hlim. destruct (num =? -1); unfold INT_MAX in *; lia.
  - exists ranked, rest. split; [exact Hrun | ]. split; [rewrite <- Hperm; exact Hp | ].
    split; [exact Hd | ]. split; [exact Hcross | ].
    intros Hall.
    assert (Hfull : length ranked = length (heap h)).
    { rewrite Hlim in Hn. destruct (num =? -1) eqn:E.
      - lia.
      - apply Z.eqb_neq in E. destruct Hall as [-> | Hall]; [congruence | lia]. }
    assert (Hrest : length rest = 0%nat).
    { pose proof (Permutation_length Hp) as Hl.
      rewrite length_app in Hl. lia. }
    destruct rest; [reflexivity | discriminate].
Qed.

(** ** FileSystem: the methods keep the repository well formed *)

Lemma new_fs_struct : fs_struct [] (HashMap.new (K:=string) (V:=nat) 256).
Proof.
  constructor.
  - apply new_shape. unfold INT_MAX. lia.
  - apply new_buckets_ok.
  - intros name p. rewrite get_new. discriminate.
  - rewrite getValues_entries, entries_new. simpl. lia.
Qed.

Lemma new_fs_wf : fs_wf FileSystem.new.
Proof.
  constructor; [exact new_fs_struct | ].
  unfold FileSystem.new. simpl files.
  rewrite getValues_entries, entries_new. reflexivity.
Qed.

(** Rebuilding the heaps of a well-formed structure gives a well-formed
    repository. *)
Lemma refresh_wf (store : list File) (m : HashMap string nat) :
  fs_struct store m ->
  exists hr hb,
    (forall h1 h2 w,
       FileSystem.updateAnalytics (mkFileSystem store m h1 h2) w
       = Some (tt, mkFileSystem store m hr hb, w)) /\
    fs_wf (mkFileSystem store m hr hb).
Proof.
  intros Hst.
  destruct (rebuild_struct store m Hst) as (hr & hb & Hrun & _).
  exists hr, hb. split.
  - intros h1 h2 w. rewrite updateAnalytics_run. simpl. rewrite Hrun. reflexivity.
  - constructor; [exact Hst | exact Hrun].
Qed.

Lemma fs_struct_update (store : list File) (m : HashMap string nat)
    (p : nat) (f f' : File) :
  fs_struct store m -> store !! p = Some f ->
  filename f' = filename f -> file_wf f' ->
  fs_struct (<[p := f']> store) m.
Proof.
  intros Hst Hf Hname Hwf. constructor.
  - apply (fs_shape _ _ Hst).
  - apply (fs_buckets _ _ Hst).
  - intros name q Hq. destruct (fs_files _ _ Hst _ _ Hq) as (g & Hg & Hgn & Hgwf).
    destruct (decide (q = p)) as [-> | Hne].
    + exists f'. rewrite list_lookup_insert_eq by (eapply lookup_lt_Some; eassumption).
      split; [reflexivity | ]. split; [congruence | exact Hwf].
    + exists g. rewrite list_lookup_insert_ne by congruence. auto.
  - apply (fs_count _ _ Hst).
Qed.

Lemma fs_struct_create (store : list File) (m : HashMap string nat)
    (name : string) (w : World) :
  fs_struct store m -> HashMap.get m name = None ->
  Z.of_nat (length (HashMap.getValues m)) + 1 < 2 ^ 30 ->
  fs_struct (store ++ [new_file name w]) (HashMap.put m name (length store)).
Proof.
  intros Hst Hfresh Hroom. constructor.
  - apply put_shape, (fs_shape _ _ Hst).
  - apply put_fresh_buckets_ok;
      [apply (fs_shape _ _ Hst) | apply (fs_buckets _ _ Hst) | exact Hfresh].
  - intros name' p. rewrite get_put by apply (fs_shape _ _ Hst).
    destruct (decide (name = name')) as [<- | Hne].
    + intros [= <-]. exists (new_file name w).
      rewrite lookup_app_r by lia. rewrite Nat.sub_diag.
      split; [reflexivity | ]. split; [reflexivity | apply new_file_wf].
    + intros Hp. destruct (fs_files _ _ Hst _ _ Hp) as (f & Hf & Hname & Hwf).
      exists f. rewrite lookup_app_l by (eapply lookup_lt_Some; eassumption). auto.
  - rewrite getValues_entries.
    rewrite (entries_put_fresh m name (length store) (fs_shape _ _ Hst) Hfresh).
    simpl. rewrite <- getValues_entries. lia.
Qed.

Lemma create_taken (name : string) (fs : FileSystem) (w : World) :
  HashMap.containsKey (files fs) name = true ->
  FileSystem.create name fs w = Some (tt, fs, say (exists_text name) w).
Proof.
  intros Htaken. unfold FileSystem.create.
  unfold bind at 1. unfold gets at 1. rewrite Htaken. reflexivity.
Qed.

Lemma create_fresh (name : string) (fs : FileSystem) (w : World) :
  fs_wf fs ->
  HashMap.containsKey (files fs) name = false ->
  Z.of_nat (length (HashMap.getValues (files fs))) + 1 < 2 ^ 30 ->
  exists hr hb,
    FileSystem.create name fs w =
      Some (tt,
            mkFileSystem (file_store fs ++ [new_file name w])
                         (HashMap.put (files fs) name (length (file_store fs)))
                         hr hb,
            say (created_text name) (tick (tick w))) /\
    fs_wf (mkFileSystem (file_store fs ++ [new_file name w])
                        (HashMap.put (files fs) name (length (file_store fs)))
                        hr hb).
Proof.
  intros Hwf Hfree Hroom.
  apply containsKey_false in Hfree.
  pose proof (fs_struct_create _ _ name w (fs_wf_struct fs Hwf) Hfree Hroom) as Hst.
  destruct (refresh_wf _ _ Hst) as (hr & hb & Hrun & Hwf').
  exists hr, hb. split; [ | exact Hwf'].
  unfold FileSystem.create.
  unfold bind at 1. unfold gets at 1.
  apply containsKey_false in Hfree. rewrite Hfree.
  unfold bind at 1. rewrite new_run.
  unfold bind at 1. unfold gets at 1.
  unfold bind at 1. unfold modify at 1.
  unfold bind at 1. unfold modify at 1.
  unfold bind at 1.
  unfold FileSystem.set_files, FileSystem.set_file_store. simpl.
  rewrite Hrun. reflexivity.
Qed.

(** What insert, update and snapshot leave alone in a file: its name. *)
Lemma insert_filename (text : string) (f f' : File) (w w' : World) :
  file_wf f -> File.insert text f w = Some (tt, f', w') -> filename f' = filename f.
Proof.
  intros Hwf. destruct (wf_active_node f Hwf) as [n Hn].
  destruct (isSnapshot n) eqn:Hs.
  - rewrite (insert_snapshot _ _ _ n Hn Hs). intros [= <- _]. reflexivity.
  - rewrite (insert_mutable _ _ _ n Hn Hs). intros [= <- _]. reflexivity.
Qed.

Lemma update_filename (text : string) (f f' : File) (w w' : World) :
  file_wf f -> File.update text f w = Some (tt, f', w') -> filename f' = filename f.
Proof.
  intros Hwf. destruct (wf_active_node f Hwf) as [n Hn].
  destruct (isSnapshot n) eqn:Hs.
  - rewrite (update_snapshot _ _ _ n Hn Hs). intros [= <- _]. reflexivity.
  - rewrite (update_mutable _ _ _ n Hn Hs). intros [= <- _]. reflexivity.
Qed.

Lemma snapshot_filename (msg : string) (f f' : File) (w w' : World) :
  file_wf f -> File.snapshot msg f w = Some (tt, f', w') -> filename f' = filename f.
Proof.
  intros Hwf. destruct (wf_active_node f Hwf) as [n Hn].
  destruct (isSnapshot n) eqn:Hs.
  - rewrite (snapshot_snapshot _ _ _ n Hn Hs). intros [= <- _]. reflexivity.
  - rewrite (snapshot_mutable _ _ _ n Hn Hs). intros [= <- _]. reflexivity.
Qed.

Lemma insert_total (text : string) (f : File) (w : World) :
  file_wf f -> exists f' w', File.insert text f w = Some (tt, f', w').
Proof.
  intros Hwf. destruct (wf_active_node f Hwf) as [n Hn].
  destruct (isSnapshot n) eqn:Hs.
  - rewrite (insert_snapshot _ _ _ n Hn Hs). eauto.
  - rewrite (insert_mutable _ _ _ n Hn Hs). eauto.
Qed.

Lemma update_total (text : string) (f : File) (w : World) :
  file_wf f -> exists f' w', File.update text f w = Some (tt, f', w').
Proof.
  intros Hwf. destruct (wf_active_node f Hwf) as [n Hn].
  destruct (isSnapshot n) eqn:Hs.
  - rewrite (update_snapshot _ _ _ n Hn Hs). eauto.
  - rewrite (update_mutable _ _ _ n Hn Hs). eauto.
Qed.

Lemma snapshot_total (msg : string) (f : File) (w : World) :
  file_wf f -> exists f' w', File.snapshot msg f w = Some (tt, f', w').
Proof.
  intros Hwf. destruct (wf_active_node f Hwf) as [n Hn].
  destruct (isSnapshot n) eqn:Hs.
  - rewrite (snapshot_snapshot _ _ _ n Hn Hs). eauto.
  - rewrite (snapshot_mutable _ _ _ n Hn Hs). eauto.
Qed.

(** A method of one file followed by [updateAnalytics]. *)
Lemma call_refresh (m : M File unit) (p : nat) (f f' : File) (w w1 : World)
    (fs : FileSystem) :
  fs_wf fs -> file_store fs !! p = Some f ->
  m f w = Some (tt, f', w1) ->
  filename f' = filename f -> file_wf f' ->
  exists hr hb,
    fs_wf (mkFileSystem (<[p := f']> (file_store fs)) (files fs) hr hb) /\
    forall A (k : M FileSystem A),
      (FileSystem.call p m ;; FileSystem.updateAnalytics ;; k)%cpp fs w
      = k (mkFileSystem (<[p := f']> (file_store fs)) (files fs) hr hb) w1.
Proof.
  intros Hwf Hf Hm Hname Hwf'.
  pose proof (fs_struct_update _ _ p f f' (fs_wf_struct fs Hwf) Hf Hname Hwf') as Hst.
  destruct (refresh_wf _ _ Hst) as (hr & hb & Hrun & Hwf2).
  exists hr, hb. split; [exact Hwf2 | ].
  intros A k. unfold bind at 1. unfold FileSystem.call at 1. rewrite Hf, Hm.
  unfold bind at 1. unfold FileSystem.set_file_store. rewrite Hrun. reflexivity.
Qed.

Ltac enter_file Hget :=
  unfold bind at 1; unfold gets at 1;
  rewrite (proj2 (containsKey_get _ _) (ex_intro _ _ Hget)); cbn [negb];
  unfold bind at 1; unfold FileSystem.files_get at 1;
  unfold bind at 1; unfold gets at 1; unfold lift at 1; rewrite Hget.

Lemma fs_insert_spec (name text : string) (fs : FileSystem) (w : World)
    (p : nat) (f : File) :
  fs_wf fs ->
  HashMap.get (files fs) name = Some p -> file_store fs !! p = Some f ->
  total_versions f < INT_MAX ->
  exists f' w1 hr hb,
    File.insert text f w = Some (tt, f', w1) /\
    FileSystem.insert name text fs w =
      Some (tt, mkFileSystem (<[p := f']> (file_store fs)) (files fs) hr hb,
            say ("Content inserted into '" +:+ name +:+ "'." +:+ NL) w1) /\
    fs_wf (mkFileSystem (<[p := f']> (file_store fs)) (files fs) hr hb).
Proof.
  intros Hwf Hget Hf Hmax.
  destruct (fs_files _ _ (fs_wf_struct fs Hwf) _ _ Hget) as (g & Hg & _ & Hfwf).
  rewrite Hf in Hg. injection Hg as <-.
  destruct (insert_total text f w Hfwf) as (f' & w1 & Hrun).
  destruct (call_refresh (File.insert text) p f f' w w1 fs Hwf Hf Hrun
              (insert_filename _ _ _ _ _ Hfwf Hrun) (insert_wf _ _ _ _ _ Hfwf Hmax Hrun))
    as (hr & hb & Hwf' & Hk).
  exists f', w1, hr, hb. split; [exact Hrun | ]. split; [ | exact Hwf'].
  unfold FileSystem.insert. enter_file Hget. rewrite Hk. reflexivity.
Qed.

Lemma fs_update_spec (name text : string) (fs : FileSystem) (w : World)
    (p : nat) (f : File) :
  fs_wf fs ->
  HashMap.get (files fs) name = Some p -> file_store fs !! p = Some f ->
  total_versions f < INT_MAX ->
  exists f' w1 hr hb,
    File.update text f w = Some (tt, f', w1) /\
    FileSystem.update name text fs w =
      Some (tt, mkFileSystem (<[p := f']> (file_store fs)) (files fs) hr hb,
            say ("Content updated in '" +:+ name +:+ "'." +:+ NL) w1) /\
    fs_wf (mkFileSystem (<[p := f']> (file_store fs)) (files fs) hr hb).
Proof.
  intros Hwf Hget Hf Hmax.
  destruct (fs_files _ _ (fs_wf_struct fs Hwf) _ _ Hget) as (g & Hg & _ & Hfwf).
  rewrite Hf in Hg. injection Hg as <-.
  destruct (update_total text f w Hfwf) as (f' & w1 & Hrun).
  destruct (call_refresh (File.update text) p f f' w w1 fs Hwf Hf Hrun
              (update_filename _ _ _ _ _ Hfwf Hrun) (update_wf _ _ _ _ _ Hfwf Hmax Hrun))
    as (hr & hb & Hwf' & Hk).
  exists f', w1, hr, hb. split; [exact Hrun | ]. split; [ | exact Hwf'].
  unfold FileSystem.update. enter_file Hget. rewrite Hk. reflexivity.
Qed.

Lemma fs_snapshot_spec (name msg : string) (fs : FileSystem) (w : World)
    (p : nat) (f : File) :
  fs_wf fs ->
  HashMap.get (files fs) name = Some p -> file_store fs !! p = Some f ->
  exists f' w1 hr hb,
    File.snapshot msg f w = Some (tt, f', w1) /\
    FileSystem.snapshot name msg fs w =
      Some (tt, mkFileSystem (<[p := f']> (file_store fs)) (files fs) hr hb, w1) /\
    fs_wf (mkFileSystem (<[p := f']> (file_store fs)) (files fs) hr hb).
Proof.
  intros Hwf Hget Hf.
  destruct (fs_files _ _ (fs_wf_struct fs Hwf) _ _ Hget) as (g & Hg & _ & Hfwf).
  rewrite Hf in Hg. injection Hg as <-.
  destruct (snapshot_total msg f w Hfwf) as (f' & w1 & Hrun).
  destruct (call_refresh (File.snapshot msg) p f f' w w1 fs Hwf Hf Hrun
              (snapshot_filename _ _ _ _ _ Hfwf Hrun) (snapshot_wf _ _ _ _ _ Hfwf Hrun))
    as (hr & hb & Hwf' & Hk).
  exists f', w1, hr, hb. split; [exact Hrun | ]. split; [ | exact Hwf'].
  unfold FileSystem.snapshot. enter_file Hget.
  pose proof (Hk unit (ret tt)) as Hk'.
  unfold bind at 1 in Hk'. unfold bind at 1.
  destruct (FileSystem.call p (File.snapshot msg) fs w) as [[[[] fs1] w2] | ];
    [ | discriminate].
  unfold bind at 1 in Hk'.
  destruct (FileSystem.updateAnalytics fs1 w2) as [[[[] fs2] w3] | ]; [ | discriminate].
  exact Hk'.
Qed.

(** A refused snapshot leaves the whole repository as it is: the heaps
    that [updateAnalytics] rebuilds are the ones it had. *)
Lemma fs_snapshot_refused (name msg : string) (fs : FileSystem) (w : World)
    (p : nat) (f : File) (n : VersionNode) :
  fs_wf fs ->
  HashMap.get (files fs) name = Some p -> file_store fs !! p = Some f ->
  nodes f !! active_version f = Some n -> isSnapshot n = true ->
  FileSystem.snapshot name msg fs w = Some (tt, fs, say already_snapshotted_text w).
Proof.
  intros Hwf Hget Hf Hn Hs.
  destruct (fs_snapshot_spec name msg fs w p f Hwf Hget Hf)
    as (f' & w1 & hr & hb & Hrun & -> & Hwf').
  rewrite (snapshot_snapshot _ _ _ n Hn Hs) in Hrun. injection Hrun as <- <-.
  pose proof (fs_fresh _ Hwf') as Hfresh. simpl in Hfresh.
  rewrite list_insert_id in Hfresh |- * by exact Hf.
  rewrite (fs_fresh fs Hwf) in Hfresh. injection Hfresh as <- <-.
  destruct fs; reflexivity.
Qed.

Lemma fs_rollback_spec (name : string) (versionId : Z) (fs : FileSystem) (w : World)
    (p : nat) (f : File) :
  fs_wf fs ->
  HashMap.get (files fs) name = Some p -> file_store fs !! p = Some f ->
  exists ok q w1,
    File.rollback versionId f w = Some (ok, File.set_active_version q f, w1) /\
    FileSystem.rollback name versionId fs w =
      Some (tt, FileSystem.set_file_store
                  (<[p := File.set_active_version q f]> (file_store fs)) fs,
            say (if ok then "Rollback successful for '" +:+ name +:+ "'." +:+ NL
                 else "Error: Rollback failed. Invalid version or already at root." +:+ NL)
                w1) /\
    fs_wf (FileSystem.set_file_store
             (<[p := File.set_active_version q f]> (file_store fs)) fs).
Proof.
  intros Hwf Hget Hf.
  destruct (fs_files _ _ (fs_wf_struct fs Hwf) _ _ Hget) as (g & Hg & _ & Hfwf).
  rewrite Hf in Hg. injection Hg as <-.
  destruct (rollback_total versionId f w Hfwf) as (ok & q & w1 & Hrun & Hq & _).
  exists ok, q, w1. split; [exact Hrun | ]. split.
  - unfold FileSystem.rollback. enter_file Hget.
    unfold bind at 1. unfold FileSystem.call at 1. rewrite Hf, Hrun.
    destruct ok; reflexivity.
  - constructor.
    + apply (fs_struct_update _ _ p f); [apply (fs_wf_struct fs Hwf) | exact Hf | reflexivity | ].
      apply set_active_version_wf; assumption.
    + simpl. rewrite <- (fs_fresh fs Hwf). symmetry. apply rebuild_ext.
      intros r Hr. destruct (decide (r = p)) as [-> | Hne].
      * rewrite list_lookup_insert_eq by (eapply lookup_lt_Some; eassumption).
        rewrite Hf. split; reflexivity.
      * rewrite list_lookup_insert_ne by congruence.
        destruct (file_store fs !! r); [split; reflexivity | exact I].
Qed.

Lemma unknown_file (name : string) (fs : FileSystem) (w : World) :
  HashMap.containsKey (files fs) name = false ->
  (forall text, FileSystem.insert name text fs w = Some (tt, fs, say not_found_text w)) /\
  (forall text, FileSystem.update name text fs w = Some (tt, fs, say not_found_text w)) /\
  (forall msg, FileSystem.snapshot name msg fs w = Some (tt, fs, say not_found_text w)) /\
  (forall id, FileSystem.rollback name id fs w = Some (tt, fs, say not_found_text w)) /\
  FileSystem.read name fs w = Some ("Error: File not found."%string, fs, w) /\
  FileSystem.history name fs w = Some (not_found_text, fs, w).
Proof.
  intros Hc.
  unfold FileSystem.insert, FileSystem.update, FileSystem.snapshot,
         FileSystem.rollback, FileSystem.read, FileSystem.history.
  unfold bind, gets. rewrite Hc. repeat split.
Qed.

Lemma create_preserves (name : string) (fs fs' : FileSystem) (w w' : World) :
  fs_wf fs ->
  Z.of_nat (length (HashMap.getValues (files fs))) + 1 < 2 ^ 30 ->
  FileSystem.create name fs w = Some (tt, fs', w') -> fs_wf fs'.
Proof.
  intros Hwf Hroom.
  destruct (HashMap.containsKey (files fs) name) eqn:Hc.
  - rewrite (create_taken name fs w Hc). intros [= <- _]. exact Hwf.
  - destruct (create_fresh name fs w Hwf Hc Hroom) as (hr & hb & -> & Hwf').
    intros [= <- _]. exact Hwf'.
Qed.

Lemma known_file (name : string) (fs : FileSystem) :
  fs_wf fs -> HashMap.containsKey (files fs) name = true ->
  exists p f, HashMap.get (files fs) name = Some p /\ file_store fs !! p = Some f.
Proof.
  intros Hwf Hc. apply containsKey_get in Hc. destruct Hc as [p Hp].
  destruct (fs_files _ _ (fs_wf_struct fs Hwf) _ _ Hp) as (f & Hf & _). eauto.
Qed.

Lemma insert_preserves (name text : string) (fs fs' : FileSystem) (w w' : World) :
  fs_wf fs -> versions_left fs ->
  FileSystem.insert name text fs w = Some (tt, fs', w') -> fs_wf fs'.
Proof.
  intros Hwf Hleft.
  destruct (HashMap.containsKey (files fs) name) eqn:Hc.
  - destruct (known_file name fs Hwf Hc) as (p & f & Hp & Hf).
    destruct (fs_insert_spec name text fs w p f Hwf Hp Hf)
      as (f' & w1 & hr & hb & _ & -> & Hwf').
    { apply (Forall_lookup_1 _ _ _ _ Hleft Hf). }
    intros [= <- _]. exact Hwf'.
  - destruct (unknown_file name fs w Hc) as (-> & _). intros [= <- _]. exact Hwf.
Qed.

Lemma update_preserves (name text : string) (fs fs' : FileSystem) (w w' : World) :
  fs_wf fs -> versions_left fs ->
  FileSystem.update name text fs w = Some (tt, fs', w') -> fs_wf fs'.
Proof.
  intros Hwf Hleft.
  destruct (HashMap.containsKey (files fs) name) eqn:Hc.
  - destruct (known_file name fs Hwf Hc) as (p & f & Hp & Hf).
    destruct (fs_update_spec name text fs w p f Hwf Hp Hf)
      as (f' & w1 & hr & hb & _ & -> & Hwf').
    { apply (Forall_lookup_1 _ _ _ _ Hleft Hf). }
    intros [= <- _]. exact Hwf'.
  - destruct (unknown_file name fs w Hc) as (_ & -> & _). intros [= <- _]. exact Hwf.
Qed.

Lemma snapshot_preserves (name msg : string) (fs fs' : FileSystem) (w w' : World) :
  fs_wf fs ->
  FileSystem.snapshot name msg fs w = Some (tt, fs', w') -> fs_wf fs'.
Proof.
  intros Hwf.
  destruct (HashMap.containsKey (files fs) name) eqn:Hc.
  - destruct (known_file name fs Hwf Hc) as (p & f & Hp & Hf).
    destruct (fs_snapshot_spec name msg fs w p f Hwf Hp Hf)
      as (f' & w1 & hr & hb & _ & -> & Hwf').
    intros [= <- _]. exact Hwf'.
  - destruct (unknown_file name fs w Hc) as (_ & _ & -> & _). intros [= <- _]. exact Hwf.
Qed.

Lemma rollback_preserves (name : string) (id : Z) (fs fs' : FileSystem) (w w' : World) :
  fs_wf fs ->
  FileSystem.rollback name id fs w = Some (tt, fs', w') -> fs_wf fs'.
Proof.
  intros Hwf.
  destruct (HashMap.containsKey (files fs) name) eqn:Hc.
  - destruct (known_file name fs Hwf Hc) as (p & f & Hp & Hf).
    destruct (fs_rollback_spec name id fs w p f Hwf Hp Hf)
      as (ok & q & w1 & _ & -> & Hwf').
    intros [= <- _]. exact Hwf'.
  - destruct (unknown_file name fs w Hc) as (_ & _ & _ & -> & _). intros [= <- _]. exact Hwf.
Qed.

(** Reading and listing the history change nothing in the repository. *)
Lemma read_history_frame (name : string) (fs : FileSystem) (w : World) :
  fs_wf fs ->
  (exists text, FileSystem.read name fs w = Some (text, fs, w)) /\
  (exists text, FileSystem.history name fs w = Some (text, fs, w)).
Proof.
  intros Hwf.
  destruct (HashMap.containsKey (files fs) name) eqn:Hc.
  - destruct (known_file name fs Hwf Hc) as (p & f & Hp & Hf).
    destruct (fs_files _ _ (fs_wf_struct fs Hwf) _ _ Hp) as (g & Hg & _ & Hfwf).
    rewrite Hf in Hg. injection Hg as <-.
    assert (Hsame : FileSystem.set_file_store (<[p := f]> (file_store fs)) fs = fs).
    { rewrite list_insert_id by exact Hf. destruct fs; reflexivity. }
    split.
    + destruct (wf_active_node f Hfwf) as [n Hn].
      exists (content n). unfold FileSystem.read. enter_file Hp.
      unfold FileSystem.call. rewrite Hf, (read_run f w n Hn), Hsame. reflexivity.
    + destruct (history_run f w Hfwf) as (chain & _ & Hrun).
      eexists. unfold FileSystem.history. enter_file Hp.
      unfold FileSystem.call. rewrite Hf, Hrun, Hsame. reflexivity.
  - destruct (unknown_file name fs w Hc) as (_ & _ & _ & _ & -> & ->). eauto.
Qed.

(** ** Every reachable repository is well formed *)

Lemma wrap32_range (x : Z) : INT_MIN <= wrap32 x <= INT_MAX.
Proof.
  unfold wrap32, INT_MIN, INT_MAX.
  pose proof (Z.mod_pos_bound (x + 2 ^ 31) (2 ^ 32) ltac:(lia)). lia.
Qed.

Lemma insert_count (text : string) (f f' : File) (w w' : World) :
  file_wf f -> total_versions f < INT_MAX ->
  File.insert text f w = Some (tt, f', w') ->
  total_versions f' <= total_versions f + 1.
Proof.
  intros Hwf Hmax Hrun.
  pose proof (insert_wf _ _ _ _ _ Hwf Hmax Hrun) as Hwf'.
  rewrite (wf_count f' Hwf'), (wf_count f Hwf).
  destruct (wf_active_node f Hwf) as [n Hn].
  destruct (isSnapshot n) eqn:Hs.
  - rewrite (insert_snapshot _ _ _ n Hn Hs) in Hrun. injection Hrun as <- _.
    change (nodes (File.set_last_modification_time _ ?g)) with (nodes g).
    rewrite branch_result_length. lia.
  - rewrite (insert_mutable _ _ _ n Hn Hs) in Hrun. injection Hrun as <- _.
    simpl. rewrite length_insert. lia.
Qed.

Lemma update_count (text : string) (f f' : File) (w w' : World) :
  file_wf f -> total_versions f < INT_MAX ->
  File.update text f w = Some (tt, f', w') ->
  total_versions f' <= total_versions f + 1.
Proof.
  intros Hwf Hmax Hrun.
  pose proof (update_wf _ _ _ _ _ Hwf Hmax Hrun) as Hwf'.
  rewrite (wf_count f' Hwf'), (wf_count f Hwf).
  destruct (wf_active_node f Hwf) as [n Hn].
  destruct (isSnapshot n) eqn:Hs.
  - rewrite (update_snapshot _ _ _ n Hn Hs) in Hrun. injection Hrun as <- _.
    change (nodes (File.set_last_modification_time _ ?g)) with (nodes g).
    rewrite branch_result_length. lia.
  - rewrite (update_mutable _ _ _ n Hn Hs) in Hrun. injection Hrun as <- _.
    simpl. rewrite length_insert. lia.
Qed.

Lemma snapshot_count (msg : string) (f f' : File) (w w' : World) :
  file_wf f -> File.snapshot msg f w = Some (tt, f', w') ->
  total_versions f' = total_versions f.
Proof.
  intros Hwf. destruct (wf_active_node f Hwf) as [n Hn].
  destruct (isSnapshot n) eqn:Hs.
  - rewrite (snapshot_snapshot _ _ _ n Hn Hs). intros [= <- _]. reflexivity.
  - rewrite (snapshot_mutable _ _ _ n Hn Hs). intros [= <- _]. reflexivity.
Qed.

Lemma room_weaken (k : nat) (fs : FileSystem) : room (S k) fs -> room k fs.
Proof.
  intros [Hn Hv]. split; [lia | ].
  eapply list.Forall_impl; [exact Hv | ]. intros f Hf. simpl in Hf. lia.
Qed.

Lemma room_store (k : nat) (fs : FileSystem) (p : nat) (f f' : File) hr hb :
  room (S k) fs -> file_store fs !! p = Some f ->
  total_versions f' <= total_versions f + 1 ->
  room k (mkFileSystem (<[p := f']> (file_store fs)) (files fs) hr hb).
Proof.
  intros [Hn Hv] Hf Hle. split; simpl; [lia | ].
  apply Forall_insert.
  - eapply list.Forall_impl; [exact Hv | ]. intros g Hg. simpl in Hg. lia.
  - pose proof (Forall_lookup_1 _ _ _ _ Hv Hf) as Hf'. simpl in Hf'. lia.
Qed.

Lemma room_versions_left (k : nat) (fs : FileSystem) : room (S k) fs -> versions_left fs.
Proof.
  intros [_ Hv]. unfold versions_left.
  eapply list.Forall_impl; [exact Hv | ]. intros f Hf. simpl in Hf. lia.
Qed.

(** A ranking query returns on every well-formed repository, for every
    [int] limit, and changes nothing. *)
Lemma ranking_total (fs : FileSystem) (w : World) (num : Z) :
  fs_wf fs -> INT_MIN <= num <= INT_MAX ->
  (exists text, FileSystem.recentFiles num fs w = Some (text, fs, w)) /\
  (exists text, FileSystem.biggestTrees num fs w = Some (text, fs, w)).
Proof.
  intros Hwf Hint.
  destruct (fs_heaps fs Hwf) as (Hokr & Hokb & Hpr & Hpb & Hlen).
  pose proof (fs_count _ _ (fs_wf_struct fs Hwf)) as Hcount.
  destruct (ranking_drain fs num (recent_files_heap fs) (map recent_metric (all_files fs))
              Hint Hcount Hokr Hpr) as (rr & _ & Hr & _);
    [rewrite length_map; exact Hlen | ].
  destruct (ranking_drain fs num (biggest_trees_heap fs) (map biggest_metric (all_files fs))
              Hint Hcount Hokb Hpb) as (rb & _ & Hb & _);
    [rewrite length_map; exact Hlen | ].
  split; eexists.
  - rewrite recentFiles_run, Hr. reflexivity.
  - rewrite biggestTrees_run, Hb. reflexivity.
Qed.

Lemma perform_step (c : api_call) (k : nat) (fs : FileSystem) (w : World) :
  fs_wf fs -> room (S k) fs ->
  exists fs' w', perform c fs w = Some (tt, fs', w') /\ fs_wf fs' /\ room k fs'.
Proof.
  intros Hwf Hroom. pose proof (room_weaken k fs Hroom) as Hweak.
  pose proof (room_versions_left k fs Hroom) as Hleft.
  assert (Hknown : forall name,
            HashMap.containsKey (files fs) name = true ->
            exists p f, HashMap.get (files fs) name = Some p /\
                        file_store fs !! p = Some f /\ file_wf f /\
                        total_versions f < INT_MAX).
  { intros name Hc. destruct (known_file name fs Hwf Hc) as (p & f & Hp & Hf).
    destruct (fs_files _ _ (fs_wf_struct fs Hwf) _ _ Hp) as (g & Hg & _ & Hfwf).
    rewrite Hf in Hg. injection Hg as <-.
    exists p, f. repeat (split; [assumption | ]).
    apply (Forall_lookup_1 _ _ _ _ Hleft Hf). }
  destruct c as [name | name | name text | name text | name msg | name id | name | num | num];
    cbn [perform].
  - (* create *)
    destruct (HashMap.containsKey (files fs) name) eqn:Hc.
    + rewrite (create_taken name fs w Hc). eauto.
    + destruct Hroom as [Hn Hv].
      destruct (create_fresh name fs w Hwf Hc) as (hr & hb & -> & Hwf'); [lia | ].
      eexists _, _. split; [reflexivity | ]. split; [exact Hwf' | ].
      split; simpl.
      * rewrite getValues_entries.
        rewrite (entries_put_fresh _ name _ (fs_shape _ _ (fs_wf_struct fs Hwf)))
          by (apply containsKey_false; exact Hc).
        simpl. rewrite <- getValues_entries. lia.
      * apply list.Forall_app. split.
        -- eapply list.Forall_impl; [exact Hv | ]. intros f Hf. simpl in Hf. lia.
        -- constructor; [ | constructor]. simpl. unfold INT_MAX. lia.
  - (* read *)
    destruct (read_history_frame name fs w Hwf) as [[text Hr] _].
    unfold bind. rewrite Hr. eauto.
  - (* insert *)
    destruct (HashMap.containsKey (files fs) name) eqn:Hc.
    + destruct (Hknown name Hc) as (p & f & Hp & Hf & Hfwf & Hmax).
      destruct (fs_insert_spec name text fs w p f Hwf Hp Hf Hmax)
        as (f' & w1 & hr & hb & Hrun & -> & Hwf').
      eexists _, _. split; [reflexivity | ]. split; [exact Hwf' | ].
      apply (room_store k fs p f f' hr hb Hroom Hf).
      apply (insert_count _ _ _ _ _ Hfwf Hmax Hrun).
    + destruct (unknown_file name fs w Hc) as (-> & _). eauto.
  - (* update *)
    destruct (HashMap.containsKey (files fs) name) eqn:Hc.
    + destruct (Hknown name Hc) as (p & f & Hp & Hf & Hfwf & Hmax).
      destruct (fs_update_spec name text fs w p f Hwf Hp Hf Hmax)
        as (f' & w1 & hr & hb & Hrun & -> & Hwf').
      eexists _, _. split; [reflexivity | ]. split; [exact Hwf' | ].
      apply (room_store k fs p f f' hr hb Hroom Hf).
      apply (update_count _ _ _ _ _ Hfwf Hmax Hrun).
    + destruct (unknown_file name fs w Hc) as (_ & -> & _). eauto.
  - (* snapshot *)
    destruct (HashMap.containsKey (files fs) name) eqn:Hc.
    + destruct (Hknown name Hc) as (p & f & Hp & Hf & Hfwf & Hmax).
      destruct (fs_snapshot_spec name msg fs w p f Hwf Hp Hf)
        as (f' & w1 & hr & hb & Hrun & -> & Hwf').
      eexists _, _. split; [reflexivity | ]. split; [exact Hwf' | ].
      apply (room_store k fs p f f' hr hb Hroom Hf).
      rewrite (snapshot_count _ _ _ _ _ Hfwf Hrun). lia.
    + destruct (unknown_file name fs w Hc) as (_ & _ & -> & _). eauto.
  - (* rollback *)
    destruct (HashMap.containsKey (files fs) name) eqn:Hc.
    + destruct (Hknown name Hc) as (p & f & Hp & Hf & Hfwf & Hmax).
      destruct (fs_rollback_spec name id fs w p f Hwf Hp Hf)
        as (ok & q & w1 & Hrun & -> & Hwf').
      eexists _, _. split; [reflexivity | ]. split; [exact Hwf' | ].
      destruct fs as [store m h1 h2].
      apply (room_store k (mkFileSystem store m h1 h2) p f _ h1 h2 Hroom Hf).
      simpl. lia.
    + destruct (unknown_file name fs w Hc) as (_ & _ & _ & -> & _). eauto.
  - (* history *)
    destruct (read_history_frame name fs w Hwf) as [_ [text Hr]].
    unfold bind. rewrite Hr. eauto.
  - (* recentFiles *)
    destruct (ranking_total fs w (wrap32 num) Hwf (wrap32_range num)) as [[text Hr] _].
    unfold bind. rewrite Hr. eauto.
  - (* biggestTrees *)
    destruct (ranking_total fs w (wrap32 num) Hwf (wrap32_range num)) as [_ [text Hr]].
    unfold bind. rewrite Hr. eauto.
Qed.

(** Every sequence of calls returns and leaves a well-formed repository,
    as long as the counters stay within [int]. *)
Lemma perform_all_wf (cs : list api_call) :
  forall (fs : FileSystem) (w : World),
    fs_wf fs -> room (length cs) fs ->
    exists fs' w', perform_all cs fs w = Some (tt, fs', w') /\ fs_wf fs'.
Proof.
  induction cs as [ | c cs IH]; intros fs w Hwf Hroom.
  - exists fs, w. split; [reflexivity | exact Hwf].
  - destruct (perform_step c (length cs) fs w Hwf Hroom) as (fs1 & w1 & Hrun & Hwf1 & Hroom1).
    destruct (IH fs1 w1 Hwf1 Hroom1) as (fs' & w' & Hrest & Hwf').
    exists fs', w'. split; [ | exact Hwf'].
    cbn [perform_all]. unfold bind at 1. rewrite Hrun. exact Hrest.
Qed.

Lemma reachable_wf (cs : list api_call) (w : World) :
  Z.of_nat (length cs) < 2 ^ 30 ->
  exists fs' w', perform_all cs FileSystem.new w = Some (tt, fs', w') /\ fs_wf fs'.
Proof.
  intros Hlen. apply perform_all_wf; [exact new_fs_wf | ].
  split.
  - unfold FileSystem.new. simpl files.
    rewrite getValues_entries, entries_new. simpl. lia.
  - constructor.
Qed.

(** ** A sample repository *)

Lemma sample_fs_wf : fs_wf sample_fs.
Proof.
  destruct (reachable_wf sample_calls sample_world) as (fs' & w' & Hrun & Hwf).
  { vm_compute. reflexivity. }
  unfold sample_fs. rewrite Hrun. exact Hwf.
Qed.

Lemma sample_file_wf : file_wf sample_file.
Proof.
  assert (Hget : HashMap.get (files sample_fs) "a"%string = Some 0%nat)
    by (vm_compute; reflexivity).
  destruct (fs_files _ _ (fs_wf_struct _ sample_fs_wf) _ _ Hget) as (f & Hf & _ & Hwf).
  unfold sample_file. rewrite Hf. exact Hwf.
Qed.

Lemma sample_active_lookup :
  nodes sample_file !! active_version sample_file = Some sample_active.
Proof. vm_compute. reflexivity. Qed.

(** A run of the program: create, insert, snapshot, insert, rollback to
    version 1, rollback to the parent. *)
Example design_scenario :
  match (FileSystem.create "a" ;;
         FileSystem.insert "a" "hi" ;;
         r1 <- FileSystem.read "a" ;;
         FileSystem.snapshot "a" "v1" ;;
         FileSystem.insert "a" " there" ;;
         r2 <- FileSystem.read "a" ;;
         FileSystem.rollback "a" 1 ;;
         r3 <- FileSystem.read "a" ;;
         FileSystem.rollback "a" (-1) ;;
         r4 <- FileSystem.read "a" ;;
         ret [r1; r2; r3; r4])%cpp FileSystem.new sample_world with
  | Some (reads, fs, _) =>
      reads = ["hi"; "hi there"; "hi"; EmptyString]%string /\
      map total_versions (file_store fs) = [3] /\
      map active_version (file_store fs) = [0%nat]
  | None => False
  end.
Proof. vm_compute. repeat split. Qed.

(** ** HashMap: a put on a key that is present *)

Section HashMapOverwrite.
Context {K V : Type} `{EqDecision K} `{CustomHash K}.
Implicit Types (hm : HashMap K V) (key : K) (entry : list (K * V)).

Lemma put_walk_keys entry key value chain :
  HashMap.put_walk entry key value = Some chain -> map fst chain = map fst entry.
Proof.
  revert chain. induction entry as [ | [k v] next IH]; intros chain; simpl; [discriminate | ].
  destruct (decide (k = key)) as [-> | Hne].
  - intros [= <-]. reflexivity.
  - destruct (HashMap.put_walk next key value) as [next' | ]; simpl; [ | discriminate].
    intros [= <-]. simpl. f_equal. apply IH. reflexivity.
Qed.

Lemma bucket_put_keys hm key value (i : nat) :
  hm_shape hm -> is_Some (HashMap.get hm key) ->
  map fst (HashMap.bucket (HashMap.put hm key value) (Z.of_nat i))
  = map fst (HashMap.bucket hm (Z.of_nat i)).
Proof.
  intros Hs [v Hv]. rewrite bucket_put by exact Hs.
  destruct (decide _) as [E | ]; [ | reflexivity].
  unfold HashMap.get in Hv.
  destruct (HashMap.put_walk _ key value) as [chain | ] eqn:Ew.
  - rewrite (put_walk_keys _ _ _ _ Ew).
    pose proof (hashFunction_range hm key Hs).
    replace (Z.of_nat i) with (HashMap.hashFunction hm key) by lia. reflexivity.
  - apply put_walk_None in Ew. congruence.
Qed.

Lemma put_present_keys hm key value :
  hm_shape hm -> is_Some (HashMap.get hm key) ->
  hm_keys (HashMap.put hm key value) = hm_keys hm.
Proof.
  intros Hs Hv. unfold hm_keys. rewrite put_capacity.
  induction (seq 0 (Z.to_nat (capacity hm))) as [ | i l IH]; [reflexivity | ].
  simpl. rewrite IH, bucket_put_keys by assumption. reflexivity.
Qed.

Lemma put_present_size hm key value :
  is_Some (HashMap.get hm key) ->
  current_size (HashMap.put hm key value) = current_size hm.
Proof.
  intros [v Hv]. unfold HashMap.put. unfold HashMap.get in Hv.
  destruct (HashMap.put_walk _ key value) as [chain | ] eqn:Ew; [reflexivity | ].
  apply put_walk_None in Ew. congruence.
Qed.

Lemma put_fresh_size hm key value :
  HashMap.get hm key = None ->
  current_size (HashMap.put hm key value) = wrap32 (current_size hm + 1).
Proof.
  intros Hv. unfold HashMap.put. unfold HashMap.get in Hv.
  rewrite (proj2 (put_walk_None _ key value) Hv). reflexivity.
Qed.

Lemma put_present_buckets_ok hm key value :
  hm_shape hm -> hm_buckets_ok hm -> is_Some (HashMap.get hm key) ->
  hm_buckets_ok (HashMap.put hm key value).
Proof.
  intros Hs Hok Hv i. destruct (Hok i) as [Hhash Hnd]. split.
  - intros k v Hin. rewrite hashFunction_put.
    assert (Hk : k ∈ map fst (HashMap.bucket hm (Z.of_nat i))).
    { rewrite <- (bucket_put_keys hm key value i Hs Hv).
      apply list_elem_of_fmap. exists (k, v). split; [reflexivity | exact Hin]. }
    apply list_elem_of_fmap in Hk. destruct Hk as ([k' v'] & -> & Hin').
    apply (Hhash _ _ Hin').
  - rewrite bucket_put_keys by assumption. exact Hnd.
Qed.

Lemma put_buckets_ok hm key value :
  hm_shape hm -> hm_buckets_ok hm -> hm_buckets_ok (HashMap.put hm key value).
Proof.
  intros Hs Hok. destruct (HashMap.get hm key) as [v | ] eqn:Hv.
  - apply put_present_buckets_ok; [assumption | assumption | eauto].
  - apply put_fresh_buckets_ok; assumption.
Qed.

Lemma keys_length hm : length (hm_keys hm) = length (HashMap.getValues hm).
Proof. rewrite keys_entries, getValues_entries, !length_map. reflexivity. Qed.

Lemma put_all_snoc hm (kvs : list (K * V)) key value :
  put_all hm (kvs ++ [(key, value)]) = HashMap.put (put_all hm kvs) key value.
Proof. unfold put_all. rewrite foldl_snoc. reflexivity. Qed.

Lemma last_put_snoc (kvs : list (K * V)) key value key' :
  last_put (kvs ++ [(key, value)]) key' =
    if decide (key = key') then Some value else last_put kvs key'.
Proof.
  induction kvs as [ | [k v] kvs IH]; simpl.
  - destruct (decide (key = key')); reflexivity.
  - rewrite IH. destruct (decide (key = key')); reflexivity.
Qed.

Lemma last_put_None (kvs : list (K * V)) key :
  last_put kvs key = None <-> key ∉ map fst kvs.
Proof.
  induction kvs as [ | [k v] kvs IH]; simpl.
  - split; [intros _ Hin; inversion Hin | reflexivity].
  - rewrite not_elem_of_cons.
    destruct (last_put kvs key) as [v' | ].
    + split; [discriminate | ]. intros [_ Hn]. apply IH in Hn. discriminate.
    + destruct (decide (k = key)) as [-> | Hne].
      * split; [discriminate | ]. intros [Hn _]. congruence.
      * split; [ | reflexivity]. intros _. split; [congruence | apply IH; reflexivity].
Qed.

(** The invariant of a map under construction. *)
Lemma put_all_invariant (c : Z) (kvs : list (K * V)) :
  c <= INT_MAX -> Z.of_nat (length kvs) <= INT_MAX ->
  let hm := put_all (HashMap.new c) kvs in
  hm_shape hm /\ hm_buckets_ok hm /\
  (forall key, HashMap.get hm key = last_put kvs key) /\
  current_size hm = Z.of_nat (length (HashMap.getValues hm)) /\
  (length (HashMap.getValues hm) <= length kvs)%nat.
Proof.
  intros Hc. induction kvs as [ | [key value] kvs IH] using rev_ind; intros Hlen; cbv zeta.
  - unfold put_all. simpl. split; [apply new_shape; exact Hc | ].
    split; [apply new_buckets_ok | ]. split; [intros key; apply get_new | ].
    rewrite getValues_entries, entries_new. split; reflexivity.
  - rewrite length_app in Hlen. simpl in Hlen.
    cbv zeta in IH. destruct IH as (Hs & Hok & Hget & Hsize & Hle); [lia | ].
    rewrite put_all_snoc.
    set (hm := put_all (HashMap.new c) kvs) in *.
    split; [apply put_shape; exact Hs | ].
    split; [apply put_buckets_ok; assumption | ].
    split.
    { intros key'. rewrite get_put by exact Hs. rewrite last_put_snoc, Hget. reflexivity. }
    rewrite length_app. simpl.
    destruct (HashMap.get hm key) as [v | ] eqn:Hv.
    + rewrite put_present_size by eauto.
      rewrite <- !keys_length, put_present_keys by eauto.
      rewrite keys_length. split; [exact Hsize | lia].
    + rewrite put_fresh_size by exact Hv.
      assert (El : length (HashMap.getValues (HashMap.put hm key value))
                   = S (length (HashMap.getValues hm))).
      { rewrite !getValues_entries, !length_map.
        rewrite (entries_put_fresh hm key value Hs Hv). reflexivity. }
      rewrite El, Hsize. split; [ | lia].
      rewrite wrap32_id; unfold INT_MIN, INT_MAX in *; lia.
Qed.

End HashMapOverwrite.

(** ** The shape of a method step *)

Lemma file_step_cases (f f' : File) :
  file_wf f -> file_step f f' ->
  exists n, nodes f !! active_version f = Some n /\
    ((exists p, (p < length (nodes f))%nat /\ f' = File.set_active_version p f) \/
     (isSnapshot n = true /\
      exists c t t', f' = File.set_last_modification_time t' (branch_result c t n f)) \/
     (isSnapshot n = false /\
      exists n' t,
        f' = File.set_last_modification_time t (with_node (active_version f) n' f) /\
        version_id n' = version_id n /\ parent n' = parent n /\
        children n' = children n /\ created_timestamp n' = created_timestamp n)).
Proof.
  intros Hwf Hstep. destruct (wf_active_node f Hwf) as [n Hn].
  pose proof (wf_active f Hwf) as Ha.
  exists n. split; [exact Hn | ].
  assert (Hself : f = File.set_active_version (active_version f) f)
    by (destruct f; reflexivity).
  destruct Hstep as [text w w' Hrun | text w w' Hrun | msg w w' Hrun | id ok w w' Hrun].
  - destruct (isSnapshot n) eqn:Hs.
    + rewrite (insert_snapshot _ _ _ n Hn Hs) in Hrun. injection Hrun as <- _.
      right; left. split; [reflexivity | eauto].
    + rewrite (insert_mutable _ _ _ n Hn Hs) in Hrun. injection Hrun as <- _.
      right; right. split; [reflexivity | ]. eexists _, _. split; [reflexivity | ].
      repeat split.
  - destruct (isSnapshot n) eqn:Hs.
    + rewrite (update_snapshot _ _ _ n Hn Hs) in Hrun. injection Hrun as <- _.
      right; left. split; [reflexivity | eauto].
    + rewrite (update_mutable _ _ _ n Hn Hs) in Hrun. injection Hrun as <- _.
      right; right. split; [reflexivity | ]. eexists _, _. split; [reflexivity | ].
      repeat split.
  - destruct (isSnapshot n) eqn:Hs.
    + rewrite (snapshot_snapshot _ _ _ n Hn Hs) in Hrun. injection Hrun as <- _.
      left. exists (active_version f). split; [exact Ha | exact Hself].
    + rewrite (snapshot_mutable _ _ _ n Hn Hs) in Hrun. injection Hrun as <- _.
      right; right. split; [reflexivity | ]. eexists _, _. split; [reflexivity | ].
      repeat split.
  - destruct (rollback_total id f w Hwf) as (ok0 & p & w0 & Hrun0 & Hp & _).
    rewrite Hrun0 in Hrun. injection Hrun as _ <- _.
    left. exists p. split; [exact Hp | reflexivity].
Qed.

Lemma file_step_wf (f f' : File) :
  file_wf f -> total_versions f < INT_MAX -> file_step f f' -> file_wf f'.
Proof.
  intros Hwf Hmax [text w w' Hrun | text w w' Hrun | msg w w' Hrun | id ok w w' Hrun].
  - eapply insert_wf; eassumption.
  - eapply update_wf; eassumption.
  - eapply snapshot_wf; eassumption.
  - eapply rollback_wf; eassumption.
Qed.

Lemma node_kept_refl (n : VersionNode) : node_kept n n.
Proof. repeat split. Qed.

Lemma file_kept_refl (f : File) : file_kept f f.
Proof.
  split; [reflexivity | ]. split; [reflexivity | ]. split; [lia | ].
  intros p n Hn. exists n. split; [exact Hn | apply node_kept_refl].
Qed.

Lemma file_step_kept (f f' : File) :
  file_wf f -> total_versions f < INT_MAX -> file_step f f' -> file_kept f f'.
Proof.
  intros Hwf Hmax Hstep.
  destruct (file_step_cases f f' Hwf Hstep) as (n & Hn & Hcases).
  pose proof (wf_active f Hwf) as Ha.
  destruct Hcases as [(p & Hp & ->) | [(Hs & c & t & t' & ->) | (Hs & n' & t & -> & Hid & Hpar & _ & Hct)]].
  - split; [reflexivity | ]. split; [reflexivity | ]. split; [simpl; lia | ].
    intros q m Hm. exists m. split; [exact Hm | apply node_kept_refl].
  - split; [reflexivity | ]. split; [reflexivity | ].
    split; [simpl; rewrite wrap32_id by (unfold INT_MIN, INT_MAX in *;
              pose proof (wf_count f Hwf); lia); lia | ].
    intros q m Hm.
    change (nodes (File.set_last_modification_time t' ?g)) with (nodes g).
    rewrite (branch_result_lookup _ _ _ _ _ Hn).
    destruct (decide (q = active_version f)) as [-> | Hne].
    + rewrite Hn in Hm. injection Hm as <-.
      eexists. split; [reflexivity | ]. repeat split.
    + destruct (decide (q = length (nodes f))) as [-> | Hne'].
      * apply lookup_lt_Some in Hm. lia.
      * exists m. split; [exact Hm | apply node_kept_refl].
  - split; [reflexivity | ]. split; [reflexivity | ]. split; [simpl; lia | ].
    intros q m Hm. simpl.
    destruct (decide (q = active_version f)) as [-> | Hne].
    + rewrite Hn in Hm. injection Hm as <-.
      exists n'. split; [apply list_lookup_insert_eq; exact Ha | ].
      split; [exact Hid | ]. split; [exact Hpar | ]. split; [exact Hct | ].
      intros Hs'. congruence.
    + exists m. split; [rewrite list_lookup_insert_ne by congruence; exact Hm | ].
      apply node_kept_refl.
Qed.

Lemma node_kept_trans (n1 n2 n3 : VersionNode) :
  node_kept n1 n2 -> node_kept n2 n3 -> node_kept n1 n3.
Proof.
  intros (Hi1 & Hp1 & Hc1 & Hs1) (Hi2 & Hp2 & Hc2 & Hs2).
  split; [congruence | ]. split; [congruence | ]. split; [congruence | ].
  intros Hs. destruct (Hs1 Hs) as (Ec & Em & Et).
  assert (Hs' : isSnapshot n2 = true).
  { unfold isSnapshot in *. rewrite Et. exact Hs. }
  destruct (Hs2 Hs') as (Ec' & Em' & Et').
  split; [congruence | ]. split; congruence.
Qed.

Lemma file_kept_trans (f1 f2 f3 : File) :
  file_kept f1 f2 -> file_kept f2 f3 -> file_kept f1 f3.
Proof.
  intros (Hn1 & Hr1 & Ht1 & Hk1) (Hn2 & Hr2 & Ht2 & Hk2).
  split; [congruence | ]. split; [congruence | ]. split; [lia | ].
  intros p n Hn. destruct (Hk1 p n Hn) as (n2 & Hn2' & Hkept).
  destruct (Hk2 p n2 Hn2') as (n3 & Hn3 & Hkept').
  exists n3. split; [exact Hn3 | eapply node_kept_trans; eassumption].
Qed.

Lemma repository_kept_trans (fs1 fs2 fs3 : FileSystem) :
  repository_kept fs1 fs2 -> repository_kept fs2 fs3 -> repository_kept fs1 fs3.
Proof.
  intros H1 H2 name p f Hp Hf.
  destruct (H1 name p f Hp Hf) as (f2 & Hp2 & Hf2 & Hk).
  destruct (H2 name p f2 Hp2 Hf2) as (f3 & Hp3 & Hf3 & Hk').
  exists f3. split; [exact Hp3 | ]. split; [exact Hf3 | ].
  eapply file_kept_trans; eassumption.
Qed.

(** ** What a call does to the files *)

Lemma perform_store_step (c : api_call) (k : nat) (fs : FileSystem) (w : World) :
  fs_wf fs -> room (S k) fs ->
  exists fs' w', perform c fs w = Some (tt, fs', w') /\ fs_wf fs' /\ room k fs' /\
                 store_step (target c) fs fs'.
Proof.
  intros Hwf Hroom.
  destruct (perform_step c k fs w Hwf Hroom) as (fs' & w' & Hrun & Hwf' & Hroom').
  exists fs', w'. split; [exact Hrun | ]. split; [exact Hwf' | ]. split; [exact Hroom' | ].
  pose proof (room_versions_left k fs Hroom) as Hleft.
  assert (Hknown : forall name,
            HashMap.containsKey (files fs) name = true ->
            exists p f, HashMap.get (files fs) name = Some p /\
                        file_store fs !! p = Some f /\ file_wf f /\
                        total_versions f < INT_MAX).
  { intros name Hc. destruct (known_file name fs Hwf Hc) as (p & f & Hp & Hf).
    destruct (fs_files _ _ (fs_wf_struct fs Hwf) _ _ Hp) as (g & Hg & _ & Hfwf).
    rewrite Hf in Hg. injection Hg as <-.
    exists p, f. repeat (split; [assumption | ]).
    apply (Forall_lookup_1 _ _ _ _ Hleft Hf). }
  destruct c as [name | name | name text | name text | name msg | name id | name | num | num];
    cbn [perform target] in *.
  - (* create *)
    destruct (HashMap.containsKey (files fs) name) eqn:Hc.
    + rewrite (create_taken name fs w Hc) in Hrun. injection Hrun as <- _.
      apply step_same; reflexivity.
    + destruct Hroom as [Hn Hv].
      destruct (create_fresh name fs w Hwf Hc) as (hr & hb & Hrun' & _); [lia | ].
      rewrite Hrun' in Hrun. injection Hrun as <- _.
      apply (step_create _ _ _ name w); [reflexivity | | reflexivity | reflexivity].
      apply containsKey_false. exact Hc.
  - (* read *)
    destruct (read_history_frame name fs w Hwf) as [[text Hr] _].
    unfold bind in Hrun. rewrite Hr in Hrun. injection Hrun as <- _.
    apply step_same; reflexivity.
  - (* insert *)
    destruct (HashMap.containsKey (files fs) name) eqn:Hc.
    + destruct (Hknown name Hc) as (p & f & Hp & Hf & Hfwf & Hmax).
      destruct (fs_insert_spec name text fs w p f Hwf Hp Hf Hmax)
        as (f' & w1 & hr & hb & Hfrun & Hrun' & _).
      rewrite Hrun' in Hrun. injection Hrun as <- _.
      apply (step_method _ _ _ name p f f'); try assumption; try reflexivity.
      eapply step_insert; eassumption.
    + destruct (unknown_file name fs w Hc) as (Hrun' & _).
      rewrite Hrun' in Hrun. injection Hrun as <- _. apply step_same; reflexivity.
  - (* update *)
    destruct (HashMap.containsKey (files fs) name) eqn:Hc.
    + destruct (Hknown name Hc) as (p & f & Hp & Hf & Hfwf & Hmax).
      destruct (fs_update_spec name text fs w p f Hwf Hp Hf Hmax)
        as (f' & w1 & hr & hb & Hfrun & Hrun' & _).
      rewrite Hrun' in Hrun. injection Hrun as <- _.
      apply (step_method _ _ _ name p f f'); try assumption; try reflexivity.
      eapply step_update; eassumption.
    + destruct (unknown_file name fs w Hc) as (_ & Hrun' & _).
      rewrite Hrun' in Hrun. injection Hrun as <- _. apply step_same; reflexivity.
  - (* snapshot *)
    destruct (HashMap.containsKey (files fs) name) eqn:Hc.
    + destruct (Hknown name Hc) as (p & f & Hp & Hf & Hfwf & Hmax).
      destruct (fs_snapshot_spec name msg fs w p f Hwf Hp Hf)
        as (f' & w1 & hr & hb & Hfrun & Hrun' & _).
      rewrite Hrun' in Hrun. injection Hrun as <- _.
      apply (step_method _ _ _ name p f f'); try assumption; try reflexivity.
      eapply step_snapshot; eassumption.
    + destruct (unknown_file name fs w Hc) as (_ & _ & Hrun' & _).
      rewrite Hrun' in Hrun. injection Hrun as <- _. apply step_same; reflexivity.
  - (* rollback *)
    destruct (HashMap.containsKey (files fs) name) eqn:Hc.
    + destruct (Hknown name Hc) as (p & f & Hp & Hf & Hfwf & Hmax).
      destruct (fs_rollback_spec name id fs w p f Hwf Hp Hf)
        as (ok & q & w1 & Hfrun & Hrun' & _).
      rewrite Hrun' in Hrun. injection Hrun as <- _.
      apply (step_method _ _ _ name p f (File.set_active_version q f));
        try assumption; try reflexivity.
      eapply step_rollback; eassumption.
    + destruct (unknown_file name fs w Hc) as (_ & _ & _ & Hrun' & _).
      rewrite Hrun' in Hrun. injection Hrun as <- _. apply step_same; reflexivity.
  - (* history *)
    destruct (read_history_frame name fs w Hwf) as [_ [text Hr]].
    unfold bind in Hrun. rewrite Hr in Hrun. injection Hrun as <- _.
    apply step_same; reflexivity.
  - (* recentFiles *)
    destruct (ranking_total fs w (wrap32 num) Hwf (wrap32_range num)) as [[text Hr] _].
    unfold bind in Hrun. rewrite Hr in Hrun. injection Hrun as <- _.
    apply step_same; reflexivity.
  - (* biggestTrees *)
    destruct (ranking_total fs w (wrap32 num) Hwf (wrap32_range num)) as [_ [text Hr]].
    unfold bind in Hrun. rewrite Hr in Hrun. injection Hrun as <- _.
    apply step_same; reflexivity.
Qed.

(** A step leaves the files of the other names alone. *)
Lemma store_step_frame (who : option string) (fs fs' : FileSystem)
    (name : string) (p : nat) (f : File) :
  fs_wf fs -> store_step who fs fs' -> who <> Some name ->
  HashMap.get (files fs) name = Some p -> file_store fs !! p = Some f ->
  HashMap.get (files fs') name = Some p /\ file_store fs' !! p = Some f.
Proof.
  intros Hwf Hstep Hwho Hp Hf.
  pose proof (fs_wf_struct fs Hwf) as Hst.
  destruct Hstep as [Es Em | name' w0 -> Hfresh Es Em | name' q g g' -> Hq Hg _ _ _ Es Em].
  - rewrite Es, Em. split; assumption.
  - rewrite Es, Em. split.
    + rewrite get_put by apply (fs_shape _ _ Hst).
      destruct (decide (name' = name)) as [-> | Hne]; [congruence | exact Hp].
    + rewrite lookup_app_l by (eapply lookup_lt_Some; eassumption). exact Hf.
  - rewrite Es, Em. split; [exact Hp | ].
    destruct (decide (p = q)) as [-> | Hne].
    + destruct (fs_files _ _ Hst _ _ Hp) as (f1 & Hf1 & Hn1 & _).
      destruct (fs_files _ _ Hst _ _ Hq) as (f2 & Hf2 & Hn2 & _).
      congruence.
    + rewrite list_lookup_insert_ne by congruence. exact Hf.
Qed.

Lemma store_step_kept (who : option string) (fs fs' : FileSystem) :
  fs_wf fs -> store_step who fs fs' -> repository_kept fs fs'.
Proof.
  intros Hwf Hstep name p f Hp Hf.
  destruct (decide (who = Some name)) as [-> | Hwho].
  - pose proof (fs_wf_struct fs Hwf) as Hst.
    destruct Hstep as [Es Em | name' w0 [= ->] Hfresh Es Em
                      | name' q g g' [= ->] Hq Hg Hgwf Hmax Hgstep Es Em].
    + exists f. rewrite Es, Em. repeat (split; [assumption | ]). apply file_kept_refl.
    + congruence.
    + rewrite Hp in Hq. injection Hq as <-. rewrite Hf in Hg. injection Hg as <-.
      exists g'. rewrite Es, Em. split; [exact Hp | ]. split.
      * apply list_lookup_insert_eq. eapply lookup_lt_Some; eassumption.
      * apply file_step_kept; assumption.
  - destruct (store_step_frame who fs fs' name p f Hwf Hstep Hwho Hp Hf) as [Hp' Hf'].
    exists f. repeat (split; [assumption | ]). apply file_kept_refl.
Qed.

Lemma perform_all_kept (cs : list api_call) :
  forall (fs : FileSystem) (w : World),
    fs_wf fs -> room (length cs) fs ->
    exists fs' w', perform_all cs fs w = Some (tt, fs', w') /\ fs_wf fs' /\
                   repository_kept fs fs'.
Proof.
  induction cs as [ | c cs IH]; intros fs w Hwf Hroom.
  - exists fs, w. split; [reflexivity | ]. split; [exact Hwf | ].
    intros name p f Hp Hf. exists f. repeat (split; [assumption | ]). apply file_kept_refl.
  - destruct (perform_store_step c (length cs) fs w Hwf Hroom)
      as (fs1 & w1 & Hrun & Hwf1 & Hroom1 & Hstep).
    destruct (IH fs1 w1 Hwf1 Hroom1) as (fs' & w' & Hrest & Hwf' & Hkept).
    exists fs', w'. split; [ | split; [exact Hwf' | ]].
    + cbn [perform_all]. unfold bind at 1. rewrite Hrun. exact Hrest.
    + eapply repository_kept_trans; [ | exact Hkept].
      eapply store_step_kept; eassumption.
Qed.

(** Reading through the repository. *)
Lemma fs_read_run (name : string) (fs : FileSystem) (w : World)
    (p : nat) (f : File) (n : VersionNode) :
  HashMap.get (files fs) name = Some p -> file_store fs !! p = Some f ->
  nodes f !! active_version f = Some n ->
  FileSystem.read name fs w = Some (content n, fs, w).
Proof.
  intros Hp Hf Hn.
  assert (Hsame : FileSystem.set_file_store (<[p := f]> (file_store fs)) fs = fs).
  { rewrite list_insert_id by exact Hf. destruct fs; reflexivity. }
  unfold FileSystem.read. enter_file Hp.
  unfold FileSystem.call. rewrite Hf, (read_run f w n Hn), Hsame. reflexivity.
Qed.

(** The content of the active node after insert, update and snapshot. *)
Lemma insert_content (text : string) (f f' : File) (w w' : World) (n : VersionNode) :
  nodes f !! active_version f = Some n ->
  File.insert text f w = Some (tt, f', w') ->
  exists n', nodes f' !! active_version f' = Some n' /\ content n' = content n +:+ text.
Proof.
  intros Hn. pose proof (lookup_lt_Some _ _ _ Hn) as Ha.
  destruct (isSnapshot n) eqn:Hs.
  - rewrite (insert_snapshot _ _ _ n Hn Hs). intros [= <- _].
    change (nodes (File.set_last_modification_time ?t ?g)) with (nodes g).
    change (active_version (File.set_last_modification_time ?t ?g)) with (active_version g).
    rewrite (branch_result_lookup _ _ _ _ _ Hn). simpl active_version.
    destruct (decide _) as [E | E]; [lia | ].
    destruct (decide _) as [E' | E']; [ | congruence]. eauto.
  - rewrite (insert_mutable _ _ _ n Hn Hs). intros [= <- _]. simpl.
    rewrite list_lookup_insert_eq by exact Ha. eauto.
Qed.

Lemma update_content (text : string) (f f' : File) (w w' : World) (n : VersionNode) :
  nodes f !! active_version f = Some n ->
  File.update text f w = Some (tt, f', w') ->
  exists n', nodes f' !! active_version f' = Some n' /\ content n' = text.
Proof.
  intros Hn. pose proof (lookup_lt_Some _ _ _ Hn) as Ha.
  destruct (isSnapshot n) eqn:Hs.
  - rewrite (update_snapshot _ _ _ n Hn Hs). intros [= <- _].
    change (nodes (File.set_last_modification_time ?t ?g)) with (nodes g).
    change (active_version (File.set_last_modification_time ?t ?g)) with (active_version g).
    rewrite (branch_result_lookup _ _ _ _ _ Hn). simpl active_version.
    destruct (decide _) as [E | E]; [lia | ].
    destruct (decide _) as [E' | E']; [ | congruence]. eauto.
  - rewrite (update_mutable _ _ _ n Hn Hs). intros [= <- _]. simpl.
    rewrite list_lookup_insert_eq by exact Ha. eauto.
Qed.

Lemma snapshot_content (msg : string) (f f' : File) (w w' : World) (n : VersionNode) :
  nodes f !! active_version f = Some n ->
  File.snapshot msg f w = Some (tt, f', w') ->
  exists n', nodes f' !! active_version f' = Some n' /\ content n' = content n.
Proof.
  intros Hn. pose proof (lookup_lt_Some _ _ _ Hn) as Ha.
  destruct (isSnapshot n) eqn:Hs.
  - rewrite (snapshot_snapshot _ _ _ n Hn Hs). intros [= <- _]. eauto.
  - rewrite (snapshot_mutable _ _ _ n Hn Hs). intros [= <- _]. simpl.
    rewrite list_lookup_insert_eq by exact Ha. eauto.
Qed.

(** A check of [room] that can be evaluated. *)
Lemma room_check (k : nat) (fs : FileSystem) :
  (Z.of_nat (length (HashMap.getValues (files fs))) + Z.of_nat k <? 2 ^ 30)
  && forallb (fun f => total_versions f + Z.of_nat k <=? INT_MAX) (file_store fs) = true ->
  room k fs.
Proof.
  intros Hb. apply andb_true_iff in Hb. destruct Hb as [Hn Hv].
  split; [apply Z.ltb_lt; exact Hn | ].
  apply list.Forall_forall. intros f Hf.
  rewrite forallb_forall in Hv. apply Z.leb_le. apply Hv.
  apply list_elem_of_In. exact Hf.
Qed.

Lemma sample_fs_room : room 4 sample_fs.
Proof. apply room_check. vm_compute. reflexivity. Qed.

Lemma sample_file_lookup :
  HashMap.get (files sample_fs) "a"%string = Some 0%nat /\
  file_store sample_fs !! 0%nat = Some sample_file.
Proof. split; vm_compute; reflexivity. Qed.

(** ** The version tree under the methods *)

Lemma new_file_tree (name : string) (w : World) : tree_ok (new_file name w).
Proof.
  intros [ | p] n; simpl; [ | discriminate]. intros [= <-]. simpl.
  split; [constructor | ]. intros q. split; [intros Hq; inversion Hq | ].
  intros (m & Hm & Hpar). destruct q; simpl in Hm; [ | discriminate].
  injection Hm as <-. discriminate.
Qed.

Lemma with_node_tree (f : File) (n n' : VersionNode) (t : Z) :
  file_wf f -> tree_ok f ->
  nodes f !! active_version f = Some n ->
  parent n' = parent n -> children n' = children n ->
  tree_ok (File.set_last_modification_time t (with_node (active_version f) n' f)).
Proof.
  intros Hwf Htree Hn Hpar Hch.
  pose proof (wf_active f Hwf) as Ha.
  assert (Hlook : forall p m, nodes (with_node (active_version f) n' f) !! p = Some m ->
            exists m0, nodes f !! p = Some m0 /\ children m = children m0
                       /\ parent m = parent m0).
  { intros p m. unfold with_node. simpl.
    destruct (decide (p = active_version f)) as [-> | Hne].
    - rewrite list_lookup_insert_eq by exact Ha. intros [= <-]. eauto.
    - rewrite list_lookup_insert_ne by congruence. eauto. }
  assert (Hback : forall p m0, nodes f !! p = Some m0 ->
            exists m, nodes (with_node (active_version f) n' f) !! p = Some m
                      /\ parent m = parent m0).
  { intros p m0 Hm0. unfold with_node. simpl.
    destruct (decide (p = active_version f)) as [-> | Hne].
    - rewrite list_lookup_insert_eq by exact Ha. exists n'. split; [reflexivity | ].
      congruence.
    - rewrite list_lookup_insert_ne by congruence. eauto. }
  intros p m Hm.
  change (nodes (File.set_last_modification_time t ?g)) with (nodes g) in *.
  destruct (Hlook p m Hm) as (m0 & Hm0 & Ec & Ep).
  destruct (Htree p m0 Hm0) as [Hnd Hin]. rewrite Ec. split; [exact Hnd | ].
  intros q. rewrite Hin. split.
  - intros (x0 & Hx0 & Hx0p). destruct (Hback q x0 Hx0) as (x & Hx & Hxp).
    exists x. split; [exact Hx | congruence].
  - intros (x & Hx & Hxp). destruct (Hlook q x Hx) as (x0 & Hx0 & _ & Hx0p).
    exists x0. split; [exact Hx0 | congruence].
Qed.

Lemma branch_result_tree (f : File) (n : VersionNode) (c : string) (t t' : Z) :
  file_wf f -> tree_ok f ->
  nodes f !! active_version f = Some n ->
  tree_ok (File.set_last_modification_time t' (branch_result c t n f)).
Proof.
  intros Hwf Htree Hn.
  pose proof (wf_active f Hwf) as Ha.
  pose proof (branch_result_lookup c t n f) as Hl.
  intros p m.
  change (nodes (File.set_last_modification_time t' ?g)) with (nodes g).
  rewrite (Hl p Hn).
  assert (Hparent : forall q x, nodes (branch_result c t n f) !! q = Some x ->
            (q = length (nodes f) /\ parent x = Some (active_version f)) \/
            (q <> length (nodes f) /\ exists x0, nodes f !! q = Some x0 /\ parent x = parent x0)).
  { intros q x. rewrite (Hl q Hn).
    destruct (decide (q = active_version f)) as [-> | Hne].
    - intros [= <-]. right. split; [lia | ]. exists n. split; [exact Hn | reflexivity].
    - destruct (decide (q = length (nodes f))) as [-> | Hne'].
      + intros [= <-]. left. split; reflexivity.
      + intros Hx. right. split; [exact Hne' | ]. eauto. }
  assert (Hold : forall q x0, nodes f !! q = Some x0 ->
            exists x, nodes (branch_result c t n f) !! q = Some x /\ parent x = parent x0).
  { intros q x0 Hx0. rewrite (Hl q Hn).
    destruct (decide (q = active_version f)) as [-> | Hne].
    - rewrite Hn in Hx0. injection Hx0 as <-. eexists. split; [reflexivity | reflexivity].
    - destruct (decide (q = length (nodes f))) as [-> | Hne'].
      + apply lookup_lt_Some in Hx0. lia.
      + eauto. }
  destruct (decide (p = active_version f)) as [-> | Hne].
  - intros [= <-]. destruct (Htree _ _ Hn) as [Hnd Hin]. simpl. split.
    + apply list.NoDup_app. split; [exact Hnd | ]. split; [ | apply list.NoDup_singleton].
      intros q Hq Hq'. apply list_elem_of_singleton in Hq'. subst q.
      apply Hin in Hq. destruct Hq as (x & Hx & _). apply lookup_lt_Some in Hx. lia.
    + intros q. rewrite elem_of_app, list_elem_of_singleton, Hin. split.
      * intros [(x0 & Hx0 & Hp) | ->].
        -- destruct (Hold q x0 Hx0) as (x & Hx & Hxp). exists x. split; [exact Hx | congruence].
        -- eexists. rewrite (Hl _ Hn).
           destruct (decide _) as [E | E]; [lia | ].
           destruct (decide _) as [E' | E']; [ | congruence].
           split; reflexivity.
      * intros (x & Hx & Hxp).
        destruct (Hparent q x Hx) as [[-> _] | (_ & x0 & Hx0 & Ep)]; [right; reflexivity | ].
        left. exists x0. split; [exact Hx0 | congruence].
  - destruct (decide (p = length (nodes f))) as [-> | Hne'].
    + intros [= <-]. simpl. split; [constructor | ].
      intros q. split; [intros Hq; inversion Hq | ].
      intros (x & Hx & Hxp).
      destruct (Hparent q x Hx) as [[-> Ep] | (_ & x0 & Hx0 & Ep)].
      * rewrite Ep in Hxp. injection Hxp as Hxp. lia.
      * rewrite Ep in Hxp. pose proof (wf_parent f Hwf _ _ _ Hx0 Hxp).
        apply lookup_lt_Some in Hx0. lia.
    + intros Hm. destruct (Htree _ _ Hm) as [Hnd Hin]. split; [exact Hnd | ].
      intros q. rewrite Hin. split.
      * intros (x0 & Hx0 & Hp).
        destruct (Hold q x0 Hx0) as (x & Hx & Hxp). exists x. split; [exact Hx | congruence].
      * intros (x & Hx & Hxp).
        destruct (Hparent q x Hx) as [[-> Ep] | (_ & x0 & Hx0 & Ep)]; [congruence | ].
        exists x0. split; [exact Hx0 | congruence].
Qed.

Lemma file_step_tree (f f' : File) :
  file_wf f -> tree_ok f -> file_step f f' -> tree_ok f'.
Proof.
  intros Hwf Htree Hstep.
  destruct (file_step_cases f f' Hwf Hstep) as (n & Hn & Hcases).
  destruct Hcases as [(p & Hp & ->) | [(Hs & c & t & t' & ->) | (Hs & n' & t & -> & _ & Hpar & Hch & _)]].
  - exact Htree.
  - apply branch_result_tree; assumption.
  - apply (with_node_tree f n); assumption.
Qed.

(** ** The store under the calls *)

Lemma new_store_ok : store_ok FileSystem.new.
Proof. split; [simpl; intros p Hp; lia | constructor]. Qed.

Lemma store_step_ok (who : option string) (fs fs' : FileSystem) :
  fs_wf fs -> store_ok fs -> store_step who fs fs' -> store_ok fs'.
Proof.
  intros Hwf [Hidx Htrees] Hstep.
  destruct Hstep as [Es Em | name w0 _ Hfresh Es Em | name q g g' _ Hq Hg Hgwf _ Hgstep Es Em];
    unfold store_ok; rewrite Es, Em.
  - split; assumption.
  - split.
    + intros p Hp. rewrite length_app in Hp. simpl in Hp.
      rewrite getValues_entries.
      rewrite (entries_put_fresh _ name _ (fs_shape _ _ (fs_wf_struct fs Hwf)) Hfresh).
      simpl. rewrite <- getValues_entries.
      destruct (decide (p = length (file_store fs))) as [-> | Hne].
      * apply list_elem_of_here.
      * apply list_elem_of_further. apply Hidx. lia.
    + apply list.Forall_app. split; [exact Htrees | ].
      constructor; [apply new_file_tree | constructor].
  - split.
    + intros p Hp. rewrite length_insert in Hp. apply Hidx. exact Hp.
    + apply Forall_insert; [exact Htrees | ].
      apply (file_step_tree g g' Hgwf); [ | exact Hgstep].
      apply (Forall_lookup_1 _ _ _ _ Htrees Hg).
Qed.

Lemma perform_all_store_ok (cs : list api_call) :
  forall (fs : FileSystem) (w : World),
    fs_wf fs -> room (length cs) fs -> store_ok fs ->
    exists fs' w', perform_all cs fs w = Some (tt, fs', w') /\ fs_wf fs' /\ store_ok fs'.
Proof.
  induction cs as [ | c cs IH]; intros fs w Hwf Hroom Hok.
  - exists fs, w. split; [reflexivity | ]. split; assumption.
  - destruct (perform_store_step c (length cs) fs w Hwf Hroom)
      as (fs1 & w1 & Hrun & Hwf1 & Hroom1 & Hstep).
    destruct (IH fs1 w1 Hwf1 Hroom1 (store_step_ok _ fs fs1 Hwf Hok Hstep))
      as (fs' & w' & Hrest & Hwf' & Hok').
    exists fs', w'. split; [ | split; assumption].
    cbn [perform_all]. unfold bind at 1. rewrite Hrun. exact Hrest.
Qed.

(** ** deleteTree *)

Section DeleteTree.
Variable ns : list VersionNode.
Hypothesis parent_below : forall p n q, ns !! p = Some n -> parent n = Some q -> (q < p)%nat.
Hypothesis children_ok : forall p n, ns !! p = Some n ->
  NoDup (children n) /\
  forall q, q ∈ children n <-> exists m, ns !! q = Some m /\ parent m = Some p.

Lemma descends_le (q p : nat) : descends ns q p -> (p <= q)%nat.
Proof.
  induction 1 as [p n Hn | q c m p Hm Hpar Hd IH]; [lia | ].
  pose proof (parent_below _ _ _ Hm Hpar). lia.
Qed.

Lemma descends_valid (q p : nat) : descends ns q p -> (q < length ns)%nat.
Proof.
  induction 1 as [p n Hn | q c m p Hm Hpar Hd IH]; [ | exact IH].
  eapply lookup_lt_Some; eassumption.
Qed.

(** The subtree of a node, from below: a node is in it when it is the
    node or when its parent is in it. *)
Lemma descends_up (q p : nat) :
  descends ns q p ->
  q = p \/ exists m r, ns !! q = Some m /\ parent m = Some r /\ descends ns r p.
Proof.
  induction 1 as [p n Hn | q c m p Hm Hpar Hd IH]; [left; reflexivity | ].
  right. destruct IH as [-> | (x & r & Hx & Hxr & Hr)].
  - exists m, p. split; [exact Hm | ]. split; [exact Hpar | ].
    destruct (lookup_lt_is_Some_2 ns p) as [n Hn].
    { pose proof (parent_below _ _ _ Hm Hpar). apply lookup_lt_Some in Hm. lia. }
    eapply descends_self; eassumption.
  - exists x, r. split; [exact Hx | ]. split; [exact Hxr | ].
    exact (descends_child ns r c m p Hm Hpar Hr).
Qed.

Lemma descends_down (r p q : nat) (m : VersionNode) :
  descends ns r p -> ns !! q = Some m -> parent m = Some r -> descends ns q p.
Proof.
  induction 1 as [p n Hn | r c x p Hx Hpar Hd IH]; intros Hm Hmr.
  - exact (descends_child ns q q m p Hm Hmr (descends_self ns q m Hm)).
  - exact (descends_child ns q c x p Hx Hpar (IH Hm Hmr)).
Qed.

(** The subtrees of two children of a node share nothing. *)
Lemma siblings_apart (q : nat) :
  forall c1 c2 m1 m2 p,
    ns !! c1 = Some m1 -> parent m1 = Some p ->
    ns !! c2 = Some m2 -> parent m2 = Some p ->
    descends ns q c1 -> descends ns q c2 -> c1 = c2.
Proof.
  induction q as [q IH] using lt_wf_ind.
  intros c1 c2 m1 m2 p Hm1 Hp1 Hm2 Hp2 Hd1 Hd2.
  pose proof (parent_below _ _ _ Hm1 Hp1) as Hlt1.
  pose proof (parent_below _ _ _ Hm2 Hp2) as Hlt2.
  destruct (descends_up _ _ Hd1) as [E1 | (x1 & r1 & Hx1 & Hr1 & Hd1')];
    destruct (descends_up _ _ Hd2) as [E2 | (x2 & r2 & Hx2 & Hr2 & Hd2')].
  - congruence.
  - subst q. rewrite Hm1 in Hx2. injection Hx2 as <-.
    rewrite Hp1 in Hr2. injection Hr2 as <-.
    pose proof (descends_le _ _ Hd2'). lia.
  - subst q. rewrite Hm2 in Hx1. injection Hx1 as <-.
    rewrite Hp2 in Hr1. injection Hr1 as <-.
    pose proof (descends_le _ _ Hd1'). lia.
  - rewrite Hx1 in Hx2. injection Hx2 as <-. rewrite Hr1 in Hr2. injection Hr2 as <-.
    apply (IH r1 (parent_below _ _ _ Hx1 Hr1) c1 c2 m1 m2 p); assumption.
Qed.

(** The loop over the children, given what the recursive call does. *)
Lemma deleteTree_children_spec (rec : nat -> list nat -> option (list nat)) (p : nat) :
  forall (cs : list nat) (d : list nat),
    NoDup cs ->
    (forall c, c ∈ cs -> exists m, ns !! c = Some m /\ parent m = Some p) ->
    (forall c, c ∈ cs ->
       forall d', (forall q, descends ns q c -> q ∉ d') ->
                  exists l, rec c d' = Some (d' ++ l) /\ NoDup l /\
                            forall q, q ∈ l <-> descends ns q c) ->
    (forall c q, c ∈ cs -> descends ns q c -> q ∉ d) ->
    exists l, deleteTree_children rec cs d = Some (d ++ l) /\ NoDup l /\
              forall q, q ∈ l <-> exists c, c ∈ cs /\ descends ns q c.
Proof.
  induction cs as [ | c cs IH]; intros d Hnd Hch Hrec Hfree.
  - exists []. rewrite app_nil_r. split; [reflexivity | ]. split; [constructor | ].
    intros q. split; [intros Hq; inversion Hq | ].
    intros (c & Hc & _). inversion Hc.
  - apply list.NoDup_cons in Hnd. destruct Hnd as [Hc Hnd].
    destruct (Hrec c (list_elem_of_here _ _) d) as (l1 & Hrun1 & Hnd1 & Hin1).
    { intros q Hq. apply (Hfree c q (list_elem_of_here _ _) Hq). }
    destruct (IH (d ++ l1) Hnd) as (l2 & Hrun2 & Hnd2 & Hin2).
    + intros c' Hc'. apply Hch. apply list_elem_of_further. exact Hc'.
    + intros c' Hc'. apply Hrec. apply list_elem_of_further. exact Hc'.
    + intros c' q Hc' Hq. rewrite not_elem_of_app. split.
      * apply (Hfree c' q (list_elem_of_further _ _ _ Hc') Hq).
      * rewrite Hin1. intros Hq1.
        destruct (Hch c (list_elem_of_here _ _)) as (m1 & Hm1 & Hp1).
        destruct (Hch c' (list_elem_of_further _ _ _ Hc')) as (m2 & Hm2 & Hp2).
        pose proof (siblings_apart q c c' m1 m2 p Hm1 Hp1 Hm2 Hp2 Hq1 Hq). congruence.
    + exists (l1 ++ l2). cbn [deleteTree_children]. rewrite Hrun1. cbn [mbind option_bind].
      rewrite Hrun2, app_assoc. split; [reflexivity | ]. split.
      * apply list.NoDup_app. split; [exact Hnd1 | ]. split; [ | exact Hnd2].
        intros q Hq1 Hq2. apply Hin1 in Hq1. apply Hin2 in Hq2.
        destruct Hq2 as (c' & Hc' & Hq2).
        destruct (Hch c (list_elem_of_here _ _)) as (m1 & Hm1 & Hp1).
        destruct (Hch c' (list_elem_of_further _ _ _ Hc')) as (m2 & Hm2 & Hp2).
        pose proof (siblings_apart q c c' m1 m2 p Hm1 Hp1 Hm2 Hp2 Hq1 Hq2). congruence.
      * intros q. rewrite elem_of_app, Hin1, Hin2. split.
        -- intros [Hq | (c' & Hc' & Hq)].
           ++ exists c. split; [apply list_elem_of_here | exact Hq].
           ++ exists c'. split; [apply list_elem_of_further; exact Hc' | exact Hq].
        -- intros (c' & Hc' & Hq). apply elem_of_cons in Hc'.
           destruct Hc' as [-> | Hc']; [left; exact Hq | right; eauto].
Qed.

Lemma deleteTree_spec (fuel : nat) :
  forall (p : nat) (d : list nat),
    (p < length ns)%nat -> (length ns - p < fuel)%nat ->
    (forall q, descends ns q p -> q ∉ d) ->
    exists l, deleteTree fuel ns (Some p) d = Some (d ++ l) /\ NoDup l /\
              forall q, q ∈ l <-> descends ns q p.
Proof.
  induction fuel as [ | fuel IH]; intros p d Hp Hfuel Hfree; [lia | ].
  destruct (lookup_lt_is_Some_2 ns p Hp) as [n Hn].
  pose proof (descends_self ns p n Hn) as Hself.
  destruct (children_ok p n Hn) as [Hnd Hch].
  cbn [deleteTree].
  rewrite (bool_decide_eq_false_2 _ (Hfree p Hself)). rewrite Hn. cbn [mbind option_bind].
  destruct (deleteTree_children_spec (fun child => deleteTree fuel ns (Some child)) p
              (children n) d Hnd) as (l & Hrun & Hndl & Hin).
  - intros c Hc. apply Hch. exact Hc.
  - intros c Hc d' Hfree'. apply Hch in Hc. destruct Hc as (m & Hm & Hpar).
    pose proof (parent_below _ _ _ Hm Hpar). pose proof (lookup_lt_Some _ _ _ Hm).
    apply IH; [lia | lia | exact Hfree'].
  - intros c q Hc Hq. apply Hfree. apply Hch in Hc. destruct Hc as (m & Hm & Hpar).
    eapply descends_child; eassumption.
  - rewrite Hrun. cbn [mbind option_bind].
    assert (Hpl : p ∉ l).
    { rewrite Hin. intros (c & Hc & Hq). apply Hch in Hc. destruct Hc as (m & Hm & Hpar).
      pose proof (parent_below _ _ _ Hm Hpar). pose proof (descends_le _ _ Hq). lia. }
    rewrite bool_decide_eq_false_2
      by (rewrite not_elem_of_app; split; [apply Hfree; exact Hself | exact Hpl]).
    exists (l ++ [p]). rewrite app_assoc. split; [reflexivity | ]. split.
    + apply list.NoDup_app. split; [exact Hndl | ]. split; [ | apply list.NoDup_singleton].
      intros q Hq Hq'. apply list_elem_of_singleton in Hq'. subst q. contradiction.
    + intros q. rewrite elem_of_app, list_elem_of_singleton, Hin. split.
      * intros [(c & Hc & Hq) | ->]; [ | exact Hself].
        apply Hch in Hc. destruct Hc as (m & Hm & Hpar).
        eapply descends_child; eassumption.
      * intros Hq. inversion Hq as [p' n' Hn' | q' c m p' Hm Hpar Hd]; subst.
        -- right. reflexivity.
        -- left. exists c. split; [ | exact Hd]. apply Hch. eauto.
Qed.

End DeleteTree.

(** Every node of a file lies under the root. *)
Lemma descends_root (f : File) :
  file_wf f -> forall q, (q < length (nodes f))%nat -> descends (nodes f) q 0.
Proof.
  intros Hwf q. induction q as [q IH] using lt_wf_ind. intros Hq.
  destruct (lookup_lt_is_Some_2 _ _ Hq) as [m Hm].
  destruct (decide (q = 0%nat)) as [-> | Hne].
  - eapply descends_self; eassumption.
  - pose proof (wf_has_parent f Hwf _ _ Hm Hne) as Hpar.
    destruct (parent m) as [r | ] eqn:Er; [ | congruence].
    pose proof (wf_parent f Hwf _ _ _ Hm Er) as Hlt.
    apply (descends_down (nodes f) r 0 q m); [ | exact Hm | exact Er].
    apply IH; lia.
Qed.

Lemma delete_File_spec (f : File) :
  file_wf f -> tree_ok f ->
  exists freed, delete_File f = Some freed /\ freed ≡ₚ seq 0 (length (nodes f)).
Proof.
  intros Hwf Htree. pose proof (wf_active f Hwf) as Ha.
  destruct (deleteTree_spec (nodes f) (wf_parent f Hwf) Htree
              (S (length (nodes f))) 0 []) as (l & Hrun & Hnd & Hin).
  - lia.
  - lia.
  - intros q _ Hq. inversion Hq.
  - exists l. unfold delete_File. rewrite (wf_root f Hwf). split; [exact Hrun | ].
    apply list.NoDup_Permutation; [exact Hnd | apply list.NoDup_seq | ].
    intros q. rewrite Hin, elem_of_seq. split.
    + intros Hq. pose proof (descends_valid _ _ _ Hq). lia.
    + intros Hq. apply descends_root; [exact Hwf | lia].
Qed.

(** ** The destructor of FileSystem *)

Lemma delete_files_spec (store : list File) :
  forall (all_files : list nat) (deleted : list (nat * list nat)),
    NoDup all_files ->
    (forall p, p ∈ all_files -> p ∉ map fst deleted) ->
    (forall p, p ∈ all_files -> exists f, store !! p = Some f /\ file_wf f /\ tree_ok f) ->
    exists freed,
      delete_files store all_files deleted = Some (deleted ++ freed) /\
      map fst freed = all_files /\
      forall p l, (p, l) ∈ freed ->
                  exists f, store !! p = Some f /\ delete_File f = Some l /\
                            l ≡ₚ seq 0 (length (nodes f)).
Proof.
  intros ptrs. induction ptrs as [ | p ps IH]; intros deleted Hnd Hfree Hfiles.
  - exists []. rewrite app_nil_r. split; [reflexivity | ]. split; [reflexivity | ].
    intros p l Hin. inversion Hin.
  - apply list.NoDup_cons in Hnd. destruct Hnd as [Hp Hnd].
    destruct (Hfiles p (list_elem_of_here _ _)) as (f & Hf & Hwf & Htree).
    destruct (delete_File_spec f Hwf Htree) as (l & Hrun & Hperm).
    destruct (IH (deleted ++ [(p, l)]) Hnd) as (freed & Hrest & Hmap & Hall).
    + intros q Hq. rewrite map_app. simpl. rewrite not_elem_of_app. split.
      * apply Hfree. apply list_elem_of_further. exact Hq.
      * intros Hq'. apply list_elem_of_singleton in Hq'. subst q. contradiction.
    + intros q Hq. apply Hfiles. apply list_elem_of_further. exact Hq.
    + exists ((p, l) :: freed). cbn [delete_files].
      rewrite (bool_decide_eq_false_2 _ (Hfree p (list_elem_of_here _ _))).
      rewrite Hf. cbn [mbind option_bind]. rewrite Hrun. cbn [mbind option_bind].
      rewrite Hrest, <- app_assoc. split; [reflexivity | ]. split.
      * simpl. rewrite Hmap. reflexivity.
      * intros q l' Hin. apply elem_of_cons in Hin.
        destruct Hin as [[= -> ->] | Hin]; [eauto | apply Hall; exact Hin].
Qed.

(** The files under different names are different objects. *)
Lemma getValues_NoDup (store : list File) (m : HashMap string nat) :
  fs_struct store m -> NoDup (HashMap.getValues m).
Proof.
  intros Hst. rewrite getValues_entries.
  pose proof (keys_NoDup m (fs_buckets _ _ Hst)) as Hkeys. rewrite keys_entries in Hkeys.
  assert (Hname : forall name p, (name, p) ∈ entries m ->
            exists f, store !! p = Some f /\ filename f = name).
  { intros name p Hin.
    apply (get_entries m name p (fs_shape _ _ Hst) (fs_buckets _ _ Hst)) in Hin.
    destruct (fs_files _ _ Hst _ _ Hin) as (f & Hf & Hn & _). eauto. }
  induction (entries m) as [ | [name p] es IH]; [constructor | ].
  simpl in *. apply list.NoDup_cons in Hkeys. destruct Hkeys as [Hk Hkeys].
  apply list.NoDup_cons. split.
  - intros Hin. apply list_elem_of_fmap in Hin. destruct Hin as ([name' p'] & E & Hin).
    simpl in E. subst p'. apply Hk. apply list_elem_of_fmap. exists (name', p).
    split; [ | exact Hin]. simpl.
    destruct (Hname name p (list_elem_of_here _ _)) as (f & Hf & Hn).
    destruct (Hname name' p (list_elem_of_further _ _ _ Hin)) as (f' & Hf' & Hn').
    congruence.
  - apply IH; [exact Hkeys | ]. intros name' p' Hin. apply Hname.
    apply list_elem_of_further. exact Hin.
Qed.

Lemma delete_FileSystem_spec (fs : FileSystem) :
  fs_wf fs -> store_ok fs ->
  exists freed,
    delete_FileSystem fs = Some freed /\
    map fst freed ≡ₚ seq 0 (length (file_store fs)) /\
    forall p l, (p, l) ∈ freed ->
                exists f, file_store fs !! p = Some f /\ delete_File f = Some l /\
                          l ≡ₚ seq 0 (length (nodes f)).
Proof.
  intros Hwf [Hidx Htrees]. pose proof (fs_wf_struct fs Hwf) as Hst.
  pose proof (getValues_NoDup _ _ Hst) as Hnd.
  destruct (delete_files_spec (file_store fs) (HashMap.getValues (files fs)) [] Hnd)
    as (freed & Hrun & Hmap & Hall).
  - intros p _ Hin. inversion Hin.
  - intros p Hp. rewrite getValues_entries in Hp.
    apply list_elem_of_fmap in Hp. destruct Hp as ([name p'] & E & Hin). simpl in E. subst p'.
    apply (get_entries _ name p (fs_shape _ _ Hst) (fs_buckets _ _ Hst)) in Hin.
    destruct (fs_files _ _ Hst _ _ Hin) as (f & Hf & _ & Hfwf).
    exists f. split; [exact Hf | ]. split; [exact Hfwf | ].
    apply (Forall_lookup_1 _ _ _ _ Htrees Hf).
  - exists freed. split; [exact Hrun | ]. split; [ | exact Hall].
    rewrite Hmap. apply list.NoDup_Permutation; [exact Hnd | apply list.NoDup_seq | ].
    intros p. rewrite elem_of_seq. split.
    + intros Hp. pose proof (fs_struct_ptr _ _ p Hst Hp). lia.
    + intros Hp. apply Hidx. lia.
Qed.

(** ** parse_input *)

Lemma append_cons (c : ascii) (s t : string) : String c s +:+ t = String c (s +:+ t).
Proof. reflexivity. Qed.

Lemma append_nil_l (s : string) : EmptyString +:+ s = s.
Proof. reflexivity. Qed.

Lemma str_empty_app (s t : string) :
  str_empty (s +:+ t) = str_empty s && str_empty t.
Proof. destruct s; reflexivity. Qed.

Lemma word_no_space (s : string) : word s = true -> no_space s = true.
Proof. unfold word. intros H. apply andb_true_iff in H. tauto. Qed.

Lemma word_not_empty (s : string) : word s = true -> str_empty s = false.
Proof. unfold word. intros H. apply andb_true_iff in H. apply negb_true_iff. tauto. Qed.

(** The loop runs through a stretch without spaces, collecting it. *)
Lemma parse_input_loop_word (w : string) :
  forall (rest cur : string) (fw : bool) (cmd : string) (args : list string),
    no_space w = true ->
    parse_input_loop (w +:+ rest) cur fw cmd args
    = parse_input_loop rest (cur +:+ w) fw cmd args.
Proof.
  induction w as [ | c w IH]; intros rest cur fw cmd args Hw.
  - rewrite append_nil_l, string_app_nil_r. reflexivity.
  - simpl in Hw. apply andb_true_iff in Hw. destruct Hw as [Hc Hw].
    apply negb_true_iff in Hc.
    rewrite append_cons. cbn [parse_input_loop]. rewrite Hc.
    rewrite IH by exact Hw. rewrite string_app_assoc. reflexivity.
Qed.

(** The loop skips spaces when no word is under way. *)
Lemma parse_input_loop_spaces (n : nat) :
  forall (rest : string) (fw : bool) (cmd : string) (args : list string),
    parse_input_loop (spaces n +:+ rest) EmptyString fw cmd args
    = parse_input_loop rest EmptyString fw cmd args.
Proof.
  induction n as [ | n IH]; intros rest fw cmd args; [reflexivity | ].
  cbn [spaces]. rewrite append_cons. cbn [parse_input_loop].
  change (Ascii.eqb " " " ") with true. cbn [str_empty negb]. apply IH.
Qed.

(** A word and the spaces after it. *)
Lemma parse_input_loop_step (w : string) (n : nat) (rest : string) (fw : bool)
    (cmd : string) (args : list string) :
  word w = true ->
  parse_input_loop (w +:+ spaces (S n) +:+ rest) EmptyString fw cmd args
  = parse_input_loop rest EmptyString false
      (if fw then w else cmd) (if fw then args else args ++ [w]).
Proof.
  intros Hw. rewrite parse_input_loop_word by (apply word_no_space; exact Hw).
  rewrite append_nil_l. cbn [spaces]. rewrite append_cons. cbn [parse_input_loop].
  change (Ascii.eqb " " " ") with true.
  rewrite (word_not_empty w Hw). cbn [negb].
  destruct fw; apply parse_input_loop_spaces.
Qed.



Lemma parse_input_loop_layout (ws : list (string * nat)) (last : string) :
  forall (fw : bool) (cmd : string) (args : list string),
    Forall (fun wn => word (fst wn) = true) ws ->
    no_space last = true ->
    parse_input_end (parse_input_loop (layout ws last) EmptyString fw cmd args)
    = parse_outputs fw cmd args (words_of ws last).
Proof.
  induction ws as [ | [w n] ws IH]; intros fw cmd args Hws Hlast.
  - cbn [layout]. rewrite <- (string_app_nil_r last) at 1.
    rewrite parse_input_loop_word by exact Hlast.
    rewrite append_nil_l. cbn [parse_input_loop parse_input_end].
    unfold words_of, parse_outputs. cbn [map app].
    destruct (str_empty last); cbn [negb]; destruct fw;
      rewrite ?app_nil_r; reflexivity.
  - inversion Hws as [ | ? ? Hw Hrest]; subst. cbn [fst] in Hw.
    cbn [layout]. rewrite parse_input_loop_step by exact Hw.
    rewrite IH by assumption.
    unfold words_of, parse_outputs. cbn [map app fst].
    destruct fw; [reflexivity | ].
    rewrite <- app_assoc. reflexivity.
Qed.

Lemma parse_input_layout (pre : nat) (ws : list (string * nat)) (last : string)
    (command : string) (args : list string) :
  Forall (fun wn => word (fst wn) = true) ws ->
  last = EmptyString \/ word last = true ->
  parse_input (spaces pre +:+ layout ws last) command args
  = match words_of ws last with
    | [] => (command, args)
    | c :: rest => (c, args ++ rest)
    end.
Proof.
  intros Hws Hlast.
  change (parse_input (spaces pre +:+ layout ws last) command args)
    with (parse_input_end (parse_input_loop (spaces pre +:+ layout ws last)
                             EmptyString true command args)).
  rewrite parse_input_loop_spaces, parse_input_loop_layout; [reflexivity | exact Hws | ].
  destruct Hlast as [-> | Hlast]; [reflexivity | apply word_no_space; exact Hlast].
Qed.

(** Every line is laid out from words. *)
Lemma line_layout (line : string) :
  exists pre ws last,
    line = spaces pre +:+ layout ws last /\
    Forall (fun wn => word (fst wn) = true) ws /\
    (last = EmptyString \/ word last = true).
Proof.
  induction line as [ | c line (pre & ws & last & -> & Hws & Hlast)].
  - exists 0%nat, [], EmptyString. split; [reflexivity | ]. split; [constructor | tauto].
  - destruct (Ascii.eqb c " ") eqn:Hc.
    + apply Ascii.eqb_eq in Hc. subst c.
      exists (S pre), ws, last. split; [reflexivity | tauto].
    + assert (Hone : forall s, no_space s = true -> word (String c s) = true).
      { intros s Hs. unfold word. cbn [str_empty negb no_space]. rewrite Hc, Hs. reflexivity. }
      destruct pre as [ | pre].
      * destruct ws as [ | [w n] ws].
        -- exists 0%nat, [], (String c last). split; [reflexivity | ].
           split; [constructor | ]. right. apply Hone.
           destruct Hlast as [-> | Hlast]; [reflexivity | apply word_no_space; exact Hlast].
        -- inversion Hws as [ | ? ? Hw Hrest]; subst. cbn [fst] in Hw.
           exists 0%nat, ((String c w, n) :: ws), last. split; [reflexivity | ].
           split; [ | exact Hlast].
           constructor; [ | exact Hrest]. apply Hone, word_no_space, Hw.
      * exists 0%nat, ((String c EmptyString, pre) :: ws), last.
        split; [reflexivity | ]. split; [ | exact Hlast].
        constructor; [ | exact Hws]. apply Hone. reflexivity.
Qed.

Lemma words_of_word (ws : list (string * nat)) (last : string) :
  Forall (fun wn => word (fst wn) = true) ws ->
  last = EmptyString \/ word last = true ->
  Forall (fun a => word a = true) (words_of ws last).
Proof.
  intros Hws Hlast. unfold words_of. apply list.Forall_app. split.
  - apply list.Forall_fmap. exact Hws.
  - destruct Hlast as [-> | Hlast]; [constructor | ].
    rewrite (word_not_empty last Hlast). constructor; [exact Hlast | constructor].
Qed.

(** ** The text of INSERT, UPDATE and SNAPSHOT *)

Lemma main_message_loop_spec (args : list string) :
  Z.of_nat (length args) < 2 ^ 64 ->
  forall (k fuel i : nat) (message : string),
    (i + k = length args)%nat -> (k < fuel)%nat ->
    main_message_loop fuel args (Z.of_nat i) message
    = Some (message +:+ join_words (drop i args)).
Proof.
  intros Hsize. induction k as [ | k IH]; intros fuel i message Hk Hfuel;
    (destruct fuel as [ | fuel]; [lia | ]); cbn [main_message_loop].
  - replace (Z.of_nat i <? Z.of_nat (length args)) with false
      by (symmetry; apply Z.ltb_ge; lia).
    rewrite drop_ge by lia. cbn [join_words]. rewrite string_app_nil_r. reflexivity.
  - replace (Z.of_nat i <? Z.of_nat (length args)) with true
      by (symmetry; apply Z.ltb_lt; lia).
    rewrite Nat2Z.id.
    destruct (lookup_lt_is_Some_2 args i) as [a Ha]; [lia | ].
    rewrite Ha. cbn [mbind option_bind].
    rewrite (to_size_t_id (Z.of_nat (length args) - 1)) by lia.
    rewrite (to_size_t_id (Z.of_nat i + 1)) by lia.
    replace (Z.of_nat i + 1) with (Z.of_nat (S i)) by lia.
    rewrite (IH fuel (S i)) by lia.
    rewrite (drop_S args a i Ha). cbn [join_words].
    destruct (drop (S i) args) as [ | b rest] eqn:Ed.
    + assert (Hlen : length (drop (S i) args) = 0%nat) by (rewrite Ed; reflexivity).
      rewrite length_drop in Hlen.
      replace (Z.of_nat i <? Z.of_nat (length args) - 1) with false
        by (symmetry; apply Z.ltb_ge; lia).
      cbn [join_words]. rewrite string_app_nil_r. reflexivity.
    + assert (Hlen : length (drop (S i) args) = S (length rest)) by (rewrite Ed; reflexivity).
      rewrite length_drop in Hlen.
      replace (Z.of_nat i <? Z.of_nat (length args) - 1) with true
        by (symmetry; apply Z.ltb_lt; lia).
      rewrite !string_app_assoc. reflexivity.
Qed.

(** ** main: the dispatch *)

Ltac reduce_dispatch :=
  cbn [String.eqb Ascii.eqb Bool.eqb andb orb negb length Nat.eqb Nat.leb].

Lemma not_command (command c : string) :
  command ∉ commands -> c ∈ commands -> String.eqb command c = false.
Proof. intros Hout Hc. apply String.eqb_neq. intros ->. contradiction. Qed.

Ltac in_commands := apply list_elem_of_In; simpl; tauto.

Lemma main_iteration_rejected (stoi : string -> stoi_result) (line command : string)
    (args : list string) (fs : FileSystem) (w : World) :
  str_empty line = false ->
  parse_input line EmptyString [] = (command, args) ->
  rejected command args ->
  main_iteration stoi line fs w = Some (Continue, fs, say unknown_text w).
Proof.
  intros Hl Hp Hrej. unfold main_iteration. rewrite Hl, Hp.
  destruct Hrej as [Hout | [[Hin Hlen] | [[Hin Hlen] | [-> Hlen]]]].
  - rewrite !(not_command command _ Hout) by in_commands. reflexivity.
  - repeat (apply elem_of_cons in Hin; destruct Hin as [-> | Hin]);
      [ | | | apply elem_of_nil in Hin; contradiction];
      (destruct args as [ | a0 [ | a1 args]]; [ | simpl in Hlen; lia | ]);
      reflexivity.
  - repeat (apply elem_of_cons in Hin; destruct Hin as [-> | Hin]);
      [ | | | apply elem_of_nil in Hin; contradiction];
      (destruct args as [ | a0 [ | a1 args]]; [ | | simpl in Hlen; lia]);
      reflexivity.
  - destruct args as [ | a0 [ | a1 [ | a2 args]]];
      [reflexivity | | | reflexivity];
      destruct Hlen as [Hlen | Hlen]; try discriminate; simpl in Hlen; lia.
Qed.

(** The lines the dispatch accepts, by what they run. *)
Lemma main_iteration_create stoi line name fs w :
  str_empty line = false ->
  parse_input line EmptyString [] = ("CREATE"%string, [name]) ->
  main_iteration stoi line fs w = (FileSystem.create name ;; ret Continue)%cpp fs w.
Proof. intros Hl Hp. unfold main_iteration. rewrite Hl, Hp. reflexivity. Qed.

Lemma main_iteration_read stoi line name fs w :
  str_empty line = false ->
  parse_input line EmptyString [] = ("READ"%string, [name]) ->
  main_iteration stoi line fs w
  = (text <- FileSystem.read name ;; print (text +:+ NL) ;; ret Continue)%cpp fs w.
Proof. intros Hl Hp. unfold main_iteration. rewrite Hl, Hp. reflexivity. Qed.

Lemma main_iteration_history stoi line name fs w :
  str_empty line = false ->
  parse_input line EmptyString [] = ("HISTORY"%string, [name]) ->
  main_iteration stoi line fs w
  = (text <- FileSystem.history name ;; print text ;; ret Continue)%cpp fs w.
Proof. intros Hl Hp. unfold main_iteration. rewrite Hl, Hp. reflexivity. Qed.

Lemma bind_ret_tt {St A} (m : M St unit) (k : M St A) (s : St) (w : World) :
  (m ;; ret tt ;; k)%cpp s w = (m ;; k)%cpp s w.
Proof. unfold bind, ret. destruct (m s w) as [[[[] s'] w'] | ]; reflexivity. Qed.

Lemma main_iteration_text stoi line command name (text_words : list string) fs w :
  str_empty line = false ->
  parse_input line EmptyString [] = (command, name :: text_words) ->
  text_words <> [] ->
  Z.of_nat (length text_words) < 2 ^ 63 ->
  (command = "INSERT"%string ->
   main_iteration stoi line fs w
   = (FileSystem.insert name (join_words text_words) ;; ret Continue)%cpp fs w) /\
  (command = "UPDATE"%string ->
   main_iteration stoi line fs w
   = (FileSystem.update name (join_words text_words) ;; ret Continue)%cpp fs w) /\
  (command = "SNAPSHOT"%string ->
   main_iteration stoi line fs w
   = (FileSystem.snapshot name (join_words text_words) ;; ret Continue)%cpp fs w).
Proof.
  intros Hl Hp Hne Hsize.
  assert (Hmsg : main_message_loop (length (name :: text_words)) (name :: text_words) 1
                   EmptyString = Some (join_words text_words)).
  { assert (Hs : Z.of_nat (length (name :: text_words)) < 2 ^ 64) by (simpl length; lia).
    exact (main_message_loop_spec (name :: text_words) Hs
             (length text_words) (length (name :: text_words)) 1%nat EmptyString
             eq_refl (Nat.lt_succ_diag_r _)). }
  destruct text_words as [ | t rest]; [congruence | ].
  unfold main_iteration. rewrite Hl, Hp.
  split; [ | split]; intros ->; reduce_dispatch;
    unfold bind at 1; unfold lift at 1; cbn [lookup list_lookup];
    unfold bind at 1; unfold lift at 1;
    change (S (S (length rest))) with (length (name :: t :: rest));
    rewrite Hmsg.
  - unfold bind, ret.
    destruct (FileSystem.insert _ _ fs w) as [[[[] fs'] w'] | ]; reflexivity.
  - unfold bind, ret.
    destruct (FileSystem.update _ _ fs w) as [[[[] fs'] w'] | ]; reflexivity.
  - unfold bind, ret.
    destruct (FileSystem.snapshot _ _ fs w) as [[[[] fs'] w'] | ]; reflexivity.
Qed.

Lemma main_iteration_rollback stoi line name (ids : list string) fs w :
  str_empty line = false ->
  parse_input line EmptyString [] = ("ROLLBACK"%string, name :: ids) ->
  (length ids <= 1)%nat ->
  main_iteration stoi line fs w
  = (match ids with
     | [] => FileSystem.rollback name (-1)
     | id :: _ =>
         match stoi id with
         | stoi_value versionId => FileSystem.rollback name versionId
         | stoi_invalid_argument =>
             print ("Error: Invalid version ID for ROLLBACK." +:+ NL)
         | stoi_out_of_range => abort
         end
     end ;; ret Continue)%cpp fs w.
Proof.
  intros Hl Hp Hlen. unfold main_iteration. rewrite Hl, Hp.
  destruct ids as [ | id [ | id' ids]]; [reflexivity | | simpl in Hlen; lia].
  reduce_dispatch. unfold bind at 1. unfold bind at 1. unfold lift at 1.
  cbn [lookup list_lookup]. destruct (stoi id); reflexivity.
Qed.

Lemma main_iteration_ranking stoi line command (args : list string) fs w :
  str_empty line = false ->
  parse_input line EmptyString [] = (command, args) ->
  (command = "RECENT_FILES"%string ->
   main_iteration stoi line fs w
   = (num <- match args with
             | [] => ret (-1)
             | a :: _ =>
                 match stoi a with
                 | stoi_value n => ret n
                 | stoi_invalid_argument =>
                     print ("Error: Invalid number. Showing all by default." +:+ NL) ;;
                     ret (-1)
                 | stoi_out_of_range => abort
                 end
             end ;;
      text <- FileSystem.recentFiles num ;; print text ;; ret Continue)%cpp fs w) /\
  (command = "BIGGEST_TREES"%string ->
   main_iteration stoi line fs w
   = (num <- match args with
             | [] => ret (-1)
             | a :: _ =>
                 match stoi a with
                 | stoi_value n => ret n
                 | stoi_invalid_argument =>
                     print ("Error: Invalid number. Showing all by default." +:+ NL) ;;
                     ret (-1)
                 | stoi_out_of_range => abort
                 end
             end ;;
      text <- FileSystem.biggestTrees num ;; print text ;; ret Continue)%cpp fs w).
Proof.
  intros Hl Hp. unfold main_iteration. rewrite Hl, Hp.
  split; intros ->; reduce_dispatch;
    (destruct args as [ | a rest]; cbn [negb];
     [ | unfold bind at 1; unfold bind at 1; unfold lift at 1;
         cbn [lookup list_lookup]; destruct (stoi a) as [n | | ]; [ | | reflexivity]]);
    unfold bind, ret, print;
    match goal with
    | |- context [FileSystem.recentFiles ?n ?s ?v] =>
        destruct (FileSystem.recentFiles n s v) as [[[text fs'] w'] | ]
    | |- context [FileSystem.biggestTrees ?n ?s ?v] =>
        destruct (FileSystem.biggestTrees n s v) as [[[text fs'] w'] | ]
    end; reflexivity.
Qed.

Lemma main_iteration_exit stoi line command (args : list string) fs w :
  str_empty line = false ->
  parse_input line EmptyString [] = (command, args) ->
  command = "EXIT"%string \/ command = "QUIT"%string ->
  main_iteration stoi line fs w = Some (Break, fs, say exiting_text w).
Proof.
  intros Hl Hp Hc. unfold main_iteration. rewrite Hl, Hp.
  destruct Hc as [-> | ->]; reflexivity.
Qed.

(** ** main: every line returns *)

Lemma string_length_app (s t : string) :
  String.length (s +:+ t) = (String.length s + String.length t)%nat.
Proof. induction s as [ | c s IH]; [reflexivity | ]. rewrite append_cons. simpl. lia. Qed.

Lemma layout_length (ws : list (string * nat)) (last : string) :
  Forall (fun wn => word (fst wn) = true) ws ->
  (length (words_of ws last) <= String.length (layout ws last))%nat.
Proof.
  intros Hws. unfold words_of. rewrite length_app, length_map.
  induction Hws as [ | [w n] ws Hw Hws IH]; cbn [layout length].
  - destruct last; simpl; lia.
  - cbn [fst] in Hw. apply word_not_empty in Hw.
    rewrite !string_length_app. destruct w; [discriminate | ]. simpl in *. lia.
Qed.

(** There are no more arguments than characters. *)
Lemma args_count (line command : string) (args : list string) :
  parse_input line EmptyString [] = (command, args) ->
  (length args <= String.length line)%nat.
Proof.
  destruct (line_layout line) as (pre & ws & last & -> & Hws & Hlast).
  rewrite parse_input_layout by assumption.
  pose proof (layout_length ws last Hws) as Hlen.
  rewrite string_length_app.
  destruct (words_of ws last) as [ | c rest]; intros [= <- <-]; simpl in *; lia.
Qed.

Lemma stoi_int_decimal : stoi_int decimal_stoi.
Proof.
  intros s n. unfold decimal_stoi.
  destruct (match s with
            | String "-" rest => (-1, rest)
            | String "+" rest => (1, rest)
            | _ => (1, s)
            end) as [sign body].
  destruct body as [ | c body]; [discriminate | ].
  destruct (digit c); [ | discriminate].
  cbv zeta. destruct (_ && _) eqn:E; [ | discriminate].
  intros [= <-]. apply andb_true_iff in E. destruct E as [E1 E2].
  apply Z.leb_le in E1, E2. split; assumption.
Qed.

Section MainFacts.
Variable stoi : string -> stoi_result.
Hypothesis stoi_is_int : stoi_int stoi.

Ltac stays Hwf Hroom Hok :=
  eexists _, _, _; split;
  [reflexivity | split; [exact Hwf | split; [apply room_weaken; exact Hroom | exact Hok]]].

Ltac calls c k fs w Hwf Hroom Hok :=
  let fs' := fresh "fs'" in
  let w' := fresh "w'" in
  let Hrun := fresh "Hrun" in
  let Hwf' := fresh "Hwf'" in
  let Hroom' := fresh "Hroom'" in
  let Hstep := fresh "Hstep" in
  destruct (perform_store_step c k fs w Hwf Hroom)
    as (fs' & w' & Hrun & Hwf' & Hroom' & Hstep);
  cbn [perform] in Hrun; unfold bind at 1; rewrite Hrun;
  eexists _, _, _; split;
  [reflexivity
  | split; [exact Hwf'
           | split; [exact Hroom' | exact (store_step_ok _ fs fs' Hwf Hok Hstep)]]].

Ltac rejects Hl Hp Hwf Hroom Hok :=
  right; split;
  [ reflexivity
  | rewrite (main_iteration_rejected stoi _ _ _ _ _ Hl Hp)
      by (unfold rejected;
          first [ left; assumption
                | right; left; split; [in_commands | simpl; lia]
                | right; right; left; split; [in_commands | simpl; lia]
                | right; right; right; split;
                  [reflexivity | first [left; reflexivity | right; simpl; lia]] ]);
    stays Hwf Hroom Hok ].

Lemma main_iteration_safe (line : string) (k : nat) (fs : FileSystem) (w : World) :
  Z.of_nat (String.length line) < 2 ^ 63 ->
  fs_wf fs -> room (S k) fs -> store_ok fs ->
  (overflows stoi line = true /\ main_iteration stoi line fs w = None) \/
  (overflows stoi line = false /\
   exists how fs' w',
     main_iteration stoi line fs w = Some (how, fs', w') /\
     fs_wf fs' /\ room k fs' /\ store_ok fs').
Proof.
  intros Hsize Hwf Hroom Hok.
  destruct (str_empty line) eqn:Hl.
  { destruct line; [ | discriminate]. right. split; [reflexivity | ]. stays Hwf Hroom Hok. }
  unfold overflows.
  destruct (parse_input line EmptyString []) as [command args] eqn:Hp.
  pose proof (args_count line command args Hp) as Hcount.
  destruct (decide (command ∈ commands)) as [Hin | Hout].
  2: { rewrite !(not_command command _ Hout) by in_commands.
       right. split; [reflexivity | ].
       rewrite (main_iteration_rejected stoi _ _ _ _ _ Hl Hp) by (left; exact Hout).
       stays Hwf Hroom Hok. }
  unfold commands in Hin.
  repeat (apply elem_of_cons in Hin; destruct Hin as [-> | Hin]);
    [ | | | | | | | | | | | apply elem_of_nil in Hin; contradiction]; reduce_dispatch.
  - (* CREATE *)
    destruct args as [ | name [ | a1 args]];
      [rejects Hl Hp Hwf Hroom Hok | | rejects Hl Hp Hwf Hroom Hok].
    right. split; [reflexivity | ].
    rewrite (main_iteration_create stoi _ _ _ _ Hl Hp).
    calls (Create name) k fs w Hwf Hroom Hok.
  - (* READ *)
    destruct args as [ | name [ | a1 args]];
      [rejects Hl Hp Hwf Hroom Hok | | rejects Hl Hp Hwf Hroom Hok].
    right. split; [reflexivity | ].
    destruct (read_history_frame name fs w Hwf) as [[text Hr] _].
    rewrite (main_iteration_read stoi _ _ _ _ Hl Hp). unfold bind at 1. rewrite Hr.
    stays Hwf Hroom Hok.
  - (* INSERT *)
    destruct args as [ | name [ | t rest]];
      [rejects Hl Hp Hwf Hroom Hok | rejects Hl Hp Hwf Hroom Hok | ].
    right. split; [reflexivity | ].
    destruct (main_iteration_text stoi line _ name (t :: rest) fs w Hl Hp)
      as (Hrun0 & _ & _); [discriminate | simpl length in *; lia | ].
    rewrite (Hrun0 eq_refl).
    calls (Insert name (join_words (t :: rest))) k fs w Hwf Hroom Hok.
  - (* UPDATE *)
    destruct args as [ | name [ | t rest]];
      [rejects Hl Hp Hwf Hroom Hok | rejects Hl Hp Hwf Hroom Hok | ].
    right. split; [reflexivity | ].
    destruct (main_iteration_text stoi line _ name (t :: rest) fs w Hl Hp)
      as (_ & Hrun0 & _); [discriminate | simpl length in *; lia | ].
    rewrite (Hrun0 eq_refl).
    calls (Update name (join_words (t :: rest))) k fs w Hwf Hroom Hok.
  - (* SNAPSHOT *)
    destruct args as [ | name [ | t rest]];
      [rejects Hl Hp Hwf Hroom Hok | rejects Hl Hp Hwf Hroom Hok | ].
    right. split; [reflexivity | ].
    destruct (main_iteration_text stoi line _ name (t :: rest) fs w Hl Hp)
      as (_ & _ & Hrun0); [discriminate | simpl length in *; lia | ].
    rewrite (Hrun0 eq_refl).
    calls (Snapshot name (join_words (t :: rest))) k fs w Hwf Hroom Hok.
  - (* ROLLBACK *)
    destruct args as [ | name [ | id [ | a2 args]]];
      [rejects Hl Hp Hwf Hroom Hok | | | rejects Hl Hp Hwf Hroom Hok].
    + right. split; [reflexivity | ].
      rewrite (main_iteration_rollback stoi _ name [] _ _ Hl Hp) by (simpl; lia).
      calls (Rollback name (-1)) k fs w Hwf Hroom Hok.
    + rewrite (main_iteration_rollback stoi _ name [id] _ _ Hl Hp) by (simpl; lia).
      destruct (stoi id) as [n | | ] eqn:Es; cbn [is_out_of_range orb].
      * right. split; [reflexivity | ].
        calls (Rollback name n) k fs w Hwf Hroom Hok.
      * right. split; [reflexivity | ]. stays Hwf Hroom Hok.
      * left. split; reflexivity.
  - (* HISTORY *)
    destruct args as [ | name [ | a1 args]];
      [rejects Hl Hp Hwf Hroom Hok | | rejects Hl Hp Hwf Hroom Hok].
    right. split; [reflexivity | ].
    destruct (read_history_frame name fs w Hwf) as [_ [text Hr]].
    rewrite (main_iteration_history stoi _ _ _ _ Hl Hp). unfold bind at 1. rewrite Hr.
    stays Hwf Hroom Hok.
  - (* RECENT_FILES *)
    destruct (main_iteration_ranking stoi line _ args fs w Hl Hp) as [Hrun0 _].
    rewrite (Hrun0 eq_refl).
    destruct args as [ | a rest].
    + right. split; [reflexivity | ].
      destruct (ranking_total fs w (-1) Hwf) as [[text Hr] _];
        [unfold INT_MIN, INT_MAX; lia | ].
      unfold bind at 1. unfold ret at 1. unfold bind at 1. rewrite Hr.
      stays Hwf Hroom Hok.
    + destruct (stoi a) as [n | | ] eqn:Es; cbn [is_out_of_range].
      * right. split; [reflexivity | ].
        destruct (ranking_total fs w n Hwf (stoi_is_int _ _ Es)) as [[text Hr] _].
        unfold bind at 1. unfold ret at 1. unfold bind at 1. rewrite Hr.
        stays Hwf Hroom Hok.
      * right. split; [reflexivity | ].
        destruct (ranking_total fs
                    (say ("Error: Invalid number. Showing all by default." +:+ NL) w)
                    (-1) Hwf) as [[text Hr] _];
          [unfold INT_MIN, INT_MAX; lia | ].
        unfold bind at 1. unfold bind at 1. unfold print at 1. unfold ret at 1.
        unfold bind at 1. unfold say in Hr. rewrite Hr.
        stays Hwf Hroom Hok.
      * left. split; reflexivity.
  - (* BIGGEST_TREES *)
    destruct (main_iteration_ranking stoi line _ args fs w Hl Hp) as [_ Hrun0].
    rewrite (Hrun0 eq_refl).
    destruct args as [ | a rest].
    + right. split; [reflexivity | ].
      destruct (ranking_total fs w (-1) Hwf) as [_ [text Hr]];
        [unfold INT_MIN, INT_MAX; lia | ].
      unfold bind at 1. unfold ret at 1. unfold bind at 1. rewrite Hr.
      stays Hwf Hroom Hok.
    + destruct (stoi a) as [n | | ] eqn:Es; cbn [is_out_of_range].
      * right. split; [reflexivity | ].
        destruct (ranking_total fs w n Hwf (stoi_is_int _ _ Es)) as [_ [text Hr]].
        unfold bind at 1. unfold ret at 1. unfold bind at 1. rewrite Hr.
        stays Hwf Hroom Hok.
      * right. split; [reflexivity | ].
        destruct (ranking_total fs
                    (say ("Error: Invalid number. Showing all by default." +:+ NL) w)
                    (-1) Hwf) as [_ [text Hr]];
          [unfold INT_MIN, INT_MAX; lia | ].
        unfold bind at 1. unfold bind at 1. unfold print at 1. unfold ret at 1.
        unfold bind at 1. unfold say in Hr. rewrite Hr.
        stays Hwf Hroom Hok.
      * left. split; reflexivity.
  - (* EXIT *)
    right. split; [destruct args as [ | ? [ | ? [ | ? ?]]]; reflexivity | ].
    rewrite (main_iteration_exit stoi _ _ _ _ _ Hl Hp) by (left; reflexivity).
    stays Hwf Hroom Hok.
  - (* QUIT *)
    right. split; [destruct args as [ | ? [ | ? [ | ? ?]]]; reflexivity | ].
    rewrite (main_iteration_exit stoi _ _ _ _ _ Hl Hp) by (right; reflexivity).
    stays Hwf Hroom Hok.
Qed.

Lemma main_loop_cons (line : string) (rest : list string) (fs : FileSystem) (w : World) :
  main_loop stoi (line :: rest) fs w =
    match main_iteration stoi line fs (say "> " w) with
    | Some (Continue, fs1, w1) => main_loop stoi rest fs1 w1
    | Some (Break, fs1, w1) => Some (tt, fs1, w1)
    | None => None
    end.
Proof.
  cbn [main_loop]. unfold bind at 1. unfold print at 1. fold (say "> " w).
  unfold bind at 1.
  destruct (main_iteration stoi line fs _) as [[[[ | ] fs1] w1] | ]; reflexivity.
Qed.

Lemma main_loop_safe (cin : list string) :
  forall (fs : FileSystem) (w : World),
    fs_wf fs -> room (length cin) fs -> store_ok fs ->
    Forall (fun line => Z.of_nat (String.length line) < 2 ^ 63 /\
                        overflows stoi line = false) cin ->
    exists fs' w', main_loop stoi cin fs w = Some (tt, fs', w') /\
                   fs_wf fs' /\ store_ok fs'.
Proof.
  induction cin as [ | line cin IH]; intros fs w Hwf Hroom Hok Hcin.
  - exists fs, (say "> " w). split; [reflexivity | split; assumption].
  - inversion Hcin as [ | ? ? [Hsize Hover] Hrest]; subst.
    destruct (main_iteration_safe line (length cin) fs (say "> " w) Hsize Hwf Hroom Hok)
      as [[Hover' _] | (_ & how & fs1 & w1 & Hrun & Hwf1 & Hroom1 & Hok1)]; [congruence | ].
    rewrite main_loop_cons, Hrun.
    destruct how.
    + apply IH; assumption.
    + exists fs1, w1. split; [reflexivity | split; assumption].
Qed.

Lemma main_loop_stops (line : string) :
  exits line = true ->
  forall (pre post : list string) (fs : FileSystem) (w : World),
    main_loop stoi (pre ++ line :: post) fs w = main_loop stoi (pre ++ [line]) fs w.
Proof.
  intros Hexit. unfold exits in Hexit. apply andb_true_iff in Hexit.
  destruct Hexit as [Hl Hc]. apply negb_true_iff in Hl.
  destruct (parse_input line EmptyString []) as [command args] eqn:Hp. cbn [fst] in Hc.
  assert (Hrun : forall fs w, main_iteration stoi line fs w
                              = Some (Break, fs, say exiting_text w)).
  { intros fs w. apply (main_iteration_exit stoi line command args fs w Hl Hp).
    apply orb_true_iff in Hc. destruct Hc as [Hc | Hc]; apply String.eqb_eq in Hc; tauto. }
  induction pre as [ | l pre IH]; intros post fs w; cbn [app];
    rewrite !main_loop_cons.
  - rewrite !Hrun. reflexivity.
  - destruct (main_iteration stoi l fs _) as [[[[ | ] fs1] w1] | ];
      [ | reflexivity | reflexivity].
    apply IH.
Qed.

End MainFacts.

Lemma words_of_length (ws : list (string * nat)) (last : string) :
  (length (words_of ws last) <= S (length ws))%nat.
Proof.
  unfold words_of. rewrite length_app, length_map.
  destruct (str_empty last); simpl; lia.
Qed.

(** Words laid out with single spaces are the joined words. *)
Lemma layout_join (ws : list (string * nat)) (last : string) :
  Forall (fun wn => snd wn = 0%nat) ws -> str_empty last = false ->
  layout ws last = join_words (words_of ws last).
Proof.
  intros Hws Hlast. unfold words_of. rewrite Hlast.
  induction Hws as [ | [w n] ws Hn Hws IH]; [reflexivity | ].
  cbn [snd] in Hn. subst n. cbn [layout map app fst join_words].
  rewrite IH. destruct (map fst ws ++ [last]) eqn:E; [ | reflexivity].
  destruct (map fst ws); discriminate.
Qed.

(** [main] agrees with the ROLLBACK branch taken on its own. *)
Lemma main_ROLLBACK_agrees (stoi : string -> stoi_result) (line : string)
    (args : list string) (fs : FileSystem) (w : World) :
  str_empty line = false ->
  parse_input line EmptyString [] = ("ROLLBACK"%string, args) ->
  overflows stoi line = false ->
  main_iteration stoi line fs w
  = (main_ROLLBACK (fun s => match stoi s with
                             | stoi_value n => Some n
                             | _ => None
                             end) args ;; ret Continue)%cpp fs w.
Proof.
  intros Hl Hp Hover. unfold overflows in Hover. rewrite Hp in Hover.
  destruct args as [ | name [ | id [ | a2 args]]].
  - rewrite (main_iteration_rejected stoi _ _ _ _ _ Hl Hp); [reflexivity | ].
    right; right; right. split; [reflexivity | left; reflexivity].
  - rewrite (main_iteration_rollback stoi _ name [] _ _ Hl Hp) by (simpl; lia).
    reflexivity.
  - rewrite (main_iteration_rollback stoi _ name [id] _ _ Hl Hp) by (simpl; lia).
    unfold main_ROLLBACK. simpl in Hover.
    destruct (stoi id); [reflexivity | reflexivity | discriminate].
  - rewrite (main_iteration_rejected stoi _ _ _ _ _ Hl Hp); [reflexivity | ].
    right; right; right. split; [reflexivity | right; simpl; lia].
Qed.

Lemma main_run (stoi : string -> stoi_result) (cin : list string) (w : World) :
  main stoi cin w =
    match main_loop stoi cin FileSystem.new
            (say ("Enter 'QUIT' or 'EXIT' to terminate." +:+ NL)
               (say ("--- Time-Travelling File System ---" +:+ NL) w)) with
    | Some (_, fs, w') =>
        match delete_FileSystem fs with
        | Some _ => Some (0, fs, w')
        | None => None
        end
    | None => None
    end.
Proof.
  unfold main. unfold bind at 1. unfold print at 1. unfold bind at 1. unfold print at 1.
  unfold bind at 1. unfold say. simpl.
  destruct (main_loop stoi cin FileSystem.new _) as [[[[] fs] w'] | ]; [ | reflexivity].
  unfold bind, gets, lift, ret. destruct (delete_FileSystem fs); reflexivity.
Qed.

Lemma sample_fs_store_ok : store_ok sample_fs.
Proof.
  assert (Hroom : room (length sample_calls) FileSystem.new)
    by (apply room_check; vm_compute; reflexivity).
  destruct (perform_all_store_ok sample_calls FileSystem.new sample_world
              new_fs_wf Hroom new_store_ok) as (fs' & w' & Hrun & _ & Hok).
  unfold sample_fs. rewrite Hrun. exact Hok.
Qed.

(** A check of an input that can be evaluated. *)
Lemma cin_check (stoi : string -> stoi_result) (cin : list string) :
  forallb (fun line => (Z.of_nat (String.length line) <? 2 ^ 63)
                       && negb (overflows stoi line)) cin = true ->
  Forall (fun line => Z.of_nat (String.length line) < 2 ^ 63 /\
                      overflows stoi line = false) cin.
Proof.
  intros Hb. apply list.Forall_forall. intros line Hin.
  rewrite forallb_forall in Hb. specialize (Hb line (proj1 (list_elem_of_In _ _) Hin)).
  apply andb_true_iff in Hb. destruct Hb as [H1 H2].
  split; [apply Z.ltb_lt; exact H1 | apply negb_true_iff; exact H2].
Qed.

(** ** custom_hash on strings *)

Lemma wrap64_mod (x : Z) : wrap64 x mod 2 ^ 64 = x mod 2 ^ 64.
Proof.
  unfold wrap64. rewrite Zminus_mod_idemp_l. f_equal. lia.
Qed.

Lemma char_code_range (c : ascii) : -128 <= char_code c <= 127.
Proof.
  unfold char_code. pose proof (N_ascii_bounded c) as Hb.
  destruct (Z.of_N (N_of_ascii c) <? 128) eqn:E;
    [apply Z.ltb_lt in E | apply Z.ltb_ge in E]; lia.
Qed.

Lemma custom_hash_string_loop_spec (key : string) :
  forall hash_val p_pow k,
    0 <= k -> 0 <= hash_val < 2 ^ 64 ->
    p_pow mod 2 ^ 64 = 31 ^ k mod 2 ^ 64 ->
    custom_hash_string_loop key hash_val p_pow
    = (hash_val + polynomial key k) mod 2 ^ 64.
Proof.
  induction key as [ | c key IH]; intros h p k Hk Hh Hp; cbn [custom_hash_string_loop polynomial].
  - rewrite Z.add_0_r, Z.mod_small by exact Hh. reflexivity.
  - pose proof (char_code_range c) as Hc.
    rewrite (wrap32_id (char_code c - 97)) by (unfold INT_MIN, INT_MAX; lia).
    rewrite (wrap32_id (char_code c - 97 + 1)) by (unfold INT_MIN, INT_MAX; lia).
    set (a := char_code c - 97 + 1).
    assert (Ha : to_size_t (h + wrap64 (a * p)) mod 2 ^ 64 = (h + a * 31 ^ k) mod 2 ^ 64).
    { unfold to_size_t. rewrite Z.mod_mod by lia.
      rewrite <- Zplus_mod_idemp_r, wrap64_mod.
      rewrite <- Zmult_mod_idemp_r, Hp, Zmult_mod_idemp_r, Zplus_mod_idemp_r.
      reflexivity. }
    rewrite (IH _ _ (k + 1)).
    + rewrite <- Zplus_mod_idemp_l, Ha, Zplus_mod_idemp_l, Z.add_assoc. reflexivity.
    + lia.
    + unfold to_size_t. apply Z.mod_pos_bound. lia.
    + rewrite wrap64_mod, <- Zmult_mod_idemp_l, Hp, Zmult_mod_idemp_l.
      rewrite Z.pow_add_r by lia. reflexivity.
Qed.

(** ** History under the methods *)

Lemma history_text_world (w w' : World) (l : list VersionNode) :
  strftime_c w' = strftime_c w -> history_text w' l = history_text w l.
Proof.
  intros E. induction l as [ | n l IH]; [reflexivity | ].
  cbn [history_text]. unfold history_entry. rewrite E, IH. reflexivity.
Qed.

Lemma history_text_app (w : World) (l1 l2 : list VersionNode) :
  history_text w (l1 ++ l2) = history_text w l1 +:+ history_text w l2.
Proof.
  induction l1 as [ | n l1 IH]; [reflexivity | ].
  cbn [app history_text]. rewrite IH. symmetry. apply string_app_assoc.
Qed.

Lemma chain_unique (ns : list VersionNode) (p : nat) (l l' : list VersionNode) :
  chain_to_root ns p l -> chain_to_root ns p l' -> l = l'.
Proof.
  intros H. revert l'. induction H as [p n Hn Hpar | p n q l Hn Hpar Hc IH]; intros l' H'.
  - inversion H' as [p' n' Hn' Hpar' | p' n' q' l'' Hn' Hpar' Hc']; subst; congruence.
  - inversion H' as [p' n' Hn' Hpar' | p' n' q' l'' Hn' Hpar' Hc']; subst; [congruence | ].
    rewrite Hn in Hn'. injection Hn' as <-. rewrite Hpar in Hpar'. injection Hpar' as <-.
    f_equal. apply IH. exact Hc'.
Qed.

(** A chain only reads the nodes from its start down. *)
Lemma chain_below (ns ns' : list VersionNode) (p : nat) (l : list VersionNode) :
  (forall p n q, ns !! p = Some n -> parent n = Some q -> (q < p)%nat) ->
  chain_to_root ns p l ->
  (forall r, (r <= p)%nat -> ns' !! r = ns !! r) ->
  chain_to_root ns' p l.
Proof.
  intros Hpar H. induction H as [p n Hn Hp | p n q l Hn Hp Hc IH]; intros Hsame.
  - apply chain_root; [rewrite Hsame by lia; exact Hn | exact Hp].
  - pose proof (Hpar _ _ _ Hn Hp) as Hlt.
    apply (chain_step ns' p n q l); [rewrite Hsame by lia; exact Hn | exact Hp | ].
    apply IH. intros r Hr. apply Hsame. lia.
Qed.

(** The chain of a node whose record is replaced, the parent kept. *)
Lemma chain_replace_head (ns ns' : list VersionNode) (p : nat) (n n' : VersionNode)
    (tail : list VersionNode) :
  (forall p n q, ns !! p = Some n -> parent n = Some q -> (q < p)%nat) ->
  chain_to_root ns p (n :: tail) ->
  ns' !! p = Some n' -> parent n' = parent n ->
  (forall r, (r < p)%nat -> ns' !! r = ns !! r) ->
  chain_to_root ns' p (n' :: tail).
Proof.
  intros Hpar H Hn' Hp' Hsame.
  inversion H as [p0 n0 Hn Hp | p0 n0 q l Hn Hp Hc]; subst.
  - apply chain_root; [exact Hn' | congruence].
  - pose proof (Hpar _ _ _ Hn Hp) as Hlt.
    apply (chain_step ns' p n' q tail); [exact Hn' | congruence | ].
    apply (chain_below ns ns' q tail Hpar Hc). intros r Hr. apply Hsame. lia.
Qed.

Lemma chain_head (ns : list VersionNode) (p : nat) (n : VersionNode)
    (l : list VersionNode) :
  chain_to_root ns p l -> ns !! p = Some n -> exists tail, l = n :: tail.
Proof.
  intros H Hn. inversion H; subst; eexists; f_equal; congruence.
Qed.

(** The listing of a file whose active node is replaced by a record with
    the same parent. *)
Lemma history_with_node (f : File) (w w' : World) (n n' : VersionNode) (t : Z) :
  file_wf f -> nodes f !! active_version f = Some n ->
  version_id n' = version_id n -> parent n' = parent n ->
  strftime_c w' = strftime_c w ->
  exists tail,
    chain_to_root (nodes f) (active_version f) (n :: tail) /\
    File.history f w
    = Some (history_text w (List.filter isSnapshot (rev tail ++ [n])), f, w) /\
    let f' := File.set_last_modification_time t (with_node (active_version f) n' f) in
    File.history f' w'
    = Some (history_text w (List.filter isSnapshot (rev tail ++ [n'])), f', w').
Proof.
  intros Hwf Hn Hid Hpar Hw.
  pose proof (wf_active f Hwf) as Ha.
  destruct (history_run f w Hwf) as (chain & Hchain & Hrun).
  destruct (chain_head _ _ n _ Hchain Hn) as [tail ->].
  exists tail. split; [exact Hchain | ]. split; [exact Hrun | ]. cbv zeta.
  set (f' := File.set_last_modification_time t (with_node (active_version f) n' f)).
  assert (Hwf' : file_wf f').
  { apply set_last_modification_time_wf. apply (with_node_wf f n); assumption. }
  destruct (history_run f' w' Hwf') as (chain' & Hchain' & Hrun').
  assert (Hc : chain_to_root (nodes f') (active_version f') (n' :: tail)).
  { apply (chain_replace_head (nodes f) _ _ n n' tail (wf_parent f Hwf) Hchain).
    - simpl. apply list_lookup_insert_eq. exact Ha.
    - exact Hpar.
    - intros r Hr. simpl. apply list_lookup_insert_ne. simpl in Hr. lia. }
  rewrite (chain_unique _ _ _ _ Hchain' Hc) in Hrun'.
  rewrite Hrun'. rewrite (history_text_world w w') by exact Hw. reflexivity.
Qed.

Lemma history_branch (f : File) (w w' : World) (n : VersionNode) (c : string) (t t' : Z) :
  file_wf f -> total_versions f < INT_MAX ->
  nodes f !! active_version f = Some n ->
  strftime_c w' = strftime_c w ->
  exists listing,
    File.history f w = Some (listing, f, w) /\
    let f' := File.set_last_modification_time t' (branch_result c t n f) in
    File.history f' w' = Some (listing, f', w').
Proof.
  intros Hwf Hmax Hn Hw.
  pose proof (wf_active f Hwf) as Ha.
  destruct (history_run f w Hwf) as (chain & Hchain & Hrun).
  destruct (chain_head _ _ n _ Hchain Hn) as [tail ->].
  eexists. split; [exact Hrun | ]. cbv zeta.
  set (f' := File.set_last_modification_time t' (branch_result c t n f)).
  assert (Hwf' : file_wf f').
  { apply set_last_modification_time_wf, branch_result_wf; assumption. }
  destruct (history_run f' w' Hwf') as (chain' & Hchain' & Hrun').
  pose proof (branch_result_lookup c t n f) as Hl.
  set (new := mkVersionNode (total_versions f) c EmptyString t 0
                            (Some (active_version f)) []).
  assert (Hc : chain_to_root (nodes f') (active_version f')
                 (new :: File.push_back_child (length (nodes f)) n :: tail)).
  { apply (chain_step _ _ new (active_version f)).
    - unfold f'. change (nodes (File.set_last_modification_time ?x ?g)) with (nodes g).
      simpl active_version. rewrite (Hl _ Hn).
      destruct (decide _) as [E | E]; [lia | ].
      destruct (decide _) as [E' | E']; [reflexivity | congruence].
    - reflexivity.
    - apply (chain_replace_head (nodes f) _ _ n _ tail (wf_parent f Hwf) Hchain).
      + unfold f'. change (nodes (File.set_last_modification_time ?x ?g)) with (nodes g).
        rewrite (Hl _ Hn). destruct (decide _) as [E | E]; [reflexivity | congruence].
      + reflexivity.
      + intros r Hr. unfold f'.
        change (nodes (File.set_last_modification_time ?x ?g)) with (nodes g).
        rewrite (Hl _ Hn).
        destruct (decide _) as [E | E]; [lia | ].
        destruct (decide _) as [E' | E']; [lia | reflexivity]. }
  rewrite (chain_unique _ _ _ _ Hchain' Hc) in Hrun'.
  rewrite Hrun'. rewrite (history_text_world w w') by exact Hw.
  f_equal. f_equal. f_equal.
  cbn [rev]. rewrite <- !app_assoc. rewrite !List.filter_app, !history_text_app.
  f_equal. cbn [app List.filter].
  change (isSnapshot new) with false.
  change (isSnapshot (File.push_back_child (length (nodes f)) n)) with (isSnapshot n).
  destruct (isSnapshot n); cbn [history_text]; rewrite ?string_app_nil_r; reflexivity.
Qed.

(** * The claims *)



(** What [create] does at every clock reading.  On a taken name it
    reports that the file exists and leaves the repository as it is.  On a
    fresh name it adds one file under that name: its version count is 1
    and its only node has id 0, no parent and the message "Initial
    version"; the snapshot time of that node is the clock reading, so the
    node is a snapshot unless that reading is [0]; the repository stays
    well formed. *)
Theorem create_root (name : string) (fs : FileSystem) (w : World) :
  fs_wf fs ->
  Z.of_nat (length (HashMap.getValues (files fs))) + 1 < 2 ^ 30 ->
  (HashMap.containsKey (files fs) name = true ->
     FileSystem.create name fs w = Some (tt, fs, say (exists_text name) w)) /\
  (HashMap.containsKey (files fs) name = false ->
     exists fs' file_ptr f r,
       FileSystem.create name fs w = Some (tt, fs', say (created_text name) (tick (tick w))) /\
       fs_wf fs' /\
       HashMap.get (files fs') name = Some file_ptr /\
       file_store fs' !! file_ptr = Some f /\
       filename f = name /\
       total_versions f = 1 /\
       nodes f = [r] /\ active_version f = 0%nat /\ root f = 0%nat /\
       version_id r = 0 /\ parent r = None /\ content r = EmptyString /\
       message r = "Initial version"%string /\
       snapshot_timestamp r = now (tick w) /\
       (now (tick w) <> 0 -> isSnapshot r = true)).
Proof.
  intros Hwf Hroom. split; [apply create_taken | ].
  intros Hfree.
  destruct (create_fresh name fs w Hwf Hfree Hroom) as (hr & hb & Hrun & Hwf').
  eexists _, (length (file_store fs)), (new_file name w), _.
  split; [exact Hrun | ]. split; [exact Hwf' | ].
  split.
  { simpl. rewrite get_put by apply (fs_shape _ _ (fs_wf_struct fs Hwf)).
    destruct (decide (name = name)); [reflexivity | congruence]. }
  split.
  { simpl. rewrite lookup_app_r by lia. rewrite Nat.sub_diag. reflexivity. }
  repeat (split; [reflexivity | ]).
  intros Hclock. unfold isSnapshot. simpl.
  apply negb_true_iff, Z.eqb_neq. exact Hclock.
Qed.

Lemma create_root_witness :
  (exists fs',
     FileSystem.create "a" FileSystem.new sample_world
       = Some (tt, fs', say (created_text "a") (tick (tick sample_world))) /\
     fs_wf fs' /\
     exists f, file_store fs' !! 0%nat = Some f /\ total_versions f = 1) /\
  FileSystem.create "a" sample_fs sample_world
    = Some (tt, sample_fs, say (exists_text "a") sample_world).
Proof.
  destruct (create_root "a" FileSystem.new sample_world new_fs_wf) as [_ Hfresh].
  { vm_compute. reflexivity. }
  destruct (create_root "a" sample_fs sample_world sample_fs_wf) as [Htaken _].
  { vm_compute. reflexivity. }
  split.
  - destruct (Hfresh eq_refl)
      as (fs' & p & f & r & Hrun & Hwf & Hget & Hf & _ & Hcount & _).
    exists fs'. split; [exact Hrun | ]. split; [exact Hwf | ].
    exists f. split; [ | exact Hcount].
    assert (Hp : p = 0%nat).
    { assert (E : HashMap.get (files fs') "a"%string
                  = HashMap.get (files match FileSystem.create "a" FileSystem.new sample_world with
                                       | Some (_, s, _) => s
                                       | None => fs'
                                       end) "a"%string)
        by (rewrite Hrun; reflexivity).
      rewrite Hget in E. vm_compute in E. injection E as E. exact E. }
    rewrite <- Hp. exact Hf.
  - apply Htaken. vm_compute. reflexivity.
Defined.

(** C2. The root of a new file is not always a snapshot: [File::File]
    stores the clock reading as the snapshot time of the root, and
    [isSnapshot] takes the time [0] for "not a snapshot".  [create "z"] on
    the empty repository while the clock reads [0] reports the creation
    and adds the file with one node, of id 0, without parent and with the
    message "Initial version", but that node is not a snapshot: the
    history of the new file is empty, and the next insert rewrites the
    root in place, the version count staying at 1. *)
Theorem create_root_at_epoch :
  HashMap.containsKey (files FileSystem.new) "z"%string = false /\
  FileSystem.create "z" FileSystem.new epoch_world
  = Some (tt, epoch_fs, say (created_text "z") (tick (tick epoch_world))) /\
  HashMap.get (files epoch_fs) "z"%string = Some 0%nat /\
  option_map nodes (file_store epoch_fs !! 0%nat) = Some [epoch_root] /\
  option_map total_versions (file_store epoch_fs !! 0%nat) = Some 1 /\
  message epoch_root = "Initial version"%string /\
  snapshot_timestamp epoch_root = now (tick epoch_world) /\
  isSnapshot epoch_root = false /\
  FileSystem.history "z" epoch_fs epoch_world = Some (EmptyString, epoch_fs, epoch_world) /\
  exists fs' w' f',
    FileSystem.insert "z" "x" epoch_fs epoch_world = Some (tt, fs', w') /\
    file_store fs' !! 0%nat = Some f' /\
    total_versions f' = 1 /\
    map content (nodes f') = ["x"%string].
Proof.
  repeat (split; [vm_compute; reflexivity | ]).
  eexists _, _, _. split; [vm_compute; reflexivity | ].
  repeat split; vm_compute; reflexivity.
Qed.

(** C3. Rollback by an id other than [-1], the value the code keeps for
    "no id": it fails, printing nothing and changing nothing, when no node
    carries the id; it fails with the already-active report, the file
    unchanged, when the id is that of the active node; otherwise it
    succeeds and makes the node with that id active, wherever that node
    lies in the tree, and an immediate repeat is then refused as already
    active. *)
Theorem rollback_by_id (f : File) (w : World) (versionId : Z) (n : VersionNode) :
  file_wf f ->
  nodes f !! active_version f = Some n ->
  versionId <> -1 ->
  ((forall p m, nodes f !! p = Some m -> version_id m <> versionId) ->
     File.rollback versionId f w = Some (false, f, w)) /\
  (versionId = version_id n ->
     File.rollback versionId f w = Some (false, f, say already_active_text w)) /\
  (forall p m, nodes f !! p = Some m -> version_id m = versionId ->
     p <> active_version f ->
     File.rollback versionId f w = Some (true, File.set_active_version p f, w) /\
     File.rollback versionId (File.set_active_version p f) w =
       Some (false, File.set_active_version p f, say already_active_text w)).
Proof.
  intros Hwf Hn Hid.
  pose proof (rollback_id_run versionId f w n Hn Hid) as Hrun.
  split; [ | split].
  - intros Hnone. rewrite Hrun.
    destruct (versionId =? version_id n) eqn:E.
    + apply Z.eqb_eq in E. exfalso. apply (Hnone _ _ Hn). congruence.
    + destruct (HashMap.get (version_map f) versionId) as [p | ] eqn:Eg; [ | reflexivity].
      apply (wf_map f Hwf) in Eg. destruct Eg as [Hp ->].
      destruct (lookup_lt_is_Some_2 _ _ Hp) as [m Hm].
      exfalso. apply (Hnone _ _ Hm). apply (wf_ids f Hwf _ _ Hm).
  - intros ->. rewrite Hrun. rewrite Z.eqb_refl. reflexivity.
  - intros p m Hm Hv Hp.
    pose proof (wf_ids f Hwf _ _ Hm) as Hidp.
    pose proof (wf_ids f Hwf _ _ Hn) as Hida.
    split.
    + rewrite Hrun.
      destruct (versionId =? version_id n) eqn:E; [apply Z.eqb_eq in E; lia | ].
      assert (Hg : HashMap.get (version_map f) versionId = Some p).
      { apply (wf_map f Hwf). split; [eapply lookup_lt_Some; eassumption | lia]. }
      rewrite Hg. reflexivity.
    + rewrite (rollback_id_run versionId (File.set_active_version p f) w m Hm Hid).
      rewrite <- Hv, Z.eqb_refl. reflexivity.
Qed.

Lemma rollback_by_id_witness :
  File.rollback 2 sample_file sample_world
    = Some (true, File.set_active_version 2 sample_file, sample_world) /\
  File.rollback 2 (File.set_active_version 2 sample_file) sample_world
    = Some (false, File.set_active_version 2 sample_file,
            say already_active_text sample_world).
Proof.
  destruct (rollback_by_id sample_file sample_world 2 sample_active
              sample_file_wf sample_active_lookup ltac:(lia)) as (_ & _ & Hjump).
  apply (Hjump 2%nat sample_sibling).
  - vm_compute. reflexivity.
  - vm_compute. reflexivity.
  - vm_compute. discriminate.
Defined.

(** The supplied id [-1] is not looked up: no node of the sample file has
    the id [-1], its active node is node 3, and [rollback (-1)] succeeds
    all the same, making node 1, the parent of node 3, active. *)
Lemma rollback_by_id_counterexample :
  file_wf sample_file /\
  (forall p m, nodes sample_file !! p = Some m -> version_id m <> -1) /\
  active_version sample_file = 3%nat /\
  File.rollback (-1) sample_file sample_world
  = Some (true, File.set_active_version 1 sample_file, sample_world).
Proof.
  split; [exact sample_file_wf | ]. split.
  - intros p m Hm. pose proof (wf_ids _ sample_file_wf _ _ Hm) as Hid. lia.
  - split; vm_compute; reflexivity.
Qed.

(** What [snapshot] does at every clock reading.  On a mutable active
    node it succeeds: the node gets the message and the clock reading as
    its snapshot time, its content is kept, and the modification time of
    the file is set from the clock.  On a snapshot it only reports the
    refusal and the file is unchanged; so a second snapshot right after a
    successful one is refused, and leaves every node and every member as
    the first one left them, unless the clock reading of the first one
    was [0].  A refusal leaves the whole repository unchanged, analytics
    included. *)
Theorem snapshot_guard (f : File) (w : World) (msg : string) (n : VersionNode) :
  nodes f !! active_version f = Some n ->
  (isSnapshot n = false ->
     exists f' w' n',
       File.snapshot msg f w = Some (tt, f', w') /\
       active_version f' = active_version f /\
       nodes f' !! active_version f' = Some n' /\
       snapshot_timestamp n' = now w /\
       message n' = msg /\
       content n' = content n /\
       last_modification_time f' = now (tick w) /\
       (now w <> 0 ->
        forall msg', File.snapshot msg' f' w'
                     = Some (tt, f', say already_snapshotted_text w'))) /\
  (isSnapshot n = true ->
     File.snapshot msg f w = Some (tt, f, say already_snapshotted_text w) /\
     forall fs name p,
       fs_wf fs -> HashMap.get (files fs) name = Some p ->
       file_store fs !! p = Some f ->
       FileSystem.snapshot name msg fs w
       = Some (tt, fs, say already_snapshotted_text w)).
Proof.
  intros Hn. split.
  - intros Hs. pose proof (lookup_lt_Some _ _ _ Hn) as Hlt.
    eexists _, _, _. split; [apply (snapshot_mutable _ _ _ n Hn Hs) | ].
    assert (Hn' : nodes (File.set_last_modification_time (now (tick w))
                    (with_node (active_version f)
                       (File.set_snapshot_timestamp (now w) (File.set_message msg n)) f))
                  !! active_version f
                  = Some (File.set_snapshot_timestamp (now w) (File.set_message msg n))).
    { simpl. apply list_lookup_insert_eq. exact Hlt. }
    split; [reflexivity | ]. split; [exact Hn' | ].
    repeat (split; [reflexivity | ]).
    intros Hnow msg'. apply (snapshot_snapshot _ _ _ _ Hn').
    unfold isSnapshot. simpl. apply negb_true_iff, Z.eqb_neq. exact Hnow.
  - intros Hs. split; [apply (snapshot_snapshot _ _ _ n Hn Hs) | ].
    intros fs name p Hwf Hget Hf.
    apply (fs_snapshot_refused name msg fs w p f n Hwf Hget Hf Hn Hs).
Qed.

Lemma snapshot_guard_witness :
  exists f' w',
    File.snapshot "v3" sample_file sample_world = Some (tt, f', w') /\
    File.snapshot "again" f' w' = Some (tt, f', say already_snapshotted_text w').
Proof.
  destruct (snapshot_guard sample_file sample_world "v3" sample_active
              sample_active_lookup) as [Hfirst _].
  destruct (Hfirst eq_refl) as (f' & w' & n' & Hrun & _ & _ & _ & _ & _ & _ & Hsecond).
  exists f', w'. split; [exact Hrun | ].
  apply Hsecond. vm_compute. discriminate.
Defined.

(** C4. A second snapshot in a row is not always refused: [snapshot]
    stores the clock reading as the snapshot time, and [isSnapshot] takes
    the time [0] for "not a snapshot".  On the sample file, whose active
    node is mutable, two snapshots in a row while the clock reads [0] both
    report that a snapshot was created; the second one replaces the
    message of the first, and the node is still not a snapshot.  The same
    happens in the session that creates a file and snapshots it twice
    within that second. *)
Theorem snapshot_twice_at_epoch :
  nodes sample_file !! active_version sample_file = Some sample_active /\
  isSnapshot sample_active = false /\
  (exists f1 w1 n1 f2 w2 n2,
     File.snapshot "m1" sample_file epoch_world = Some (tt, f1, w1) /\
     cout w1 = [snapshot_created_text "a"] /\
     nodes f1 !! active_version f1 = Some n1 /\
     message n1 = "m1"%string /\ isSnapshot n1 = false /\
     File.snapshot "m2" f1 w1 = Some (tt, f2, w2) /\
     cout w2 = [snapshot_created_text "a"; snapshot_created_text "a"] /\
     nodes f2 !! active_version f2 = Some n2 /\
     message n2 = "m2"%string /\ isSnapshot n2 = false /\
     f2 <> f1) /\
  (exists fs w,
     perform_all [Create "z"; Snapshot "z" "m1"; Snapshot "z" "m2"]
                 FileSystem.new epoch_world = Some (tt, fs, w) /\
     cout w = [created_text "z"; snapshot_created_text "z"; snapshot_created_text "z"] /\
     option_map (fun f => map message (nodes f)) (file_store fs !! 0%nat)
     = Some ["m2"%string]).
Proof.
  split; [vm_compute; reflexivity | ]. split; [reflexivity | ]. split.
  - eexists _, _, _, _, _, _.
    do 10 (split; [vm_compute; reflexivity | ]).
    vm_compute. discriminate.
  - eexists _, _. split; [vm_compute; reflexivity | ].
    split; vm_compute; reflexivity.
Qed.

(** C5. Rollback without an id (the default argument [-1]) makes the parent
    of the active node active when there is one, and exactly the root has
    none: at the root the call fails and the file is unchanged. *)
Theorem rollback_to_parent (f : File) (w : World) (n : VersionNode) :
  file_wf f ->
  nodes f !! active_version f = Some n ->
  (forall p, parent n = Some p ->
     File.rollback (-1) f w = Some (true, File.set_active_version p f, w)) /\
  (active_version f = root f ->
     parent n = None /\ File.rollback (-1) f w = Some (false, f, w)) /\
  (active_version f <> root f -> exists p, parent n = Some p).
Proof.
  intros Hwf Hn. pose proof (rollback_parent_run f w n Hn) as Hrun.
  split; [ | split].
  - intros p Hp. rewrite Hrun, Hp. reflexivity.
  - intros Hroot. rewrite (wf_root f Hwf) in Hroot. rewrite Hroot in Hn.
    pose proof (wf_root_parent f Hwf n Hn) as Hp.
    split; [exact Hp | ]. rewrite Hrun, Hp. reflexivity.
  - intros Hroot. rewrite (wf_root f Hwf) in Hroot.
    pose proof (wf_has_parent f Hwf _ _ Hn Hroot) as Hp.
    destruct (parent n) as [p | ]; [eauto | congruence].
Qed.

Lemma rollback_to_parent_witness :
  File.rollback (-1) sample_file sample_world
    = Some (true, File.set_active_version 1 sample_file, sample_world).
Proof.
  destruct (rollback_to_parent sample_file sample_world sample_active
              sample_file_wf sample_active_lookup) as (Hstep & _ & _).
  apply (Hstep 1%nat). vm_compute. reflexivity.
Defined.

(** C6. The history of a well-formed file is the text of exactly the
    snapshot nodes on the parent chain from the active node to the root,
    one line each with id, snapshot time and message, root first: the
    entry that comes from position [i] of the reversed chain is a node
    [i] parent links away from the root.  The call changes nothing. *)
Theorem history_oldest_first (f : File) (w : World) :
  file_wf f ->
  exists chain,
    chain_to_root (nodes f) (active_version f) chain /\
    File.history f w = Some (history_text w (List.filter isSnapshot (rev chain)), f, w) /\
    (forall i n, rev chain !! i = Some n ->
       exists q l, nodes f !! q = Some n /\ chain_to_root (nodes f) q l /\
                   length l = S i) /\
    (exists r, nodes f !! root f = Some r /\ rev chain !! 0%nat = Some r).
Proof.
  intros Hwf. destruct (history_run f w Hwf) as (chain & Hchain & Hrun).
  exists chain. split; [exact Hchain | ]. split; [exact Hrun | ]. split.
  - intros i n Hi.
    destruct (list_elem_of_split_length (rev chain) i n Hi) as (r1 & r2 & Erev & Hlen).
    assert (E : chain = rev r2 ++ n :: rev r1).
    { rewrite <- (rev_involutive chain), Erev, rev_app_distr. simpl.
      rewrite <- app_assoc. reflexivity. }
    destruct (chain_to_root_suffix _ _ _ Hchain _ _ _ E) as (q & Hq & Hsuf).
    exists q, (n :: rev r1). split; [exact Hq | ]. split; [exact Hsuf | ].
    simpl. rewrite length_rev. lia.
  - assert (Hlast : forall p l, chain_to_root (nodes f) p l ->
              exists r l', l = l' ++ [r] /\ parent r = None /\
                           exists q, nodes f !! q = Some r).
    { induction 1 as [p n Hn Hpar | p n q l Hn Hpar Hc IH].
      - exists n, []. eauto.
      - destruct IH as (r & l' & -> & Hr & Hq). exists r, (n :: l'). eauto. }
    destruct (Hlast _ _ Hchain) as (r & l' & -> & Hr & q & Hq).
    exists r. split.
    + rewrite (wf_root f Hwf).
      destruct (decide (q = 0%nat)) as [<- | Hne]; [exact Hq | ].
      exfalso. apply (wf_has_parent f Hwf _ _ Hq Hne Hr).
    + rewrite rev_app_distr. reflexivity.
Qed.

Lemma history_oldest_first_witness :
  exists chain,
    chain_to_root (nodes sample_file) (active_version sample_file) chain /\
    File.history sample_file sample_world
    = Some (history_text sample_world (List.filter isSnapshot (rev chain)),
            sample_file, sample_world).
Proof.
  destruct (history_oldest_first sample_file sample_world sample_file_wf)
    as (chain & H1 & H2 & _).
  exists chain. split; [exact H1 | exact H2].
Defined.



(** C8. insert, update and a successful snapshot set the modification time
    of the file to the clock reading they take last, whether insert and
    update branch or edit in place; read, rollback (with or without an id,
    successful or not) and history leave it alone, and rollback changes no
    node, no index entry and no counter: only the active pointer. *)
Theorem last_modified_frame (f : File) (w : World) (text : string) (versionId : Z)
    (n : VersionNode) :
  file_wf f ->
  nodes f !! active_version f = Some n ->
  (exists f' w', File.insert text f w = Some (tt, f', w') /\
                 (ticks w < ticks w')%nat /\
                 last_modification_time f' = time_src w (Nat.pred (ticks w'))) /\
  (exists f' w', File.update text f w = Some (tt, f', w') /\
                 (ticks w < ticks w')%nat /\
                 last_modification_time f' = time_src w (Nat.pred (ticks w'))) /\
  (isSnapshot n = false ->
   exists f' w', File.snapshot text f w = Some (tt, f', w') /\
                 (ticks w < ticks w')%nat /\
                 last_modification_time f' = time_src w (Nat.pred (ticks w'))) /\
  File.read f w = Some (content n, f, w) /\
  (exists ok f' w', File.rollback versionId f w = Some (ok, f', w') /\
                    last_modification_time f' = last_modification_time f /\
                    nodes f' = nodes f /\
                    version_map f' = version_map f /\
                    total_versions f' = total_versions f /\
                    root f' = root f /\
                    ticks w' = ticks w) /\
  (exists listing, File.history f w = Some (listing, f, w)).
Proof.
  intros Hwf Hn.
  split; [ | split; [ | split; [ | split; [ | split]]]].
  - destruct (isSnapshot n) eqn:Hs.
    + rewrite (insert_snapshot _ _ _ n Hn Hs). eexists _, _.
      split; [reflexivity | ]. simpl. split; [lia | reflexivity].
    + rewrite (insert_mutable _ _ _ n Hn Hs). eexists _, _.
      split; [reflexivity | ]. simpl. split; [lia | reflexivity].
  - destruct (isSnapshot n) eqn:Hs.
    + rewrite (update_snapshot _ _ _ n Hn Hs). eexists _, _.
      split; [reflexivity | ]. simpl. split; [lia | reflexivity].
    + rewrite (update_mutable _ _ _ n Hn Hs). eexists _, _.
      split; [reflexivity | ]. simpl. split; [lia | reflexivity].
  - intros Hs. rewrite (snapshot_mutable _ _ _ n Hn Hs). eexists _, _.
    split; [reflexivity | ]. simpl. split; [lia | reflexivity].
  - apply read_run. exact Hn.
  - destruct (rollback_total versionId f w Hwf) as (ok & p & w' & Hrun & _ & _).
    exists ok, (File.set_active_version p f), w'. split; [exact Hrun | ].
    repeat (split; [reflexivity | ]).
    destruct (decide (versionId = -1)) as [-> | Hid].
    + rewrite (rollback_parent_run f w n Hn) in Hrun.
      destruct (parent n); injection Hrun as _ _ <-; reflexivity.
    + rewrite (rollback_id_run versionId f w n Hn Hid) in Hrun.
      destruct (versionId =? version_id n); [injection Hrun as _ _ <-; reflexivity | ].
      destruct (HashMap.get (version_map f) versionId);
        injection Hrun as _ _ <-; reflexivity.
  - destruct (history_run f w Hwf) as (chain & _ & Hrun). eauto.
Qed.

Lemma last_modified_frame_witness :
  (exists f' w', File.insert "x" sample_file sample_world = Some (tt, f', w') /\
                 last_modification_time f' = time_src sample_world (Nat.pred (ticks w'))) /\
  (exists ok f' w', File.rollback 2 sample_file sample_world = Some (ok, f', w') /\
                    last_modification_time f' = last_modification_time sample_file /\
                    nodes f' = nodes sample_file).
Proof.
  destruct (last_modified_frame sample_file sample_world "x" 2 sample_active
              sample_file_wf sample_active_lookup)
    as ((f1 & w1 & H1 & _ & H1') & _ & _ & _ & (ok & f2 & w2 & H2 & H2' & H2'' & _) & _).
  split.
  - exists f1, w1. split; assumption.
  - exists ok, f2, w2. split; [assumption | split; assumption].
Defined.

(** C9. The id [-1] is the default argument of rollback: a call with [-1],
    such as the command ROLLBACK name -1, is the call without an id.  It
    steps to the parent or fails at the root, prints no already-active
    report and never consults the id index. *)
Theorem rollback_minus_one (stoi : string -> option Z) (name : string)
    (fs : FileSystem) (f : File) (w : World) (n : VersionNode) :
  stoi "-1"%string = Some (-1) ->
  nodes f !! active_version f = Some n ->
  main_ROLLBACK stoi [name; "-1"%string] fs w = main_ROLLBACK stoi [name] fs w /\
  File.rollback (-1) f w =
    match parent n with
    | Some p => Some (true, File.set_active_version p f, w)
    | None => Some (false, f, w)
    end /\
  (forall m, File.rollback (-1) (File.set_version_map m f) w =
     match File.rollback (-1) f w with
     | Some (ok, f', w') => Some (ok, File.set_version_map m f', w')
     | None => None
     end).
Proof.
  intros Hstoi Hn. split; [ | split].
  - unfold main_ROLLBACK. rewrite Hstoi. reflexivity.
  - apply rollback_parent_run. exact Hn.
  - intros m. rewrite (rollback_parent_run f w n Hn).
    rewrite (rollback_parent_run (File.set_version_map m f) w n Hn).
    destruct (parent n); reflexivity.
Qed.

Lemma rollback_minus_one_witness :
  main_ROLLBACK sample_stoi ["a"; "-1"]%string sample_fs sample_world
    = main_ROLLBACK sample_stoi ["a"%string] sample_fs sample_world /\
  File.rollback (-1) sample_file sample_world
    = Some (true, File.set_active_version 1 sample_file, sample_world).
Proof.
  destruct (rollback_minus_one sample_stoi "a" sample_fs
              sample_file sample_world sample_active eq_refl sample_active_lookup)
    as (H1 & H2 & _).
  split; [exact H1 | exact H2].
Defined.

(** C10. A ranking query with limit [0] or with a negative limit other
    than [-1] returns the header line alone, whatever the repository
    holds, and changes nothing. *)
Theorem ranking_nonpositive_limit (fs : FileSystem) (w : World) (num : Z) :
  INT_MIN <= num <= INT_MAX -> num <= 0 -> num <> -1 ->
  FileSystem.recentFiles num fs w =
    Some ("--- Top " +:+ to_string num +:+ " Recently Modified Files ---" +:+ NL, fs, w) /\
  FileSystem.biggestTrees num fs w =
    Some ("--- Top " +:+ to_string num +:+ " Files by Version Count ---" +:+ NL, fs, w).
Proof.
  intros Hint Hnum Hne.
  assert (Hlim : limit_value fs num = num).
  { unfold limit_value. destruct (num =? -1) eqn:E; [apply Z.eqb_eq in E; contradiction | ].
    apply wrap32_to_size_t. exact Hint. }
  assert (Hcond : forall h, (0 <? num) && negb (MaxHeap.isEmpty (T:=FileMetric) h) = false).
  { intros h. apply andb_false_iff. left. apply Z.ltb_ge. exact Hnum. }
  assert (E : (num =? -1) = false) by (apply Z.eqb_neq; exact Hne).
  split.
  - rewrite recentFiles_run, Hlim. cbn [drain]. rewrite Hcond.
    unfold FileSystem.recentFiles_header. rewrite E. cbn [recent_lines].
    rewrite string_app_nil_r. reflexivity.
  - rewrite biggestTrees_run, Hlim. cbn [drain]. rewrite Hcond.
    unfold FileSystem.biggestTrees_header. rewrite E. cbn [biggest_lines].
    rewrite string_app_nil_r. reflexivity.
Qed.

Lemma ranking_nonpositive_limit_witness :
  FileSystem.recentFiles (-2) sample_fs sample_world =
    Some ("--- Top " +:+ to_string (-2) +:+ " Recently Modified Files ---" +:+ NL,
          sample_fs, sample_world) /\
  FileSystem.recentFiles 0 sample_fs sample_world =
    Some ("--- Top " +:+ to_string 0 +:+ " Recently Modified Files ---" +:+ NL,
          sample_fs, sample_world).
Proof.
  destruct (ranking_nonpositive_limit sample_fs sample_world (-2)) as [Hminus _];
    [unfold INT_MIN, INT_MAX; lia | lia | lia | ].
  destruct (ranking_nonpositive_limit sample_fs sample_world 0) as [Hzero _];
    [unfold INT_MIN, INT_MAX; lia | lia | lia | ].
  split; [exact Hminus | exact Hzero].
Defined.

(** * Further properties of the code *)

(** ** custom_reverse *)

(** X1. [custom_reverse] returns on every vector, the empty one included,
    with the elements in the opposite order: what stood at position [i]
    stands at position [size - 1 - i]; reversing twice gives the vector
    back. *)
Theorem custom_reverse_involutive {A} (vec : list A) :
  custom_reverse vec = Some (rev vec) /\
  (custom_reverse vec ≫= custom_reverse) = Some vec /\
  (forall (i : nat) x, vec !! i = Some x ->
                       rev vec !! (length vec - 1 - i)%nat = Some x).
Proof.
  split; [apply custom_reverse_rev | ]. split.
  - rewrite custom_reverse_rev. simpl. rewrite custom_reverse_rev, rev_involutive.
    reflexivity.
  - intros i x Hi. pose proof (lookup_lt_Some _ _ _ Hi) as Hlt.
    rewrite rev_alt. change (rev_append vec []) with (reverse vec).
    rewrite reverse_lookup by lia.
    replace (length vec - S (length vec - 1 - i))%nat with i by lia. exact Hi.
Qed.

(** ** custom_hash *)

(** X2. The hash of a string is the polynomial with base 31 of its
    characters, [(c - 'a' + 1) * 31 ^ i] summed over the positions [i],
    reduced modulo [2 ^ 64] and by nothing else; it is a [size_t] value
    for every string, the empty string hashes to [0], and the hash of an
    [int] key is its value as a [size_t], so a negative key hashes to
    [2 ^ 64] plus the key. *)
Theorem string_hash_polynomial (key : string) (i : Z) :
  custom_hash key = polynomial key 0 mod 2 ^ 64 /\
  0 <= custom_hash key < 2 ^ 64 /\
  custom_hash EmptyString = 0 /\
  0 <= custom_hash i < 2 ^ 64 /\
  (0 <= i <= INT_MAX -> custom_hash i = i) /\
  (INT_MIN <= i < 0 -> custom_hash i = 2 ^ 64 + i).
Proof.
  assert (E : custom_hash key = polynomial key 0 mod 2 ^ 64).
  { unfold custom_hash, custom_hash_string.
    rewrite (custom_hash_string_loop_spec key 0 1 0); [reflexivity | lia | lia | reflexivity]. }
  split; [exact E | ]. split; [rewrite E; apply Z.mod_pos_bound; lia | ].
  split; [reflexivity | ].
  unfold custom_hash, custom_hash_int, to_size_t.
  split; [apply Z.mod_pos_bound; lia | ]. split.
  - intros Hi. apply Z.mod_small. unfold INT_MAX in Hi. lia.
  - intros Hi. unfold INT_MIN in Hi.
    rewrite <- (Z.mod_add i 1) by lia.
    replace (i + 1 * 2 ^ 64) with (2 ^ 64 + i) by lia. apply Z.mod_small. lia.
Qed.

(** ** HashMap *)

Section HashMapContract.
Context {K V : Type} `{EqDecision K} `{CustomHash K}.
Implicit Types (hm : HashMap K V) (key : K).

(** X3. The constructor takes the capacity it is given when that is
    positive and 16 otherwise; the map it builds has that many buckets,
    all empty: no key is found ([get] throws, [containsKey] is false) and
    there are no values.  The bucket index of every key, a negative [int]
    or any string included, lies inside the table. *)
Theorem hashmap_constructor (c : Z) key :
  let hm := HashMap.new (K:=K) (V:=V) c in
  capacity hm = (if 0 <? c then c else 16) /\
  table hm = replicate (Z.to_nat (capacity hm)) [] /\
  current_size hm = 0 /\
  HashMap.get hm key = None /\
  HashMap.containsKey hm key = false /\
  HashMap.getValues hm = [] /\
  (c <= INT_MAX ->
   0 <= HashMap.hashFunction hm key < capacity hm /\
   table hm !! Z.to_nat (HashMap.hashFunction hm key) = Some []).
Proof.
  cbv zeta. split; [reflexivity | ]. split; [reflexivity | ]. split; [reflexivity | ].
  split; [apply get_new | ].
  split; [apply containsKey_false, get_new | ].
  split; [rewrite getValues_entries, entries_new; reflexivity | ].
  intros Hc. pose proof (new_shape (K:=K) (V:=V) c Hc) as Hs.
  split; [apply hashFunction_range; exact Hs | ].
  rewrite bucket_lookup by (apply hashFunction_lt; exact Hs).
  f_equal. apply bucket_new.
Qed.

(** X4. After [put key value] on a map, [get key] returns [value] and
    [containsKey key] holds; every other key is found, or not found, with
    the value it had; the capacity is unchanged, the bucket the key hashes
    to exists, and [get] throws exactly on the keys [containsKey] denies. *)
Theorem hashmap_put_get hm key value :
  hm_shape hm ->
  HashMap.get (HashMap.put hm key value) key = Some value /\
  HashMap.containsKey (HashMap.put hm key value) key = true /\
  (forall key', key' <> key ->
     HashMap.get (HashMap.put hm key value) key' = HashMap.get hm key' /\
     HashMap.containsKey (HashMap.put hm key value) key'
     = HashMap.containsKey hm key') /\
  capacity (HashMap.put hm key value) = capacity hm /\
  hm_shape (HashMap.put hm key value) /\
  is_Some (table hm !! Z.to_nat (HashMap.hashFunction hm key)) /\
  (forall key', HashMap.get hm key' = None <-> HashMap.containsKey hm key' = false).
Proof.
  intros Hs.
  assert (Hself : HashMap.get (HashMap.put hm key value) key = Some value).
  { rewrite get_put by exact Hs. destruct (decide (key = key)); congruence. }
  split; [exact Hself | ].
  split; [apply containsKey_get; eauto | ].
  split.
  { intros key' Hne.
    assert (Hg : HashMap.get (HashMap.put hm key value) key' = HashMap.get hm key').
    { rewrite get_put by exact Hs. destruct (decide (key = key')); congruence. }
    split; [exact Hg | ].
    destruct (HashMap.containsKey hm key') eqn:Hc.
    - apply containsKey_get. rewrite Hg. apply containsKey_get. exact Hc.
    - apply containsKey_false. rewrite Hg. apply containsKey_false. exact Hc. }
  split; [apply put_capacity | ].
  split; [apply put_shape; exact Hs | ].
  split; [apply lookup_lt_is_Some_2, hashFunction_lt; exact Hs | ].
  intros key'. symmetry. apply containsKey_false.
Qed.

(** X5. A map built from the constructor by any sequence of puts gives
    every key the value of the last put on it and throws on the keys
    never put; a put on a key that is present overwrites, so every key
    occurs once among the entries, [getValues] has one value for each
    distinct key, and [current_size] is the number of entries. *)
Theorem hashmap_last_put (c : Z) (kvs : list (K * V)) :
  c <= INT_MAX -> Z.of_nat (length kvs) <= INT_MAX ->
  let hm := put_all (HashMap.new c) kvs in
  (forall key, HashMap.get hm key = last_put kvs key) /\
  (forall key, HashMap.containsKey hm key = true <-> key ∈ map fst kvs) /\
  NoDup (hm_keys hm) /\
  (forall key, key ∈ hm_keys hm <-> key ∈ map fst kvs) /\
  length (HashMap.getValues hm) = length (hm_keys hm) /\
  current_size hm = Z.of_nat (length (HashMap.getValues hm)).
Proof.
  intros Hc Hlen. cbv zeta.
  pose proof (put_all_invariant c kvs Hc Hlen) as Hinv. cbv zeta in Hinv.
  destruct Hinv as (Hs & Hok & Hget & Hsize & _).
  set (hm := put_all (HashMap.new c) kvs) in *.
  assert (Hin : forall key, HashMap.containsKey hm key = true <-> key ∈ map fst kvs).
  { intros key. rewrite containsKey_get, Hget.
    destruct (last_put kvs key) as [v | ] eqn:E.
    - split; [intros _ | eauto].
      destruct (decide (key ∈ map fst kvs)) as [Hk | Hk]; [exact Hk | ].
      apply last_put_None in Hk. congruence.
    - split; [intros [v Hv]; discriminate | ].
      intros Hk. apply last_put_None in E. contradiction. }
  split; [exact Hget | ]. split; [exact Hin | ].
  split; [apply keys_NoDup; exact Hok | ].
  split.
  { intros key. rewrite <- Hin, containsKey_get, keys_entries.
    split.
    - intros Hk. apply list_elem_of_fmap in Hk. destruct Hk as ([k v] & -> & Hkv).
      exists v. apply get_entries; assumption.
    - intros [v Hv]. apply list_elem_of_fmap. exists (key, v).
      split; [reflexivity | apply get_entries; assumption]. }
  split; [symmetry; apply keys_length | exact Hsize].
Qed.

End HashMapContract.

(** Three puts, one of them on a key that is present, on a map of the
    default capacity. *)
Lemma hashmap_last_put_witness :
  let hm := put_all (HashMap.new (K:=string) (V:=Z) 0) [("a", 1); ("b", 2); ("a", 3)]%string in
  HashMap.get hm "a"%string = Some 3 /\ current_size hm = 2.
Proof.
  destruct (hashmap_last_put (K:=string) (V:=Z) 0 [("a", 1); ("b", 2); ("a", 3)]%string)
    as (Hget & _ & _ & _ & _ & Hsize).
  { unfold INT_MAX. lia. }
  { unfold INT_MAX. simpl. lia. }
  split.
  - rewrite Hget. reflexivity.
  - vm_compute. reflexivity.
Defined.

Lemma hashmap_put_get_witness :
  HashMap.get (HashMap.put (HashMap.new (K:=Z) (V:=string) 16) (-5) "x"%string) (-5)
  = Some "x"%string.
Proof.
  destruct (hashmap_put_get (HashMap.new (K:=Z) (V:=string) 16) (-5) "x"%string)
    as (Hget & _).
  { apply new_shape. unfold INT_MAX. lia. }
  exact Hget.
Defined.

(** ** MaxHeap *)

(** X6. [extractMax] on an empty heap throws.  [insert] on a heap keeps
    the heap order and adds exactly the new item, so the heap is not empty
    afterwards; [extractMax] then returns an item that scores at least as
    much as the new item and as every item the heap held, and leaves a
    heap of the others. *)
Theorem maxheap_insert_extract (h : MaxHeap FileMetric) (x : FileMetric) :
  heap_ok (heap h) -> Z.of_nat (length (heap h)) < 2 ^ 30 - 1 ->
  MaxHeap.extractMax (mkMaxHeap (T:=FileMetric) []) = None /\
  MaxHeap.isEmpty (mkMaxHeap (T:=FileMetric) []) = true /\
  exists h1 y h2,
    MaxHeap.insert h x = Some h1 /\
    heap_ok (heap h1) /\ heap h1 ≡ₚ x :: heap h /\
    MaxHeap.isEmpty h1 = false /\
    MaxHeap.extractMax h1 = Some (y, h2) /\
    heap_ok (heap h2) /\ y :: heap h2 ≡ₚ x :: heap h /\
    value x <= value y /\
    (forall z, z ∈ heap h -> value z <= value y).
Proof.
  intros Hok Hsmall. split; [reflexivity | ]. split; [reflexivity | ].
  destruct (insert_spec h x Hok Hsmall) as (h1 & Hins & Hok1 & Hperm1).
  assert (Hne : heap h1 <> []).
  { intros E. rewrite E in Hperm1. apply Permutation_nil_l in Hperm1. discriminate. }
  assert (Hsmall1 : small (heap h1)).
  { unfold small. rewrite Hperm1. simpl. lia. }
  destruct (extractMax_spec h1 Hok1 Hsmall1 Hne) as (y & h2 & Hext & Hok2 & Hperm2 & Hmax).
  exists h1, y, h2. split; [exact Hins | ]. split; [exact Hok1 | ]. split; [exact Hperm1 | ].
  split; [unfold MaxHeap.isEmpty; destruct (heap h1); [congruence | reflexivity] | ].
  split; [exact Hext | ]. split; [exact Hok2 | ].
  split; [rewrite <- Hperm2; exact Hperm1 | ].
  split.
  - apply Hmax. rewrite Hperm1. apply list_elem_of_here.
  - intros z Hz. apply Hmax. rewrite Hperm1. apply list_elem_of_further. exact Hz.
Qed.

Lemma maxheap_insert_extract_witness :
  exists h1 y h2,
    MaxHeap.insert (recent_files_heap sample_fs) (mkFileMetric "c" 2000) = Some h1 /\
    MaxHeap.extractMax h1 = Some (y, h2) /\ 2000 <= value y.
Proof.
  destruct (maxheap_insert_extract (recent_files_heap sample_fs) (mkFileMetric "c" 2000))
    as (_ & _ & h1 & y & h2 & H1 & _ & _ & _ & H2 & _ & _ & H3 & _).
  { destruct (fs_heaps sample_fs sample_fs_wf) as (Hok & _). exact Hok. }
  { vm_compute. reflexivity. }
  exists h1, y, h2. split; [exact H1 | ]. split; [exact H2 | exact H3].
Defined.

(** ** File *)

(** X7. Snapshot, edit, go back, go forward.  After a snapshot of a
    mutable version, taken at a clock reading other than [0], [insert]
    opens a new version that reads as the old content followed by the
    text; [rollback] to the parent, and [rollback] to the id of the
    snapshot, both make the snapshot active again, and it reads as it did
    when it was taken; [rollback] to the id of the new version then
    restores the file exactly as the edit left it. *)
Theorem snapshot_edit_rollback (f : File) (w : World) (msg text : string)
    (n : VersionNode) :
  file_wf f -> total_versions f < INT_MAX ->
  nodes f !! active_version f = Some n -> isSnapshot n = false -> now w <> 0 ->
  exists f1 w1 f2 w2,
    File.snapshot msg f w = Some (tt, f1, w1) /\
    File.insert text f1 w1 = Some (tt, f2, w2) /\
    total_versions f2 = total_versions f + 1 /\
    File.read f2 w2 = Some (content n +:+ text, f2, w2) /\
    let back := File.set_active_version (active_version f) f2 in
    File.rollback (-1) f2 w2 = Some (true, back, w2) /\
    File.rollback (version_id n) f2 w2 = Some (true, back, w2) /\
    File.read back w2 = Some (content n, back, w2) /\
    File.rollback (total_versions f) back w2 = Some (true, f2, w2).
Proof.
  intros Hwf Hmax Hn Hs Hnow.
  pose proof (wf_active f Hwf) as Ha.
  pose proof (wf_count f Hwf) as Hcount.
  set (a := active_version f) in *.
  set (n1 := File.set_snapshot_timestamp (now w) (File.set_message msg n)).
  set (f1 := File.set_last_modification_time (now (tick w)) (with_node a n1 f)).
  assert (Hrun1 := snapshot_mutable msg f w n Hn Hs). fold a n1 f1 in Hrun1.
  assert (Hwf1 : file_wf f1) by (eapply snapshot_wf; eassumption).
  assert (Hn1 : nodes f1 !! active_version f1 = Some n1).
  { simpl. apply list_lookup_insert_eq. exact Ha. }
  assert (Hs1 : isSnapshot n1 = true).
  { unfold isSnapshot. simpl. apply negb_true_iff, Z.eqb_neq. exact Hnow. }
  set (w1 := say ("Snapshot created for '" +:+ filename f +:+ "'." +:+ NL) (tick (tick w)))
    in *.
  assert (Hlen1 : length (nodes f1) = length (nodes f)) by (simpl; apply length_insert).
  assert (Hmax1 : total_versions f1 < INT_MAX) by exact Hmax.
  assert (Hrun2 := insert_snapshot text f1 w1 n1 Hn1 Hs1).
  set (f2 := File.set_last_modification_time (now (tick w1))
               (branch_result (content n1 +:+ text) (now w1) n1 f1)) in *.
  assert (Hwf2 : file_wf f2) by (eapply insert_wf; eassumption).
  assert (Hlook2 : forall p, nodes f2 !! p =
            if decide (p = a) then Some (File.push_back_child (length (nodes f)) n1)
            else if decide (p = length (nodes f))
                 then Some (mkVersionNode (total_versions f) (content n +:+ text)
                              EmptyString (now w1) 0 (Some a) [])
                 else nodes f1 !! p).
  { intros p. unfold f2.
    change (nodes (File.set_last_modification_time ?t ?g)) with (nodes g).
    rewrite (branch_result_lookup _ _ _ _ _ Hn1).
    change (length (nodes f1)) with (length (<[a := n1]> (nodes f))).
    rewrite length_insert. reflexivity. }
  assert (Hact2 : active_version f2 = length (nodes f)) by (simpl; exact Hlen1).
  assert (Hnew : nodes f2 !! active_version f2
                 = Some (mkVersionNode (total_versions f) (content n +:+ text)
                           EmptyString (now w1) 0 (Some a) [])).
  { rewrite Hact2, Hlook2.
    destruct (decide _) as [E | E]; [lia | ].
    destruct (decide _) as [E' | E']; [reflexivity | congruence]. }
  assert (Hid : version_id n = Z.of_nat a) by (apply (wf_ids f Hwf _ _ Hn)).
  exists f1, w1, f2, (tick (tick w1)).
  split; [exact Hrun1 | ]. split; [exact Hrun2 | ].
  split.
  { simpl. apply wrap32_id. unfold INT_MIN, INT_MAX in *. lia. }
  split; [apply (read_run f2 _ _ Hnew) | ].
  cbv zeta.
  set (back := File.set_active_version a f2).
  assert (Hback : nodes back !! active_version back
                  = Some (File.push_back_child (length (nodes f)) n1)).
  { simpl. change (nodes (File.set_last_modification_time ?t ?g)) with (nodes g) in Hlook2.
    unfold f2 in Hlook2. simpl in Hlook2. rewrite Hlook2.
    destruct (decide _) as [E | E]; [reflexivity | congruence]. }
  split; [rewrite (rollback_parent_run f2 _ _ Hnew); reflexivity | ].
  split.
  { rewrite (rollback_id_run (version_id n) f2 _ _ Hnew) by lia.
    simpl version_id.
    destruct (version_id n =? total_versions f) eqn:E; [apply Z.eqb_eq in E; lia | ].
    assert (Hg : HashMap.get (version_map f2) (version_id n) = Some a).
    { apply (wf_map f2 Hwf2). split; [ | exact Hid].
      unfold f2. change (nodes (File.set_last_modification_time ?t ?g)) with (nodes g).
      rewrite branch_result_length. lia. }
    rewrite Hg. reflexivity. }
  split; [apply (read_run back _ _ Hback) | ].
  rewrite (rollback_id_run (total_versions f) back _ _ Hback) by lia.
  simpl version_id.
  destruct (total_versions f =? version_id n) eqn:E; [apply Z.eqb_eq in E; lia | ].
  assert (Hg : HashMap.get (version_map back) (total_versions f) = Some (length (nodes f))).
  { apply (wf_map f2 Hwf2). split; [ | exact Hcount].
    unfold f2. change (nodes (File.set_last_modification_time ?t ?g)) with (nodes g).
    rewrite branch_result_length. lia. }
  rewrite Hg. f_equal. f_equal. f_equal.
  clear. subst back f2 f1.
  unfold File.set_active_version, File.set_last_modification_time, branch_result,
         with_node, File.set_nodes. simpl.
  rewrite !length_insert. reflexivity.
Qed.

Lemma snapshot_edit_rollback_witness :
  exists f1 w1 f2 w2,
    File.snapshot "v3" sample_file sample_world = Some (tt, f1, w1) /\
    File.insert "!" f1 w1 = Some (tt, f2, w2) /\
    File.read f2 w2 = Some (content sample_active +:+ "!", f2, w2) /\
    File.read (File.set_active_version (active_version sample_file) f2) w2
    = Some (content sample_active,
            File.set_active_version (active_version sample_file) f2, w2).
Proof.
  destruct (snapshot_edit_rollback sample_file sample_world "v3" "!" sample_active
              sample_file_wf)
    as (f1 & w1 & f2 & w2 & H1 & H2 & _ & H3 & _ & _ & H4 & _).
  { vm_compute. reflexivity. }
  { apply sample_active_lookup. }
  { reflexivity. }
  { vm_compute. discriminate. }
  exists f1, w1, f2, w2. repeat (split; [assumption | ]). exact H4.
Defined.

(** X8. The history grows by snapshots only.  [insert] and [update]
    leave the listing of a file as it is, whether they edit the active
    version in place or open a new one; a [snapshot] of a mutable version
    at a clock reading other than [0] adds one line at the end, with the
    id of the active version, the clock reading of the call and the
    message, and changes no other line. *)
Theorem history_grows_by_snapshots (f : File) (w : World) (text : string)
    (n : VersionNode) :
  file_wf f -> total_versions f < INT_MAX ->
  nodes f !! active_version f = Some n ->
  exists listing,
    File.history f w = Some (listing, f, w) /\
    (exists f' w', File.insert text f w = Some (tt, f', w') /\
                   File.history f' w' = Some (listing, f', w')) /\
    (exists f' w', File.update text f w = Some (tt, f', w') /\
                   File.history f' w' = Some (listing, f', w')) /\
    (isSnapshot n = false -> now w <> 0 ->
     exists f' w', File.snapshot text f w = Some (tt, f', w') /\
                   File.history f' w'
                   = Some (listing +:+ ("Version: " +:+ to_string (version_id n)
                                        +:+ ", Timestamp: " +:+ strftime_c w (now w)
                                        +:+ ", Message: " +:+ text +:+ NL),
                           f', w')).
Proof.
  intros Hwf Hmax Hn.
  destruct (history_run f w Hwf) as (chain & Hchain & Hrun).
  exists (history_text w (List.filter isSnapshot (rev chain))).
  split; [exact Hrun | ].
  assert (Hedit : forall n' t w',
            isSnapshot n = false -> isSnapshot n' = false ->
            version_id n' = version_id n -> parent n' = parent n ->
            strftime_c w' = strftime_c w ->
            let f' := File.set_last_modification_time t
                        (with_node (active_version f) n' f) in
            File.history f' w'
            = Some (history_text w (List.filter isSnapshot (rev chain)), f', w')).
  { intros n' t w' Hs Hs' Hid Hpar Hw.
    destruct (history_with_node f w w' n n' t Hwf Hn Hid Hpar Hw)
      as (tail & Hc & _ & Hrun').
    rewrite (chain_unique _ _ _ _ Hchain Hc). cbv zeta in *. rewrite Hrun'.
    cbn [rev]. rewrite !List.filter_app. cbn [List.filter]. rewrite Hs, Hs'. reflexivity. }
  assert (Hbranch : forall c t t' w',
            strftime_c w' = strftime_c w ->
            let f' := File.set_last_modification_time t' (branch_result c t n f) in
            File.history f' w'
            = Some (history_text w (List.filter isSnapshot (rev chain)), f', w')).
  { intros c t t' w' Hw.
    destruct (history_branch f w w' n c t t' Hwf Hmax Hn Hw) as (listing & Hold & Hnew).
    rewrite Hrun in Hold. injection Hold as <-. exact Hnew. }
  split; [ | split].
  - destruct (isSnapshot n) eqn:Hs.
    + eexists _, _. split; [apply (insert_snapshot _ _ _ n Hn Hs) | ].
      apply Hbranch. reflexivity.
    + eexists _, _. split; [apply (insert_mutable _ _ _ n Hn Hs) | ].
      apply Hedit; try reflexivity; exact Hs.
  - destruct (isSnapshot n) eqn:Hs.
    + eexists _, _. split; [apply (update_snapshot _ _ _ n Hn Hs) | ].
      apply Hbranch. reflexivity.
    + eexists _, _. split; [apply (update_mutable _ _ _ n Hn Hs) | ].
      apply Hedit; try reflexivity; exact Hs.
  - intros Hs Hnow.
    eexists _, _. split; [apply (snapshot_mutable _ _ _ n Hn Hs) | ].
    set (n' := File.set_snapshot_timestamp (now w) (File.set_message text n)).
    destruct (history_with_node f w
                (say ("Snapshot created for '" +:+ filename f +:+ "'." +:+ NL)
                     (tick (tick w)))
                n n' (now (tick w)) Hwf Hn eq_refl eq_refl eq_refl)
      as (tail & Hc & _ & Hrun').
    rewrite (chain_unique _ _ _ _ Hchain Hc). cbv zeta in Hrun'. rewrite Hrun'.
    cbn [rev]. rewrite !List.filter_app. cbn [List.filter]. rewrite Hs.
    assert (Hs' : isSnapshot n' = true).
    { unfold isSnapshot. simpl. apply negb_true_iff, Z.eqb_neq. exact Hnow. }
    rewrite Hs', app_nil_r, history_text_app. cbn [history_text].
    rewrite string_app_nil_r. unfold history_entry. simpl version_id.
    simpl snapshot_timestamp. simpl message.
    rewrite !string_app_assoc. reflexivity.
Qed.

Lemma history_grows_by_snapshots_witness :
  exists listing,
    File.history sample_file sample_world = Some (listing, sample_file, sample_world) /\
    exists f' w', File.insert "!" sample_file sample_world = Some (tt, f', w') /\
                  File.history f' w' = Some (listing, f', w').
Proof.
  destruct (history_grows_by_snapshots sample_file sample_world "!" sample_active
              sample_file_wf) as (listing & H1 & H2 & _).
  { vm_compute. reflexivity. }
  { apply sample_active_lookup. }
  exists listing. split; [exact H1 | exact H2].
Defined.

(** ** FileSystem *)

(** X9. Nothing is ever lost.  Along every sequence of calls, every file
    stays under its name with the same object; each of its versions stays
    in place with its id, parent and creation time; a version that is a
    snapshot keeps its content, message and snapshot time for good; and
    the version count of a file never goes down, rollback included. *)
Theorem nothing_is_lost (cs : list api_call) (fs : FileSystem) (w : World) :
  fs_wf fs -> room (length cs) fs ->
  exists fs' w',
    perform_all cs fs w = Some (tt, fs', w') /\ fs_wf fs' /\ repository_kept fs fs'.
Proof. intros Hwf Hroom. apply perform_all_kept; assumption. Qed.

Lemma nothing_is_lost_witness :
  exists fs' w',
    perform_all [Update "a" "zz"; Snapshot "a" "s"; Rollback "a" 0; Insert "a" "q"]
                sample_fs sample_world = Some (tt, fs', w') /\
    fs_wf fs' /\ repository_kept sample_fs fs'.
Proof.
  exact (nothing_is_lost
           [Update "a" "zz"; Snapshot "a" "s"; Rollback "a" 0; Insert "a" "q"]
           sample_fs sample_world sample_fs_wf sample_fs_room).
Defined.

(** X10. What is written is what is read.  On a file of the repository,
    [read] after [insert] returns the text read before followed by the
    inserted text, [read] after [update] returns the new text, and [read]
    after [snapshot] returns the text read before, whether the call
    edited the active version in place, opened a new one or was refused. *)
Theorem read_after_write (name text : string) (fs : FileSystem) (w : World) :
  fs_wf fs -> versions_left fs -> HashMap.containsKey (files fs) name = true ->
  exists old,
    FileSystem.read name fs w = Some (old, fs, w) /\
    (exists fs1 w1, FileSystem.insert name text fs w = Some (tt, fs1, w1) /\
                    FileSystem.read name fs1 w1 = Some (old +:+ text, fs1, w1)) /\
    (exists fs1 w1, FileSystem.update name text fs w = Some (tt, fs1, w1) /\
                    FileSystem.read name fs1 w1 = Some (text, fs1, w1)) /\
    (exists fs1 w1, FileSystem.snapshot name text fs w = Some (tt, fs1, w1) /\
                    FileSystem.read name fs1 w1 = Some (old, fs1, w1)).
Proof.
  intros Hwf Hleft Hc.
  destruct (known_file name fs Hwf Hc) as (p & f & Hp & Hf).
  destruct (fs_files _ _ (fs_wf_struct fs Hwf) _ _ Hp) as (g & Hg & _ & Hfwf).
  rewrite Hf in Hg. injection Hg as <-.
  pose proof (Forall_lookup_1 _ _ _ _ Hleft Hf) as Hmax. simpl in Hmax.
  destruct (wf_active_node f Hfwf) as [n Hn].
  pose proof (lookup_lt_Some _ _ _ Hf) as Hplt.
  exists (content n). split; [apply (fs_read_run name fs w p f n Hp Hf Hn) | ].
  split; [ | split].
  - destruct (fs_insert_spec name text fs w p f Hwf Hp Hf Hmax)
      as (f' & w1 & hr & hb & Hrun & Hfs & _).
    destruct (insert_content text f f' w w1 n Hn Hrun) as (n' & Hn' & <-).
    eexists _, _. split; [exact Hfs | ].
    apply (fs_read_run name _ _ p f' n'); [exact Hp | | exact Hn'].
    simpl. apply list_lookup_insert_eq. exact Hplt.
  - destruct (fs_update_spec name text fs w p f Hwf Hp Hf Hmax)
      as (f' & w1 & hr & hb & Hrun & Hfs & _).
    destruct (update_content text f f' w w1 n Hn Hrun) as (n' & Hn' & <-).
    eexists _, _. split; [exact Hfs | ].
    apply (fs_read_run name _ _ p f' n'); [exact Hp | | exact Hn'].
    simpl. apply list_lookup_insert_eq. exact Hplt.
  - destruct (fs_snapshot_spec name text fs w p f Hwf Hp Hf)
      as (f' & w1 & hr & hb & Hrun & Hfs & _).
    destruct (snapshot_content text f f' w w1 n Hn Hrun) as (n' & Hn' & <-).
    eexists _, _. split; [exact Hfs | ].
    apply (fs_read_run name _ _ p f' n'); [exact Hp | | exact Hn'].
    simpl. apply list_lookup_insert_eq. exact Hplt.
Qed.

Lemma read_after_write_witness :
  exists old,
    FileSystem.read "a" sample_fs sample_world = Some (old, sample_fs, sample_world) /\
    exists fs1 w1, FileSystem.insert "a" "!" sample_fs sample_world = Some (tt, fs1, w1) /\
                   FileSystem.read "a" fs1 w1 = Some (old +:+ "!", fs1, w1).
Proof.
  destruct (read_after_write "a" "!" sample_fs sample_world sample_fs_wf)
    as (old & H1 & H2 & _).
  { apply (room_versions_left 3). exact sample_fs_room. }
  { vm_compute. reflexivity. }
  exists old. split; [exact H1 | exact H2].
Defined.

(** X11. A call touches one file at most.  Whatever a call does, a file
    it does not name stays under its name, is the same object with the
    same versions and the same active version, and reads as before. *)
Theorem other_files_untouched (c : api_call) (fs : FileSystem) (w : World)
    (name : string) (p : nat) (f : File) :
  fs_wf fs -> room 1 fs -> target c <> Some name ->
  HashMap.get (files fs) name = Some p -> file_store fs !! p = Some f ->
  exists fs' w' text,
    perform c fs w = Some (tt, fs', w') /\
    HashMap.get (files fs') name = Some p /\
    file_store fs' !! p = Some f /\
    FileSystem.read name fs w = Some (text, fs, w) /\
    FileSystem.read name fs' w' = Some (text, fs', w').
Proof.
  intros Hwf Hroom Hwho Hp Hf.
  destruct (perform_store_step c 0 fs w Hwf Hroom) as (fs' & w' & Hrun & Hwf' & _ & Hstep).
  destruct (store_step_frame _ fs fs' name p f Hwf Hstep Hwho Hp Hf) as [Hp' Hf'].
  destruct (fs_files _ _ (fs_wf_struct fs Hwf) _ _ Hp) as (g & Hg & _ & Hfwf).
  rewrite Hf in Hg. injection Hg as <-.
  destruct (wf_active_node f Hfwf) as [n Hn].
  exists fs', w', (content n).
  split; [exact Hrun | ]. split; [exact Hp' | ]. split; [exact Hf' | ].
  split; eapply fs_read_run; eassumption.
Qed.

Lemma other_files_untouched_witness :
  exists fs' w' text,
    perform (Update "b" "other") sample_fs sample_world = Some (tt, fs', w') /\
    HashMap.get (files fs') "a"%string = Some 0%nat /\
    file_store fs' !! 0%nat = Some sample_file /\
    FileSystem.read "a" sample_fs sample_world = Some (text, sample_fs, sample_world) /\
    FileSystem.read "a" fs' w' = Some (text, fs', w').
Proof.
  destruct sample_file_lookup as [Hp Hf].
  refine (other_files_untouched (Update "b" "other") sample_fs sample_world "a" 0
            sample_file sample_fs_wf _ _ Hp Hf).
  - do 3 apply room_weaken. exact sample_fs_room.
  - discriminate.
Defined.

(** X12. A name that is not in the repository.  [insert], [update],
    [snapshot] and [rollback] print the not-found report and change
    nothing, analytics included; [read] and [history] return the report as
    their text, [read] without the line end and [history] with it; none of
    them creates the file. *)
Theorem missing_file_reports (name : string) (fs : FileSystem) (w : World) :
  HashMap.containsKey (files fs) name = false ->
  (forall text, FileSystem.insert name text fs w = Some (tt, fs, say not_found_text w)) /\
  (forall text, FileSystem.update name text fs w = Some (tt, fs, say not_found_text w)) /\
  (forall msg, FileSystem.snapshot name msg fs w = Some (tt, fs, say not_found_text w)) /\
  (forall id, FileSystem.rollback name id fs w = Some (tt, fs, say not_found_text w)) /\
  FileSystem.read name fs w = Some ("Error: File not found."%string, fs, w) /\
  FileSystem.history name fs w = Some ("Error: File not found." +:+ NL, fs, w) /\
  HashMap.get (files fs) name = None.
Proof.
  intros Hc.
  destruct (unknown_file name fs w Hc) as (H1 & H2 & H3 & H4 & H5 & H6).
  repeat (split; [assumption | ]). apply containsKey_false. exact Hc.
Qed.

Lemma missing_file_reports_witness :
  FileSystem.insert "nope" "x" sample_fs sample_world
  = Some (tt, sample_fs, say not_found_text sample_world) /\
  FileSystem.read "nope" sample_fs sample_world
  = Some ("Error: File not found."%string, sample_fs, sample_world).
Proof.
  destruct (missing_file_reports "nope" sample_fs sample_world) as (H1 & _ & _ & _ & H5 & _).
  { vm_compute. reflexivity. }
  split; [apply H1 | exact H5].
Defined.

(** X13. What a rollback reports.  On a file of the repository the call
    prints one line when it succeeds, and then the active version has
    changed; when it fails it prints the failure line and the repository
    is as it was, and a rollback to the id of the active version prints
    the already-active line before it.  In no case are the analytics
    rebuilt or the nodes, the index or the counter of the file touched. *)
Theorem fs_rollback_reports (name : string) (versionId : Z) (fs : FileSystem)
    (w : World) (p : nat) (f : File) (n : VersionNode) :
  fs_wf fs ->
  HashMap.get (files fs) name = Some p -> file_store fs !! p = Some f ->
  nodes f !! active_version f = Some n ->
  exists (ok : bool) (q : nat),
    FileSystem.rollback name versionId fs w
    = Some (tt,
            FileSystem.set_file_store
              (<[p := File.set_active_version q f]> (file_store fs)) fs,
            mkWorld (time_src w) (strftime_c w) (ticks w)
              (cout w ++
               if ok then [rollback_ok_text name]
               else if versionId =? version_id n
                    then [already_active_text; rollback_failed_text]
                    else [rollback_failed_text])) /\
    (q < length (nodes f))%nat /\
    (ok = true <-> q <> active_version f) /\
    (ok = false ->
     FileSystem.set_file_store
       (<[p := File.set_active_version q f]> (file_store fs)) fs = fs).
Proof.
  intros Hwf Hp Hf Hn.
  destruct (fs_files _ _ (fs_wf_struct fs Hwf) _ _ Hp) as (g & Hg & _ & Hfwf).
  rewrite Hf in Hg. injection Hg as <-.
  pose proof (wf_active f Hfwf) as Ha.
  assert (Hself : FileSystem.set_file_store
                    (<[p := File.set_active_version (active_version f) f]> (file_store fs)) fs
                  = fs).
  { replace (File.set_active_version (active_version f) f) with f by (destruct f; reflexivity).
    rewrite list_insert_id by exact Hf. destruct fs; reflexivity. }
  assert (Hrun : forall ok q w1,
            File.rollback versionId f w = Some (ok, File.set_active_version q f, w1) ->
            FileSystem.rollback name versionId fs w
            = Some (tt, FileSystem.set_file_store
                          (<[p := File.set_active_version q f]> (file_store fs)) fs,
                    say (if ok then rollback_ok_text name else rollback_failed_text) w1)).
  { intros ok q w1 Hr. unfold FileSystem.rollback. enter_file Hp.
    unfold bind at 1. unfold FileSystem.call at 1. rewrite Hf, Hr.
    destruct ok; reflexivity. }
  destruct (decide (versionId = -1)) as [-> | Hid].
  - pose proof (rollback_parent_run f w n Hn) as Hr.
    replace (-1 =? version_id n) with false
      by (symmetry; apply Z.eqb_neq; rewrite (wf_ids f Hfwf _ _ Hn); lia).
    destruct (parent n) as [q | ] eqn:Hq.
    + pose proof (wf_parent f Hfwf _ _ _ Hn Hq) as Hlt.
      exists true, q. split; [apply (Hrun true q w Hr) | ].
      split; [lia | ]. split; [ | discriminate]. split; [intros _; lia | reflexivity].
    + exists false, (active_version f).
      split; [apply (Hrun false (active_version f) w);
              replace (File.set_active_version (active_version f) f) with f
                by (destruct f; reflexivity); exact Hr | ].
      split; [exact Ha | ]. split; [ | intros _; exact Hself].
      split; [discriminate | congruence].
  - pose proof (rollback_id_run versionId f w n Hn Hid) as Hr.
    destruct (versionId =? version_id n) eqn:E.
    + exists false, (active_version f).
      split.
      { rewrite (Hrun false (active_version f) (say already_active_text w)).
        - unfold say. simpl. rewrite <- app_assoc. reflexivity.
        - replace (File.set_active_version (active_version f) f) with f
            by (destruct f; reflexivity). exact Hr. }
      split; [exact Ha | ]. split; [ | intros _; exact Hself].
      split; [discriminate | congruence].
    + apply Z.eqb_neq in E.
      destruct (HashMap.get (version_map f) versionId) as [q | ] eqn:Hq.
      * apply (wf_map f Hfwf) in Hq. destruct Hq as [Hq Eq].
        exists true, q. split; [apply (Hrun true q w Hr) | ].
        split; [exact Hq | ]. split; [ | discriminate].
        split; [ | reflexivity]. intros _ ->.
        apply E. rewrite Eq. symmetry. apply (wf_ids f Hfwf _ _ Hn).
      * exists false, (active_version f).
        split; [apply (Hrun false (active_version f) w);
                replace (File.set_active_version (active_version f) f) with f
                  by (destruct f; reflexivity); exact Hr | ].
        split; [exact Ha | ]. split; [ | intros _; exact Hself].
        split; [discriminate | congruence].
Qed.

Lemma fs_rollback_reports_witness :
  exists (ok : bool) (q : nat),
    FileSystem.rollback "a" 3 sample_fs sample_world
    = Some (tt,
            FileSystem.set_file_store
              (<[0%nat := File.set_active_version q sample_file]> (file_store sample_fs))
              sample_fs,
            mkWorld (time_src sample_world) (strftime_c sample_world) (ticks sample_world)
              (cout sample_world ++
               if ok then [rollback_ok_text "a"]
               else [already_active_text; rollback_failed_text])) /\
    ok = false.
Proof.
  destruct sample_file_lookup as [Hp Hf].
  destruct (fs_rollback_reports "a" 3 sample_fs sample_world 0 sample_file sample_active
              sample_fs_wf Hp Hf sample_active_lookup)
    as (ok & q & Hrun & _ & Hok & _).
  assert (Hq : ok = false).
  { destruct ok; [ | reflexivity]. exfalso.
    assert (E : match FileSystem.rollback "a" 3 sample_fs sample_world with
                | Some (_, _, w1) => length (cout w1)
                | None => 0%nat
                end = 2%nat) by (vm_compute; reflexivity).
    rewrite Hrun in E. simpl in E. discriminate. }
  exists ok, q. split; [ | exact Hq].
  rewrite Hrun. subst ok. reflexivity.
Defined.

(** ** The destructors *)

(** X14. The destructors free everything once.  Whatever calls built the
    repository, [~FileSystem] returns and deletes every [File] object of
    the store exactly once, and the [deleteTree] of each file returns and
    deletes every version node of that file exactly once: nothing is
    deleted twice, nothing is read after it was deleted and nothing is
    left. *)
Theorem destructors_free_everything (cs : list api_call) (w : World) :
  Z.of_nat (length cs) < 2 ^ 30 ->
  exists fs w' freed,
    perform_all cs FileSystem.new w = Some (tt, fs, w') /\
    delete_FileSystem fs = Some freed /\
    map fst freed ≡ₚ seq 0 (length (file_store fs)) /\
    forall p l, (p, l) ∈ freed ->
      exists f, file_store fs !! p = Some f /\
                delete_File f = Some l /\
                l ≡ₚ seq 0 (length (nodes f)).
Proof.
  intros Hlen.
  assert (Hroom : room (length cs) FileSystem.new).
  { split.
    - unfold FileSystem.new. simpl files.
      rewrite getValues_entries, entries_new. simpl. lia.
    - constructor. }
  destruct (perform_all_store_ok cs FileSystem.new w new_fs_wf Hroom new_store_ok)
    as (fs & w' & Hrun & Hwf & Hok).
  destruct (delete_FileSystem_spec fs Hwf Hok) as (freed & Hdel & Hfiles & Hnodes).
  exists fs, w', freed. auto.
Qed.

Lemma destructors_free_everything_witness :
  exists fs w' freed,
    perform_all sample_calls FileSystem.new sample_world = Some (tt, fs, w') /\
    delete_FileSystem fs = Some freed /\
    map fst freed ≡ₚ seq 0 (length (file_store fs)) /\
    forall p l, (p, l) ∈ freed ->
      exists f, file_store fs !! p = Some f /\
                delete_File f = Some l /\
                l ≡ₚ seq 0 (length (nodes f)).
Proof.
  apply (destructors_free_everything sample_calls sample_world).
  vm_compute. reflexivity.
Defined.

(** ** parse_input and main *)

(** X15. [parse_input] splits a line at its runs of spaces.  Every line
    is some leading spaces followed by words, each followed by one space
    or more, and a last word that may be missing; on such a line the
    command becomes the first word and the other words are appended to the
    arguments in order; a line without a word leaves both outputs as they
    were.  So the command and the arguments found are never empty and
    hold no space. *)
Theorem parse_input_splits_at_spaces (command : string) (args : list string) :
  (forall pre ws last,
     Forall (fun wn => word (fst wn) = true) ws ->
     last = EmptyString \/ word last = true ->
     parse_input (spaces pre +:+ layout ws last) command args
     = match words_of ws last with
       | [] => (command, args)
       | c :: rest => (c, args ++ rest)
       end) /\
  (forall line, exists pre ws last,
     line = spaces pre +:+ layout ws last /\
     Forall (fun wn => word (fst wn) = true) ws /\
     (last = EmptyString \/ word last = true)) /\
  (forall line,
     parse_input line command args = (command, args) \/
     exists c found,
       parse_input line command args = (c, args ++ found) /\
       word c = true /\ Forall (fun a => word a = true) found).
Proof.
  split; [intros pre ws last; apply parse_input_layout | ].
  split; [apply line_layout | ].
  intros line. destruct (line_layout line) as (pre & ws & last & -> & Hws & Hlast).
  rewrite parse_input_layout by assumption.
  pose proof (words_of_word ws last Hws Hlast) as Hwords.
  destruct (words_of ws last) as [ | c found]; [left; reflexivity | ].
  right. exists c, found. inversion Hwords; subst. auto.
Qed.

(** X16. The text of INSERT, UPDATE and SNAPSHOT.  On a line made of the
    command, a name and at least one more word, however many spaces
    separate them, [main] calls the method on that name with the other
    words joined by single spaces: runs of spaces inside the text and
    spaces at its ends are not kept, and a text typed with single spaces
    arrives as typed. *)
Theorem main_text_commands (stoi : string -> stoi_result) (pre n0 n1 : nat)
    (name : string) (ws : list (string * nat)) (last : string)
    (fs : FileSystem) (w : World) :
  word name = true ->
  Forall (fun wn => word (fst wn) = true) ws ->
  last = EmptyString \/ word last = true ->
  words_of ws last <> [] ->
  Z.of_nat (length ws) < 2 ^ 62 ->
  let text := join_words (words_of ws last) in
  let line c := spaces pre +:+ layout ((c, n0) :: (name, n1) :: ws) last in
  main_iteration stoi (line "INSERT"%string) fs w
  = (FileSystem.insert name text ;; ret Continue)%cpp fs w /\
  main_iteration stoi (line "UPDATE"%string) fs w
  = (FileSystem.update name text ;; ret Continue)%cpp fs w /\
  main_iteration stoi (line "SNAPSHOT"%string) fs w
  = (FileSystem.snapshot name text ;; ret Continue)%cpp fs w /\
  (Forall (fun wn => snd wn = 0%nat) ws -> str_empty last = false ->
   text = layout ws last).
Proof.
  intros Hname Hws Hlast Hne Hsize. cbv zeta.
  assert (Hparse : forall c, word c = true ->
            str_empty (spaces pre +:+ layout ((c, n0) :: (name, n1) :: ws) last) = false /\
            parse_input (spaces pre +:+ layout ((c, n0) :: (name, n1) :: ws) last)
                        EmptyString []
            = (c, name :: words_of ws last)).
  { intros c Hc. split.
    - rewrite str_empty_app. cbn [layout]. rewrite str_empty_app.
      rewrite (word_not_empty c Hc). rewrite andb_false_r. reflexivity.
    - rewrite parse_input_layout; [reflexivity | | exact Hlast].
      constructor; [exact Hc | ]. constructor; [exact Hname | exact Hws]. }
  assert (Hlen : Z.of_nat (length (words_of ws last)) < 2 ^ 63).
  { pose proof (words_of_length ws last). lia. }
  split; [ | split; [ | split]].
  - destruct (Hparse "INSERT"%string eq_refl) as [Hl Hp].
    destruct (main_iteration_text stoi _ _ name _ fs w Hl Hp Hne Hlen) as (H & _ & _).
    apply H. reflexivity.
  - destruct (Hparse "UPDATE"%string eq_refl) as [Hl Hp].
    destruct (main_iteration_text stoi _ _ name _ fs w Hl Hp Hne Hlen) as (_ & H & _).
    apply H. reflexivity.
  - destruct (Hparse "SNAPSHOT"%string eq_refl) as [Hl Hp].
    destruct (main_iteration_text stoi _ _ name _ fs w Hl Hp Hne Hlen) as (_ & _ & H).
    apply H. reflexivity.
  - intros Hsingle Hl. symmetry. apply layout_join; assumption.
Qed.

Lemma main_text_commands_witness :
  main_iteration decimal_stoi "INSERT  a hello   world " sample_fs sample_world
  = (FileSystem.insert "a" "hello world" ;; ret Continue)%cpp sample_fs sample_world.
Proof.
  destruct (main_text_commands decimal_stoi 0 1 0 "a" [("hello", 2%nat); ("world", 0%nat)]%string
              EmptyString sample_fs sample_world) as (H & _).
  - reflexivity.
  - repeat constructor.
  - left. reflexivity.
  - discriminate.
  - simpl. lia.
  - exact H.
Defined.

(** X17. What [main] does not run.  A line whose first word is not one of
    the eleven commands (a command in lower case, a line of spaces), a
    CREATE, READ or HISTORY with no name or with more than one word after
    the command, an INSERT, UPDATE or SNAPSHOT without a text, and a
    ROLLBACK with no name or with more than two arguments print the
    unknown-command report and leave the repository as it is; an empty
    line prints nothing. *)
Theorem main_rejects (stoi : string -> stoi_result) (fs : FileSystem) (w : World) :
  (forall line command args,
     str_empty line = false ->
     parse_input line EmptyString [] = (command, args) ->
     rejected command args ->
     main_iteration stoi line fs w = Some (Continue, fs, say unknown_text w)) /\
  (forall n, main_iteration stoi (spaces (S n)) fs w
             = Some (Continue, fs, say unknown_text w)) /\
  main_iteration stoi EmptyString fs w = Some (Continue, fs, w).
Proof.
  split; [intros line command args; apply main_iteration_rejected | ].
  split; [ | reflexivity].
  intros n. apply (main_iteration_rejected stoi _ EmptyString []); [reflexivity | | ].
  - pose proof (parse_input_layout (S n) [] EmptyString EmptyString []
                  (Forall_nil _) (or_introl eq_refl)) as Hp.
    cbn [layout] in Hp. rewrite string_app_nil_r in Hp. exact Hp.
  - left. intros Hin. apply list_elem_of_In in Hin. simpl in Hin.
    repeat (destruct Hin as [Hin | Hin]; [discriminate | ]). exact Hin.
Qed.

(** X18. [main] returns.  When [stoi] reports no number as out of range,
    [main] reads its input to the end, or to the first EXIT or QUIT, runs
    the destructor of the repository and returns [0], whatever the lines
    hold; the repository the loop leaves is well formed.  A command fails
    to return in one case only: the id of a ROLLBACK, or the number of
    RECENT_FILES or BIGGEST_TREES, is out of range for [int], an
    exception [main] does not catch. *)
Theorem main_returns (stoi : string -> stoi_result) :
  stoi_int stoi ->
  (forall cin w,
     Z.of_nat (length cin) < 2 ^ 30 ->
     Forall (fun line => Z.of_nat (String.length line) < 2 ^ 63 /\
                         overflows stoi line = false) cin ->
     exists fs w', main stoi cin w = Some (0, fs, w') /\ fs_wf fs) /\
  (forall line k fs w,
     Z.of_nat (String.length line) < 2 ^ 63 ->
     fs_wf fs -> room (S k) fs -> store_ok fs ->
     (main_iteration stoi line fs w = None <-> overflows stoi line = true) /\
     (overflows stoi line = false ->
      exists how fs' w', main_iteration stoi line fs w = Some (how, fs', w') /\
                         fs_wf fs' /\ room k fs' /\ store_ok fs')).
Proof.
  intros Hint. split.
  - intros cin w Hlen Hcin.
    assert (Hroom : room (length cin) FileSystem.new).
    { split.
      - unfold FileSystem.new. simpl files.
        rewrite getValues_entries, entries_new. simpl. lia.
      - constructor. }
    destruct (main_loop_safe stoi Hint cin FileSystem.new
                (say ("Enter 'QUIT' or 'EXIT' to terminate." +:+ NL)
                   (say ("--- Time-Travelling File System ---" +:+ NL) w))
                new_fs_wf Hroom new_store_ok Hcin) as (fs & w' & Hrun & Hwf & Hok).
    exists fs, w'. split; [ | exact Hwf].
    destruct (delete_FileSystem_spec fs Hwf Hok) as (freed & Hdel & _).
    rewrite main_run, Hrun, Hdel. reflexivity.
  - intros line k fs w Hsize Hwf Hroom Hok.
    destruct (main_iteration_safe stoi Hint line k fs w Hsize Hwf Hroom Hok)
      as [[Hover Hrun] | (Hover & how & fs' & w' & Hrun & Hwf' & Hroom' & Hok')].
    + split; [tauto | congruence].
    + split.
      * rewrite Hrun, Hover. split; discriminate.
      * intros _. eauto 8.
Qed.

Lemma main_returns_witness :
  (exists fs w', main decimal_stoi sample_cin sample_world = Some (0, fs, w') /\ fs_wf fs) /\
  main_iteration decimal_stoi "ROLLBACK a 99999999999" sample_fs sample_world = None.
Proof.
  destruct (main_returns decimal_stoi stoi_int_decimal) as [Hmain Hline].
  split.
  - apply Hmain; [vm_compute; reflexivity | ].
    apply cin_check. vm_compute. reflexivity.
  - destruct (Hline "ROLLBACK a 99999999999"%string 3%nat sample_fs sample_world)
      as [Hiff _].
    + vm_compute. reflexivity.
    + exact sample_fs_wf.
    + exact sample_fs_room.
    + exact sample_fs_store_ok.
    + apply Hiff. vm_compute. reflexivity.
Defined.

(** X19. EXIT and QUIT end the session.  A line whose first word is EXIT
    or QUIT, whatever follows the word, prints the farewell, changes
    nothing and leaves the loop: no line after it is read, so the input
    that follows makes no difference; at the end of the input the loop
    prints the prompt once more and ends. *)
Theorem main_stops_at_exit (stoi : string -> stoi_result) (line : string) :
  exits line = true ->
  (forall fs w, main_iteration stoi line fs w = Some (Break, fs, say exiting_text w)) /\
  (forall pre post fs w,
     main_loop stoi (pre ++ line :: post) fs w = main_loop stoi (pre ++ [line]) fs w) /\
  (forall pre post w, main stoi (pre ++ line :: post) w = main stoi (pre ++ [line]) w) /\
  (forall fs w, main_loop stoi [] fs w = Some (tt, fs, say "> " w)).
Proof.
  intros Hexit. split; [ | split; [ | split]].
  - intros fs w. unfold exits in Hexit. apply andb_true_iff in Hexit.
    destruct Hexit as [Hl Hc]. apply negb_true_iff in Hl.
    destruct (parse_input line EmptyString []) as [command args] eqn:Hp. cbn [fst] in Hc.
    apply (main_iteration_exit stoi line command args fs w Hl Hp).
    apply orb_true_iff in Hc. destruct Hc as [Hc | Hc]; apply String.eqb_eq in Hc; tauto.
  - apply main_loop_stops. exact Hexit.
  - intros pre post w.
    rewrite !main_run, (main_loop_stops stoi line Hexit pre post). reflexivity.
  - reflexivity.
Qed.

Lemma main_stops_at_exit_witness :
  main decimal_stoi (["CREATE a"; "QUIT now"; "CREATE b"]%string) sample_world
  = main decimal_stoi (["CREATE a"; "QUIT now"]%string) sample_world.
Proof.
  destruct (main_stops_at_exit decimal_stoi "QUIT now") as (_ & _ & H & _).
  - reflexivity.
  - exact (H ["CREATE a"%string] ["CREATE b"%string] sample_world).
Defined.
